(** * openedu_builder: the Docusaurus plugin

    A shallow embedding of [openedu_builder/plugins/docusaurus.py]:
    the structure parser ([_parse_structure], with its two passes
    [_parse_copy] and [_parse_sidebar]) and the link resolver
    ([_resolve_links]), together with the parts of Python's [str],
    [posixpath] and [re] that these two functions call.

    Strings are byte strings ([list ascii]); every pattern the plugin
    looks for is ASCII, so working on the UTF-8 bytes of a text is the
    same as working on its code points. *)

From Stdlib Require Import Ascii String NArith Lia.
From stdpp Require Import base list strings sorting.

Set Warnings "-register-all".

Open Scope string_scope.
Open Scope list_scope.
Open Scope nat_scope.

Definition str := list ascii.
Definition of_string (s : string) : str := list_ascii_of_string s.
Coercion of_string : string >-> str.
Arguments of_string : simpl never.

(** ** Python [str] methods *)

Module pystr.

(** [c in chars] for a character. *)
Definition char_in (c : ascii) (chars : str) : bool :=
  bool_decide (c ∈ chars).

(** [s.startswith(x)] *)
Fixpoint startswith (s x : str) {struct x} : bool :=
  match x, s with
  | [], _ => true
  | _ :: _, [] => false
  | a :: x', b :: s' => bool_decide (a = b) && startswith s' x'
  end.

(** [s.endswith(x)] *)
Definition endswith (s x : str) : bool := startswith (rev s) (rev x).

(** [s.removeprefix(x)] *)
Definition removeprefix (s x : str) : str :=
  if startswith s x then drop (length x) s else s.

(** [s.lstrip(chars)] *)
Fixpoint lstrip (s chars : str) : str :=
  match s with
  | [] => []
  | c :: t => if char_in c chars then lstrip t chars else s
  end.

(** [s.rstrip(chars)] *)
Fixpoint rstrip (s chars : str) : str :=
  match s with
  | [] => []
  | c :: t =>
      match rstrip t chars with
      | [] => if char_in c chars then [] else [c]
      | r => c :: r
      end
  end.

(** [s.strip(chars)] *)
Definition strip (s chars : str) : str := lstrip (rstrip s chars) chars.

(** [s.split(sep)] for a one-character separator. *)
Fixpoint split (s : str) (sep : ascii) : list str :=
  match s with
  | [] => [[]]
  | c :: t =>
      if bool_decide (c = sep) then [] :: split t sep
      else match split t sep with
           | h :: r => (c :: h) :: r
           | [] => [[c]]
           end
  end.

(** [sep.join(l)] *)
Fixpoint join (sep : str) (l : list str) : str :=
  match l with
  | [] => []
  | [x] => x
  | x :: t => x ++ sep ++ join sep t
  end.

(** [x in s] for strings. *)
Fixpoint contains (s x : str) : bool :=
  startswith s x ||
  match s with
  | [] => false
  | _ :: t => contains t x
  end.

(** The scan of [s.replace(old, new)] for a non-empty [old]: left to
    right, non-overlapping; [skip] counts the characters of a replaced
    occurrence that are still to be passed over. *)
Fixpoint replace_from (old new : str) (skip : nat) (s : str) : str :=
  match s with
  | [] => []
  | c :: t =>
      match skip with
      | S k => replace_from old new k t
      | O =>
          if startswith s old
          then new ++ replace_from old new (length old - 1) t
          else c :: replace_from old new 0 t
      end
  end.

(** [s.replace(old, new)] *)
Definition replace (s old new : str) : str :=
  match old with
  | [] => new ++ flat_map (λ c, c :: new) s
  | _ => replace_from old new 0 s
  end.

End pystr.

(** ** [posixpath] *)

Module os_path.
Import pystr.

Definition sep : ascii := "/"%char.

(** [isabs(p)] *)
Definition isabs (p : str) : bool := startswith p "/".

(** [join(a, *p)] *)
Definition join2 (path b : str) : str :=
  if startswith b "/" then b
  else if bool_decide (path = []) || endswith path "/" then path ++ b
  else path ++ ("/" : str) ++ b.

Definition join (a : str) (p : list str) : str := fold_left join2 p a.

(** [i = p.rfind('/') + 1; (p[:i], p[i:])] *)
Fixpoint split_at_last_sep (p : str) : str * str :=
  match p with
  | [] => ([], [])
  | c :: t =>
      let '(h, b) := split_at_last_sep t in
      match h with
      | [] => if bool_decide (c = sep) then ([c], b) else ([], c :: b)
      | _ => (c :: h, b)
      end
  end.

(** [dirname(p)] *)
Definition dirname (p : str) : str :=
  let head := (split_at_last_sep p).1 in
  if forallb (λ c, bool_decide (c = sep)) head then head
  else rstrip head "/".

(** [basename(p)] *)
Definition basename (p : str) : str := (split_at_last_sep p).2.

(** [(b[:i], b[i:])] for [i = b.rfind('.')], when [b] has a dot. *)
Fixpoint split_at_last_dot (b : str) : option (str * str) :=
  match b with
  | [] => None
  | c :: t =>
      match split_at_last_dot t with
      | Some (d, e) => Some (c :: d, e)
      | None => if bool_decide (c = "."%char) then Some ([], c :: t) else None
      end
  end.

(** [splitext(p)]: the extension starts at the last dot of the last
    component, unless only dots precede it there. *)
Definition splitext (p : str) : str * str :=
  let '(h, b) := split_at_last_sep p in
  match split_at_last_dot b with
  | Some (d, e) =>
      if forallb (λ c, bool_decide (c = "."%char)) d then (p, [])
      else (h ++ d, e)
  | None => (p, [])
  end.

(** One round of the loop of [normpath]. [new_comps] is kept with its
    last element first, so that [append] is a cons and [pop] a tail. *)
Definition norm_step (rooted : bool) (new_comps : list str) (comp : str)
  : list str :=
  if bool_decide (comp = []) || bool_decide (comp = ".") then new_comps
  else if negb (bool_decide (comp = ".."))
          || (negb rooted && bool_decide (new_comps = []))
          || match new_comps with
             | top :: _ => bool_decide (top = "..")
             | [] => false
             end
  then comp :: new_comps
  else tail new_comps.

Definition norm_comps (rooted : bool) (comps : list str) : list str :=
  rev (fold_left (norm_step rooted) comps []).

(** The number of slashes [normpath] keeps in front: POSIX allows one
    or two initial slashes, three or more count as one. *)
Definition initial_slashes (path : str) : nat :=
  if startswith path "/" then
    if startswith path "//" && negb (startswith path "///") then 2 else 1
  else 0.

(** [normpath(path)] *)
Definition normpath (path : str) : str :=
  match path with
  | [] => "."
  | _ =>
      let n := initial_slashes path in
      let comps := norm_comps (negb (bool_decide (n = 0))) (split path sep) in
      match repeat sep n ++ pystr.join "/" comps with
      | [] => "."
      | p => p
      end
  end.

(** [abspath(path)], with the working directory [cwd] of the process. *)
Definition abspath (cwd path : str) : str :=
  normpath (if isabs path then path else join cwd [path]).

(** [commonprefix([l1, l2])] on lists of components. *)
Fixpoint commonprefix (l1 l2 : list str) : list str :=
  match l1, l2 with
  | a :: t1, b :: t2 =>
      if bool_decide (a = b) then a :: commonprefix t1 t2 else []
  | _, _ => []
  end.

(** [relpath(path, start)]; [None] is the [ValueError] for an empty
    [path]. *)
Definition relpath (cwd path start : str) : option str :=
  match path with
  | [] => None
  | _ =>
      let nonempty := filter (λ x : str, x ≠ []) in
      let start_list := nonempty (split (abspath cwd start) sep) in
      let path_list := nonempty (split (abspath cwd path) sep) in
      let i := length (commonprefix start_list path_list) in
      let rel_list :=
        repeat (".." : str) (length start_list - i) ++ drop i path_list in
      match rel_list with
      | [] => Some (of_string ".")
      | a :: p => Some (join a p)
      end
  end.

End os_path.

(** ** [openedu_builder.path_utils] *)

Module path_utils.
Import pystr.

(** Modelled from the spec: [path_utils.real_join] is not part of the
    sources at hand. The specification describes it as the helper that
    joins possibly-relative-or-absolute path fragments against a base
    and resolves the result textually to an absolute path. The
    fragments are joined as [os.path.join] does, relative results are
    taken from the working directory [cwd], and the path is brought to
    the canonical form of a real path: one leading slash, no empty,
    [.] or [..] component (symbolic links are not modelled). *)
Definition real_join (cwd : str) (parts : list str) : str :=
  let p := os_path.join cwd parts in
  ("/" : str) ++ pystr.join "/" (os_path.norm_comps true (split p os_path.sep)).

(** Modelled from the spec: [path_utils.stem] is not part of the
    sources at hand; the specification describes it as extracting a
    filename stem: the last component of the path without its
    extension. *)
Definition stem (path : str) : str :=
  (os_path.splitext (os_path.basename path)).1.

End path_utils.

(** ** The two regular expressions of the link resolver

    [re.finditer] tries the pattern at each position from left to right
    and resumes after the end of a match. Both patterns are matched by
    backtracking; a lazy [.*?] takes no character first, and one more
    (never a newline) each time the rest of the pattern fails. The
    matchers return group 1 and the number of characters that the part
    of the pattern they stand for has taken. *)

Module re.

Definition newline : ascii := "010"%char.
Abbreviation quote := ("034"%char).

Definition hit : Type := str * nat.

Definition shift (n : nat) (r : option hit) : option hit :=
  match r with
  | Some (g, k) => Some (g, n + k)
  | None => None
  end.

Definition grow (c : ascii) (r : option hit) : option hit :=
  match r with
  | Some (g, k) => Some (c :: g, S k)
  | None => None
  end.

(** [.*?\)] at the end of [md_link_regex], inside group 1. *)
Fixpoint md_group (s : str) : option hit :=
  match s with
  | [] => None
  | c :: t =>
      if bool_decide (c = ")"%char) then Some ([], 1)
      else if bool_decide (c = newline) then None
      else grow c (md_group t)
  end.

(** [.*?>] at the end of [iframe_link_regex]. *)
Fixpoint iframe_close (s : str) : option nat :=
  match s with
  | [] => None
  | c :: t =>
      if bool_decide (c = ">"%char) then Some 1
      else if bool_decide (c = newline) then None
      else S <$> iframe_close t
  end.

(** The end of group 1 in [iframe_link_regex], then the closing quote
    and [.*?>]. *)
Fixpoint iframe_group (s : str) : option hit :=
  match s with
  | [] => None
  | c :: t =>
      let more :=
        if bool_decide (c = newline) then None else grow c (iframe_group t) in
      if bool_decide (c = quote) then
        match iframe_close t with
        | Some k => Some ([], S k)
        | None => more
        end
      else more
  end.

(** [(\.(?:\.)?\/.*?)] followed by [rest], which closes the group. *)
Definition target (rest : str → option hit) (s : str) : option hit :=
  match s with
  | "."%char :: "."%char :: "/"%char :: t =>
      grow "." (grow "." (grow "/" (rest t)))
  | "."%char :: "/"%char :: t => grow "." (grow "/" (rest t))
  | _ => None
  end.

(** [.*?\]\((\.(?:\.)?\/.*?)\)], after the opening bracket. *)
Fixpoint md_label (s : str) : option hit :=
  let here :=
    match s with
    | "]"%char :: "("%char :: t => shift 2 (target md_group t)
    | _ => None
    end in
  match here with
  | Some r => Some r
  | None =>
      match s with
      | [] => None
      | c :: t =>
          if bool_decide (c = newline) then None else shift 1 (md_label t)
      end
  end.

(** [iframe_link_regex] after [<iframe]: lazily up to [src=], a quote
    and the target. *)
Fixpoint iframe_attrs (s : str) : option hit :=
  let here :=
    match s with
    | "s"%char :: "r"%char :: "c"%char :: "="%char :: quote :: t =>
        shift 5 (target iframe_group t)
    | _ => None
    end in
  match here with
  | Some r => Some r
  | None =>
      match s with
      | [] => None
      | c :: t =>
          if bool_decide (c = newline) then None else shift 1 (iframe_attrs t)
      end
  end.

(** [md_link_regex] tried at the start of [s]. *)
Definition md_link_regex (s : str) : option hit :=
  match s with
  | "["%char :: t => shift 1 (md_label t)
  | _ => None
  end.

(** [iframe_link_regex] tried at the start of [s]. *)
Definition iframe_link_regex (s : str) : option hit :=
  if pystr.startswith s "<iframe" then shift 7 (iframe_attrs (drop 7 s))
  else None.

(** [[m.group(1) for m in re.finditer(regex, s)]]; [skip] counts the
    characters of the last match that are still to be passed over. *)
Fixpoint finditer_from (regex : str → option hit) (skip : nat) (s : str)
  : list str :=
  match s with
  | [] => []
  | _ :: t =>
      match skip with
      | S k => finditer_from regex k t
      | O =>
          match regex s with
          | Some (g, n) => g :: finditer_from regex (n - 1) t
          | None => finditer_from regex 0 t
          end
      end
  end.

Definition finditer (regex : str → option hit) (s : str) : list str :=
  finditer_from regex 0 s.

End re.

(** ** Exceptions *)

Inductive exception :=
| PluginRunError
| KeyError (key : str)
| TypeError
| AttributeError
| IndexError
| ValueError
| IsADirectoryError
| UnicodeDecodeError
| UnicodeEncodeError.

Inductive result (A : Type) :=
| Ok (a : A)
| Raise (e : exception).
Arguments Ok {A} a.
Arguments Raise {A} e.

#[global] Instance result_ret : MRet result := λ A a, Ok a.
#[global] Instance result_bind : MBind result := λ A B f m,
  match m with
  | Ok a => f a
  | Raise e => Raise e
  end.

(** [for a in l: s = body(a, s)], stopping at the first exception. *)
Definition for_each {A S : Type} (body : A → S → result S)
  : list A → S → result S :=
  fix go l s :=
    match l with
    | [] => Ok s
    | a :: r => s' ← body a s; go r s'
    end.

(** ** The structure description

    The [structure] option of the plugin's configuration, as the YAML
    loader hands it over: strings, lists and dicts; [VOther] stands for
    every other value (numbers, booleans, [None]). A dict is the list of
    its items in insertion order; its keys are strings, pairwise
    distinct. *)

Inductive value :=
| VStr (s : str)
| VList (items : list value)
| VDict (items : list (str * value))
| VOther.

(** [d.get(key)] *)
Fixpoint dict_get (d : list (str * value)) (key : str) : option value :=
  match d with
  | [] => None
  | (k, v) :: r => if bool_decide (k = key) then Some v else dict_get r key
  end.

(** [f(d.get(key, default))], for a recursive [f]: [otherwise] is what
    [f] gives for the default. *)
Definition with_get {B : Type} (key : str) (f : value → B) (otherwise : B)
  : list (str * value) → B :=
  fix go d :=
    match d with
    | [] => otherwise
    | (k, v) :: r => if bool_decide (k = key) then f v else go r
    end.

(** [iter(v)]: a list yields its items, a string its characters, a dict
    its keys; nothing else is iterable. *)
Definition py_iter (v : value) : result (list value) :=
  match v with
  | VList items => Ok items
  | VStr s => Ok ((λ c, VStr [c]) <$> s)
  | VDict items => Ok ((λ kv, VStr kv.1) <$> items)
  | VOther => Raise TypeError
  end.

(** [(list(item.keys())[0], list(item.values())[0])] *)
Definition first_item (item : value) : result (str * value) :=
  match item with
  | VDict (kv :: _) => Ok kv
  | VDict [] => Raise IndexError
  | _ => Raise AttributeError
  end.

(** ** The navigation tree

    One dict of the sidebar: ["title"], ["id"] and, for a node made from
    a list or a section, ["children"]. *)

Inductive nav := Nav {
  title : str;
  id : str;
  children : option (list nav)
}.

(** The copy plan: a Python [set] of pairs, kept as the list of its
    elements without repetition. The order of the list is the order in
    which the elements were added; Python promises no order when the set
    is iterated, so no statement about the plan may depend on it. *)
Definition plan := list (str * str).

(** [to_copy.add(e)] *)
Definition set_add (e : str * str) (to_copy : plan) : plan :=
  if bool_decide (e ∈ to_copy) then to_copy else to_copy ++ [e].

(** ** [DocusaurusPlugin._parse_structure] *)

Module DocusaurusPlugin.
Import pystr.

(** The body of [for extra in v.get("extra", [])]. *)
Definition add_extra (cwd _src_path _dst_path : str) (extra : value)
    (to_copy : plan) : result plan :=
  match extra with
  | VStr extra =>
      let extra := rstrip extra [os_path.sep] in
      Ok (set_add (path_utils.real_join cwd [_src_path; extra],
                   path_utils.real_join cwd [_dst_path; path_utils.stem extra])
                  to_copy)
  | _ => Raise AttributeError
  end.

(** [_parse_copy(structure, src_path, dst_path)], with the set [to_copy]
    it adds to passed along. A missing ["subsections"] is read as the
    empty list, for which the call has nothing to do. *)
Fixpoint _parse_copy (cwd : str) (structure : value) (src_path dst_path : str)
    (to_copy : plan) {struct structure} : result plan :=
  match structure with
  | VList items =>
      for_each (λ item, _parse_copy cwd item src_path dst_path) items to_copy
  | VDict items =>
      for_each (λ '(k, v) to_copy,
        match v with
        | VStr s =>
            let _dst_path := os_path.join dst_path [os_path.dirname k] in
            Ok (set_add (path_utils.real_join cwd [src_path; s], _dst_path)
                        to_copy)
        | VDict d =>
            let _dst_path := os_path.join dst_path [k] in
            path ← match dict_get d "path" with
                   | None => Ok []
                   | Some (VStr p) => Ok p
                   | Some _ => Raise TypeError
                   end;
            let _src_path := path_utils.real_join cwd [src_path; path] in
            extras ← match dict_get d "extra" with
                     | None => Ok []
                     | Some e => py_iter e
                     end;
            to_copy ← for_each (add_extra cwd _src_path _dst_path)
                               extras to_copy;
            with_get "subsections"
              (λ sub, _parse_copy cwd sub _src_path _dst_path to_copy)
              (Ok to_copy) d
        | VList _ =>
            let _dst_path := os_path.join dst_path [k] in
            _parse_copy cwd v src_path _dst_path to_copy
        | VOther => Raise PluginRunError
        end) items to_copy
  | _ => Raise PluginRunError
  end.

(** [for item in items: retval["children"].append(_parse_sidebar(...))] *)
Definition each_child (_parse_sidebar : str → value → result nav)
  : list value → result (list nav) :=
  fix go items :=
    match items with
    | [] => Ok []
    | item :: r =>
        child ← match item with
                | VDict ((k, v) :: _) => _parse_sidebar k v
                | VDict [] => Raise IndexError
                | _ => Raise AttributeError
                end;
        rest ← go r;
        Ok (child :: rest)
    end.

(** The document id of a string-valued entry. *)
Definition leaf_id (k s path : str) : str :=
  let path :=
    match os_path.dirname k with
    | [] => path
    | path_component => path ++ path_component ++ ("/" : str)
    end in
  match path_utils.stem s with
  | [] =>
      match path_utils.stem k with
      | [] => path ++ ("README" : str)
      | stem => path ++ stem
      end
  | stem => path ++ stem
  end.

(** [_parse_sidebar(k, v, path)]. [unquote] is [urllib.parse.unquote].
    The items of a list, or of the ["subsections"] of a section, are
    dicts, of which the first item is used; iterating over a string or
    over a dict instead yields strings, which have no [keys]. *)
Fixpoint _parse_sidebar (unquote : str → str) (k : str) (v : value)
    (path : str) {struct v} : result nav :=
  let title := unquote (strip k "/") in
  match v with
  | VList items =>
      let _path := path ++ k ++ ("/" : str) in
      children ← each_child (λ k v, _parse_sidebar unquote k v _path) items;
      Ok (Nav title (path ++ k) (Some children))
  | VDict d =>
      let _path := path ++ k ++ ("/" : str) in
      children ←
        with_get "subsections"
          (λ sub,
             match sub with
             | VList items =>
                 each_child (λ k v, _parse_sidebar unquote k v _path) items
             | VStr [] | VDict [] => Ok []
             | VStr _ | VDict _ => Raise AttributeError
             | VOther => Raise TypeError
             end)
          (Raise (KeyError "subsections")) d;
      Ok (Nav title (path ++ k) (Some children))
  | VStr s => Ok (Nav title (leaf_id k s path) None)
  | VOther => Ok (Nav title (path ++ k) None)
  end.

(** What [_parse_structure] stores: [self.intro] and the entries
    ["to_copy"] and ["sidebar"] of [self.structure] (["raw"] is the
    input). *)
Record parsed := Parsed {
  intro : bool;
  to_copy : plan;
  sidebar : list nav
}.

(** The loop [for item in structure] at the end of [_parse_structure]. *)
Definition top_item (unquote : str → str) (item : value) (acc : bool * list nav)
  : result (bool * list nav) :=
  kv ← first_item item;
  let k : str := kv.1 in
  let v : value := kv.2 in
  let intro := if bool_decide (k = "Introduction") then true else acc.1 in
  n ← _parse_sidebar unquote k v [];
  Ok (intro, acc.2 ++ [n]).

(** [_parse_structure()], for the value [structure] of the option of
    that name, the working directory [cwd] and [self.docusaurus_dir]. *)
Definition _parse_structure (unquote : str → str) (cwd docusaurus_dir : str)
    (structure : value) : result parsed :=
  to_copy ← _parse_copy cwd structure cwd
              (os_path.join docusaurus_dir ["docs" : str]) [];
  items ← py_iter structure;
  r ← for_each (top_item unquote) items (false, []);
  Ok (Parsed r.1 to_copy r.2).

(** *** The file system, the log and the mappings of [_resolve_links] *)

(** What a path names: a regular file with its bytes, or a directory.
    The file system is looked up with the path as the program spells
    it. *)
Inductive node :=
| File (content : str)
| Dir.

Definition filesystem := str → option node.

(** [os.path.isfile(p)] *)
Definition isfile (fs : filesystem) (p : str) : bool :=
  match fs p with
  | Some (File _) => true
  | _ => false
  end.

(** [os.path.isdir(p)] *)
Definition isdir (fs : filesystem) (p : str) : bool :=
  match fs p with
  | Some Dir => true
  | _ => false
  end.

(** [os.path.exists(p)] *)
Definition path_exists (fs : filesystem) (p : str) : bool :=
  match fs p with
  | Some _ => true
  | None => false
  end.

(** The byte [c] lies between [lo] and [hi]. *)
Definition byte_in (lo hi : N) (c : ascii) : bool :=
  ((lo <=? N_of_ascii c) && (N_of_ascii c <=? hi))%N.

(** The bytes are a text in UTF-8, as the strict decoder of Python
    takes it: sequences of one to four bytes, none longer than its
    code point needs, no surrogate and nothing above U+10FFFF. *)
Fixpoint utf8_valid (s : str) : bool :=
  match s with
  | [] => true
  | c :: t =>
      if byte_in 0x00 0x7F c then utf8_valid t
      else if byte_in 0xC2 0xDF c then
        match t with
        | c1 :: t1 => byte_in 0x80 0xBF c1 && utf8_valid t1
        | _ => false
        end
      else if byte_in 0xE0 0xEF c then
        match t with
        | c1 :: c2 :: t2 =>
            byte_in (if byte_in 0xE0 0xE0 c then 0xA0 else 0x80)
                    (if byte_in 0xED 0xED c then 0x9F else 0xBF) c1
            && byte_in 0x80 0xBF c2
            && utf8_valid t2
        | _ => false
        end
      else if byte_in 0xF0 0xF4 c then
        match t with
        | c1 :: c2 :: c3 :: t3 =>
            byte_in (if byte_in 0xF0 0xF0 c then 0x90 else 0x80)
                    (if byte_in 0xF4 0xF4 c then 0x8F else 0xBF) c1
            && byte_in 0x80 0xBF c2
            && byte_in 0x80 0xBF c3
            && utf8_valid t3
        | _ => false
        end
      else false
  end.

Definition carriage_return : ascii := "013"%char.

(** The line ends of a text read with [newline=None]: a carriage
    return with the line feed after it, or alone, is read as a line
    feed. *)
Fixpoint universal_newlines (s : str) : str :=
  match s with
  | [] => []
  | c :: t =>
      if bool_decide (c = carriage_return) then
        re.newline ::
          match t with
          | c' :: t' =>
              if bool_decide (c' = re.newline) then universal_newlines t'
              else universal_newlines t
          | [] => []
          end
      else c :: universal_newlines t
  end.

(** [with open(p, "r") as f: f.read()], for a path that exists: the
    file is opened as a text, in the encoding of the locale, which is
    taken to be UTF-8. Bytes that are no text in this encoding raise
    [UnicodeDecodeError]; the text comes with its line ends as line
    feeds. *)
Definition read (fs : filesystem) (p : str) : result str :=
  match fs p with
  | Some (File content) =>
      if utf8_valid content then Ok (universal_newlines content)
      else Raise UnicodeDecodeError
  | _ => Raise IsADirectoryError
  end.

(** What [with open(p, "w") as f: f.write(content)] leaves at [p]: the
    bytes of the text; on POSIX, where [os.path] is [posixpath], a line
    feed is written as it is. *)
Definition write (fs : filesystem) (p content : str) : filesystem :=
  λ q, if bool_decide (q = p) then Some (File content) else fs q.

(** A [dict] from strings to strings: the list of its items in
    insertion order. *)
Definition mapping := list (str * str).

(** [m[k] = v]: a key that is present keeps its place. *)
Fixpoint mapping_set (m : mapping) (k v : str) : mapping :=
  match m with
  | [] => [(k, v)]
  | (k', v') :: r =>
      if bool_decide (k' = k) then (k, v) :: r else (k', v') :: mapping_set r k v
  end.

(** [m.get(k)] *)
Fixpoint mapping_get (m : mapping) (k : str) : option str :=
  match m with
  | [] => None
  | (k', v) :: r => if bool_decide (k' = k) then Some v else mapping_get r k
  end.

(** [m[k]] *)
Definition getitem (m : mapping) (k : str) : result str :=
  match mapping_get m k with
  | Some v => Ok v
  | None => Raise (KeyError k)
  end.

(** [m.keys()] *)
Definition keys (m : mapping) : list str := m.*1.

(** [sorted(l, key=key, reverse=True)]: the sort is stable, elements
    with equal keys stay in the order they have in [l]. *)
Fixpoint insert_sorted (key : str → nat) (x : str) (l : list str) : list str :=
  match l with
  | [] => [x]
  | y :: r =>
      if key y <=? key x then x :: l else y :: insert_sorted key x r
  end.

Definition sorted_reverse (key : str → nat) (l : list str) : list str :=
  foldr (insert_sorted key) [] l.

(** [len(x.strip("/").split(os.path.sep))] *)
Definition segments (x : str) : nat := length (split (strip x "/") os_path.sep).

(** The warnings of the run, oldest first ([log.warning]; the records of
    level debug and info are not kept). *)
Definition log := list str.

Definition unresolved_warning (src_ref src_link : str) : str :=
  ("Couldn't find " : str) ++ src_ref
  ++ (" in source files. Perhaps you didn't copy it? Skipping link " : str)
  ++ src_link ++ ("." : str).

(** *** [_resolve_links] *)

(** The first loop: one round for a pair of the copy plan. *)
Definition add_mapping (fs : filesystem) (m : mapping * mapping)
    (e : str * str) : mapping * mapping :=
  let '(src, dst) := e in
  let _src := rstrip src "/" in
  let _dst := rstrip dst "/" in
  let _dst :=
    if isfile fs src && isdir fs _dst
    then os_path.join _dst [os_path.basename src]
    else _dst in
  (mapping_set m.1 _src _dst, mapping_set m.2 _dst _src).

Definition create_mappings (fs : filesystem) (to_copy : plan)
  : mapping * mapping :=
  fold_left (add_mapping fs) to_copy ([], []).

(** [_walk_struct(structure)]: the ids it appends to [dst_files]. A
    node without children, or with an empty list of them, gives its own
    id. *)
Fixpoint _walk_struct (structure : nav) : list str :=
  match children structure with
  | Some ((_ :: _) as children) => flat_map _walk_struct children
  | _ => [id structure]
  end.

(** [next(x for x in _possible_src if src_ref.startswith(x))]; [None]
    is [StopIteration]. *)
Definition first_prefix (_possible_src : list str) (src_ref : str)
  : option str :=
  find (λ x, startswith src_ref x) _possible_src.

(** The new text of a link: the lines from [dst_link = os.path.relpath]
    to the end of the [if " " in dst_link] block. *)
Definition wrap_spaces (dst_link : str) : str :=
  if contains dst_link " "
  then replace (("<" : str) ++ dst_link ++ (">" : str)) ".md" []
  else dst_link.

(** The part of the loop body that computes [dst_link] for a link whose
    reference [src_ref] was found under [_src_ref]. *)
Definition new_link (fs : filesystem) (cwd : str) (src_to_dst : mapping)
    (dst_dir src_ref _src_ref : str) : result str :=
  let src_ref_dir :=
    if isfile fs _src_ref then os_path.dirname _src_ref else _src_ref in
  _dst_ref ← getitem src_to_dst _src_ref;
  let dst_ref_dir :=
    if isfile fs _dst_ref then os_path.dirname _dst_ref else _dst_ref in
  let dst_ref :=
    path_utils.real_join cwd
      [dst_ref_dir; lstrip (removeprefix src_ref src_ref_dir) "/"] in
  match os_path.relpath cwd dst_ref dst_dir with
  | Some dst_link => Ok (wrap_spaces dst_link)
  | None => Raise ValueError
  end.

(** One round of [for match in itertools.chain(...)], for the link
    [src_link = match.group(1)]; the state is [content] and the log. *)
Definition link_step (fs : filesystem) (cwd : str) (src_to_dst : mapping)
    (_possible_src : list str) (src_dir dst_dir : str)
    (src_link : str) (st : str * log) : result (str * log) :=
  let src_ref := path_utils.real_join cwd [src_dir; src_link] in
  match first_prefix _possible_src src_ref with
  | None => Ok (st.1, st.2 ++ [unresolved_warning src_ref src_link])
  | Some _src_ref =>
      dst_link ← new_link fs cwd src_to_dst dst_dir src_ref _src_ref;
      Ok (replace st.1 src_link dst_link, st.2)
  end.

(** The matches of the two patterns in [content], markdown links first;
    both iterators scan the text as it was read. *)
Definition links (content : str) : list str :=
  re.finditer re.md_link_regex content
  ++ re.finditer re.iframe_link_regex content.

(** The path tried for a document id: [.md], and [.mdx] when no such
    path exists. *)
Definition dst_file (fs : filesystem) (docusaurus_dir file : str) : str :=
  let _file := os_path.join docusaurus_dir ["docs" : str; file ++ (".md" : str)] in
  if path_exists fs _file then _file
  else os_path.join docusaurus_dir ["docs" : str; file ++ (".mdx" : str)].

(** One round of [for file in dst_files]; the state is the file system
    and the log. A text that the encoding of the locale cannot write
    raises [UnicodeEncodeError]. *)
Definition file_step (cwd docusaurus_dir : str) (src_to_dst dst_to_src : mapping)
    (file : str) (st : filesystem * log) : result (filesystem * log) :=
  let fs := st.1 in
  let _file := dst_file fs docusaurus_dir file in
  src_dir ← match mapping_get dst_to_src _file with
            | Some (c :: _nfile) => Ok (os_path.dirname (c :: _nfile))
            | _ => getitem dst_to_src (os_path.dirname _file)
            end;
  let dst_dir := os_path.dirname _file in
  let _possible_src := sorted_reverse segments (keys src_to_dst) in
  if path_exists fs _file then
    content ← read fs _file;
    r ← for_each
          (link_step fs cwd src_to_dst _possible_src src_dir dst_dir)
          (links content) (content, st.2);
    if utf8_valid r.1 then Ok (write fs _file r.1, r.2)
    else Raise UnicodeEncodeError
  else Ok st.

(** [_resolve_links()]: [to_copy] lists the copy plan in the order in
    which the set is iterated, [sidebar] is the navigation tree, [cwd]
    the working directory. *)
Definition _resolve_links (cwd docusaurus_dir : str) (to_copy : plan)
    (sidebar : list nav) (fs : filesystem) : result (filesystem * log) :=
  let '(src_to_dst, dst_to_src) := create_mappings fs to_copy in
  let dst_files := flat_map _walk_struct sidebar in
  for_each (file_step cwd docusaurus_dir src_to_dst dst_to_src)
    dst_files (fs, []).

End DocusaurusPlugin.

(** ** Notions used to state the properties *)

Import pystr DocusaurusPlugin.

(** *** Runs and their results *)

(** Two lists with the same elements: equality of the sets they stand
    for. *)
Definition same_elements {A : Type} (l1 l2 : list A) : Prop :=
  ∀ x, x ∈ l1 ↔ x ∈ l2.

(** A file system given by the list of its paths. *)
Fixpoint fs_of (l : list (str * node)) : filesystem :=
  λ p,
    match l with
    | [] => None
    | (q, n) :: r => if bool_decide (q = p) then Some n else fs_of r p
    end.

(** The text of the file at [p] after a run. *)
Definition text_after (r : result (filesystem * log)) (p : str) : option str :=
  match r with
  | Ok (fs, _) =>
      match fs p with
      | Some (File content) => Some content
      | _ => None
      end
  | Raise _ => None
  end.

(** The warnings of a run. *)
Definition warnings_of (r : result (filesystem * log)) : option log :=
  match r with
  | Ok (_, l) => Some l
  | Raise _ => None
  end.

(** The mapping from sources to destinations of a run, and the keys in
    the order in which the links are looked up. *)
Definition src_to_dst_of (fs : filesystem) (to_copy : plan) : mapping :=
  (create_mappings fs to_copy).1.

Definition possible_src (m : mapping) : list str :=
  sorted_reverse segments (keys m).

(** No key of the mapping is a prefix of the reference path: the
    generator [x for x in _possible_src if src_ref.startswith(x)] is
    empty. *)
Definition no_key_matches (m : mapping) (src_ref : str) : bool :=
  forallb (λ x, negb (startswith src_ref x)) (keys m).

(** The order of [sorted(..., reverse=True)]: no key grows from left to
    right. *)
Definition by_key_reversed (key : str → nat) (x y : str) : Prop :=
  key y ≤ key x.

(** [k] is a key of the mapping and a prefix of the reference path, and
    no such key is longer. *)
Definition longest_prefix_key (m : mapping) (src_ref k : str) : Prop :=
  k ∈ keys m
  ∧ k `prefix_of` src_ref
  ∧ ∀ k', k' ∈ keys m → k' `prefix_of` src_ref → length k' ≤ length k.

(** *** Counting the entries of a structure

    The functions below read a value as the value of a node: a string
    is a document, a list holds entries, a dict is a section with the
    fields ["path"], ["extra"] and ["subsections"]. An entry is a dict
    whose first item gives the key and the value of a node. *)

(** The sum of [f] over the nodes of a list of entries. *)
Definition sum_entries (f : value → nat) : list value → nat :=
  fix go items :=
    match items with
    | [] => 0
    | VDict ((_, v) :: _) :: r => f v + go r
    | _ :: r => go r
    end.

(** The number of string-valued entries at or below a node. *)
Fixpoint string_entries (v : value) : nat :=
  match v with
  | VStr _ => 1
  | VList items => sum_entries string_entries items
  | VDict d =>
      with_get "subsections"
        (λ sub,
           match sub with
           | VList items => sum_entries string_entries items
           | _ => 0
           end) 0 d
  | VOther => 0
  end.

(** The number of paths listed under the ["extra"] field of a
    section. *)
Definition extras_of (d : list (str * value)) : nat :=
  match dict_get d "extra" with
  | Some (VList l) => length l
  | _ => 0
  end.

(** The number of entries listed under ["extra"] at or below a node. *)
Fixpoint extra_entries (v : value) : nat :=
  match v with
  | VList items => sum_entries extra_entries items
  | VDict d =>
      extras_of d
      + with_get "subsections"
          (λ sub,
             match sub with
             | VList items => sum_entries extra_entries items
             | _ => 0
             end) 0 d
  | _ => 0
  end.

(** The number of lists and sections without any entry at or below a
    node. *)
Fixpoint empty_nodes (v : value) : nat :=
  match v with
  | VList [] => 1
  | VList items => sum_entries empty_nodes items
  | VDict d =>
      with_get "subsections"
        (λ sub,
           match sub with
           | VList [] => 1
           | VList items => sum_entries empty_nodes items
           | _ => 0
           end) 0 d
  | _ => 0
  end.

(** The number of leaves of a navigation node: the nodes without a list
    of children. *)
Fixpoint leaves (n : nav) : nat :=
  match children n with
  | None => 1
  | Some l => foldr (λ c acc, leaves c + acc) 0 l
  end.

Definition nav_leaves (sidebar : list nav) : nat :=
  foldr (λ c acc, leaves c + acc) 0 sidebar.

(** *** Valid structure descriptions *)

(** Every item of a list is an entry, a dict with one item, whose value
    satisfies [ok]. *)
Definition each_entry (ok : value → bool) : list value → bool :=
  fix go items :=
    match items with
    | [] => true
    | VDict [(_, v)] :: r => ok v && go r
    | _ => false
    end.

Definition is_str (v : value) : bool :=
  match v with
  | VStr _ => true
  | _ => false
  end.

(** The field ["path"] of a section is absent or a string. *)
Definition path_ok (d : list (str * value)) : bool :=
  match dict_get d "path" with
  | None => true
  | Some v => is_str v
  end.

(** The field ["extra"] of a section is absent or a list of strings. *)
Definition extra_ok (d : list (str * value)) : bool :=
  match dict_get d "extra" with
  | None => true
  | Some (VList l) => forallb is_str l
  | Some _ => false
  end.

(** The value of a node is a string, a list of entries, or a section
    whose ["subsections"] is a list of entries. With [lax], a section
    may also come without ["subsections"]. *)
Fixpoint valid_node (lax : bool) (v : value) : bool :=
  match v with
  | VStr _ => true
  | VList items => each_entry (valid_node lax) items
  | VDict d =>
      path_ok d && extra_ok d
      && with_get "subsections"
           (λ sub,
              match sub with
              | VList items => each_entry (valid_node lax) items
              | _ => false
              end) lax d
  | VOther => false
  end.

(** A structure description is a list of entries. *)
Definition valid_structure (lax : bool) (structure : value) : bool :=
  match structure with
  | VList _ => valid_node lax structure
  | _ => false
  end.

(** Some section at or below the node has no ["subsections"]. *)
Definition some_entry (p : value → bool) : list value → bool :=
  fix go items :=
    match items with
    | [] => false
    | VDict ((_, v) :: _) :: r => p v || go r
    | _ :: r => go r
    end.

Fixpoint lacks_subsections (v : value) : bool :=
  match v with
  | VList items => some_entry lacks_subsections items
  | VDict d =>
      with_get "subsections"
        (λ sub,
           match sub with
           | VList items => some_entry lacks_subsections items
           | _ => false
           end) true d
  | _ => false
  end.

(** *** Outcomes of the two passes *)

(** What [_parse_sidebar] returns for a node that is valid but for
    sections without ["subsections"]: the [KeyError] when there is such
    a section, and else a node with one leaf per string-valued entry. *)
Definition sidebar_outcome (r : result nav) (v : value) : Prop :=
  if lacks_subsections v then r = Raise (KeyError "subsections")
  else ∃ n, r = Ok n
            ∧ leaves n = string_entries v
            ∧ length (_walk_struct n) = string_entries v + empty_nodes v.

(** The same for the children made from a list of entries. *)
Definition children_outcome (r : result (list nav)) (items : list value) : Prop :=
  if some_entry lacks_subsections items then r = Raise (KeyError "subsections")
  else ∃ ns, r = Ok ns
             ∧ length ns = length items
             ∧ nav_leaves ns = sum_entries string_entries items
             ∧ length (flat_map _walk_struct ns)
               = sum_entries string_entries items + sum_entries empty_nodes items.

(** The copy pass accepts every description that is valid, also when
    sections come without ["subsections"]. *)
Definition copy_accepts (cwd : str) (v : value) : Prop :=
  (∀ k src dst acc,
     ∃ acc', _parse_copy cwd (VDict [(k, v)]) src dst acc = Ok acc')
  ∧ (∀ items, v = VList items →
     ∀ src dst acc, ∃ acc', _parse_copy cwd v src dst acc = Ok acc').

(** *** Paths by their components *)

(** The non-empty components of a path: [[x for x in p.split(sep) if
    x]], as [relpath] takes them. *)
Definition comps (p : str) : list str :=
  filter (λ x : str, x ≠ []) (split p os_path.sep).

(** A component as a real path has them: not empty, without a
    separator, and neither [.] nor [..]. *)
Definition plain (x : str) : Prop :=
  x ≠ [] ∧ (os_path.sep ∉ x) ∧ x ≠ of_string "." ∧ x ≠ of_string "..".

(** A component that stands for itself or for the parent directory:
    not empty and without a separator. *)
Definition simple (x : str) : Prop := x ≠ [] ∧ os_path.sep ∉ x.

(** The stack of [normpath] for a rooted path after the components
    [l], last component first. *)
Definition norm_stack (l stack : list str) : list str :=
  fold_left (os_path.norm_step true) l stack.

(** The real path with the components [l]: they stand under the root,
    one separator between them. *)
Definition rooted (l : list str) : str := os_path.sep :: pystr.join "/" l.

(** Following a link written in a file of the directory [dir]: the
    link is joined to the directory and the path is resolved, as
    [_resolve_links] does on the source side. *)
Definition follow_link (cwd dir link : str) : str :=
  path_utils.real_join cwd [dir; link].

(** Where the copy of the unit [K] to [D] puts the source path
    [src_ref], as [_organize_files] copies and as the mappings record
    it: the unit itself goes to [D]; a path below a directory goes to
    the same path below [D] ([shutil.copytree]); a file has nothing
    below it. [None] when the path is neither the unit nor below
    it. *)
Definition new_location (fs : filesystem) (cwd K D src_ref : str)
  : option str :=
  if bool_decide (src_ref = K) then Some (path_utils.real_join cwd [D])
  else if isfile fs K then None
  else
    let rest := drop (length K + 1) src_ref in
    if startswith src_ref (K ++ [os_path.sep]) && negb (os_path.isabs rest)
    then Some (path_utils.real_join cwd [D; rest])
    else None.

(** The source path [src_ref] is found under a key of the mapping and
    has been copied to [target]: the key [K] that the lookup finds is
    mapped to [D], which is a file when [K] is one, then of the same
    name, and a directory when [K] is one, and the copy of [K] to [D]
    has put [src_ref] at [target]. *)
Definition copied_to (fs : filesystem) (cwd : str) (m : mapping)
    (src_ref target : str) : Prop :=
  ∃ K D,
    first_prefix (possible_src m) src_ref = Some K
    ∧ mapping_get m K = Some D
    ∧ isfile fs D = isfile fs K
    ∧ (isfile fs K = true → os_path.basename D = os_path.basename K)
    ∧ new_location fs cwd K D src_ref = Some target.

(** *** The scenario of the two lessons *)

(** [[{"Intro": "intro.md"}, {"Lessons": {"path": "lessons",
    "subsections": [{"Lesson 1": "l1.md"}]}}]], written with the keys
    and strings of the YAML file. *)
Definition lessons_structure : value :=
  VList [
    VDict [("Intro" : str, VStr "intro.md")];
    VDict [("Lessons" : str,
            VDict [("path" : str, VStr "lessons");
                   ("subsections" : str,
                    VList [VDict [("Lesson 1" : str, VStr "l1.md")]])])]
  ].

(** The copy plan as the scenario of the specification lists it. *)
Definition lessons_plan_stated : plan :=
  [("/src/intro.md" : str, "/dst/docs" : str);
   ("/src/lessons/l1.md" : str, "/dst/docs/Lessons" : str)].

(** The copy plan that [_parse_copy] builds: a destination made by
    [os.path.join(dst_path, os.path.dirname(k))] ends in a separator
    when [k] has no directory part. *)
Definition lessons_plan : plan :=
  [("/src/intro.md" : str, "/dst/docs/" : str);
   ("/src/lessons/l1.md" : str, "/dst/docs/Lessons/" : str)].

Definition lessons_sidebar (unquote : str → str) : list nav :=
  [Nav (unquote "Intro") "intro" None;
   Nav (unquote "Lessons") "Lessons"
     (Some [Nav (unquote "Lesson 1") "Lessons/l1" None])].

(** The destination tree after the copy, with [/src/shared] copied as a
    unit to [/dst/docs/Shared]; [text] is the text of the lesson. *)
Definition lessons_fs (text : str) : filesystem :=
  fs_of [
    ("/src/intro.md" : str, File []);
    ("/src/lessons/l1.md" : str, File text);
    ("/src/shared" : str, Dir);
    ("/dst/docs" : str, Dir);
    ("/dst/docs/intro.md" : str, File []);
    ("/dst/docs/Lessons" : str, Dir);
    ("/dst/docs/Lessons/l1.md" : str, File text);
    ("/dst/docs/Shared" : str, Dir)
  ].

Definition shared_entry : str * str :=
  ("/src/shared" : str, "/dst/docs/Shared" : str).

Definition lesson_entry : str * str :=
  ("/src/lessons/l1.md" : str, "/dst/docs/Lessons/" : str).

Definition lesson_file : str := "/dst/docs/Lessons/l1.md".

Definition lesson_leaf : list nav :=
  [Nav "Lessons" "Lessons" (Some [Nav "Lesson 1" "Lessons/l1" None])].

(** *** Further structure descriptions *)

(** [[{"Intro": "intro.md"}, {"Notes": "notes.txt"}]]: the second
    entry is a document that is neither [.md] nor [.mdx]. *)
Definition notes_structure : value :=
  VList [
    VDict [("Intro" : str, VStr "intro.md")];
    VDict [("Notes" : str, VStr "notes.txt")]
  ].

(** The tree after [_organize_files] has copied the two files. *)
Definition notes_fs : filesystem :=
  fs_of [
    ("/src/intro.md" : str, File "# Intro");
    ("/src/notes.txt" : str, File "notes");
    ("/dst/docs" : str, Dir);
    ("/dst/docs/intro.md" : str, File "# Intro");
    ("/dst/docs/notes.txt" : str, File "notes")
  ].

(** [[{"Unit": {"path": "unit", "extra": ["media"], "subsections":
    [{"Page": "page.md"}]}}]]: one document and one directory copied
    along with it. *)
Definition media_structure : value :=
  VList [
    VDict [("Unit" : str,
            VDict [("path" : str, VStr "unit");
                   ("extra" : str, VList [VStr "media"]);
                   ("subsections" : str,
                    VList [VDict [("Page" : str, VStr "page.md")]])])]
  ].

(** [[{"Intro": "intro.md"}, {"Unit": {"path": "unit"}}]]: a section
    without ["subsections"]. *)
Definition bare_section_structure : value :=
  VList [
    VDict [("Intro" : str, VStr "intro.md")];
    VDict [("Unit" : str, VDict [("path" : str, VStr "unit")])]
  ].

(** *** Further lessons and copy plans *)

(** A lesson in which the path of a link is written a second time, in
    the prose. *)
Definition figure_twice_text : str :=
  "[see](../shared/img/fig1.png) (file ../shared/img/fig1.png)".

(** A lesson with a link to a document of the shared directory. *)
Definition notes_link_text : str := "[notes](../shared/notes.md)".

(** The same tree with [/src/shared] copied to a directory whose name
    has a space in it. *)
Definition shared_files_fs (text : str) : filesystem :=
  fs_of [
    ("/src/lessons/l1.md" : str, File text);
    ("/src/shared" : str, Dir);
    ("/dst/docs" : str, Dir);
    ("/dst/docs/Lessons" : str, Dir);
    ("/dst/docs/Lessons/l1.md" : str, File text);
    ("/dst/docs/Shared Files" : str, Dir)
  ].

Definition shared_files_entry : str * str :=
  ("/src/shared" : str, "/dst/docs/Shared Files" : str).

(** The lesson with a second document, [/src/lessons/a.md], copied to
    [/dst/docs/Lessons/Sub]. *)
Definition sub_entry : str * str :=
  ("/src/lessons/a.md" : str, "/dst/docs/Lessons/Sub" : str).

Definition sub_fs (text : str) : filesystem :=
  fs_of [
    ("/src/lessons/l1.md" : str, File text);
    ("/src/lessons/a.md" : str, File []);
    ("/dst/docs" : str, Dir);
    ("/dst/docs/Lessons" : str, Dir);
    ("/dst/docs/Lessons/l1.md" : str, File text);
    ("/dst/docs/Lessons/Sub" : str, Dir);
    ("/dst/docs/Lessons/Sub/a.md" : str, File [])
  ].

(** A lesson with two links: [./a.md] is in the copy plan, [../a.md] is
    not. *)
Definition two_links_text : str := "[a](./a.md) [b](../a.md)".

(** Two directories copied as units, the name of one a prefix of the
    name of the other. *)
Definition sha_entry : str * str :=
  ("/src/sha" : str, "/dst/docs/Sha" : str).

Definition sha_fs : filesystem :=
  fs_of [
    ("/src/sha" : str, Dir);
    ("/src/shared" : str, Dir);
    ("/dst/docs" : str, Dir);
    ("/dst/docs/Sha" : str, Dir);
    ("/dst/docs/Shared" : str, Dir)
  ].

(** The lesson with both directories copied as units, and a lesson
    with a link to a figure of [/src/shared]. *)
Definition units_fs (text : str) : filesystem :=
  fs_of [
    ("/src/lessons/l1.md" : str, File text);
    ("/src/sha" : str, Dir);
    ("/src/shared" : str, Dir);
    ("/dst/docs" : str, Dir);
    ("/dst/docs/Lessons" : str, Dir);
    ("/dst/docs/Lessons/l1.md" : str, File text);
    ("/dst/docs/Sha" : str, Dir);
    ("/dst/docs/Shared" : str, Dir)
  ].

Definition figure_link_text : str := "[see](../shared/img/fig1.png)".

(** ** Further parts of the plugin

    The parts of [DocusaurusPlugin] below are not needed for the
    properties of the parser and of the link resolver stated first;
    they are embedded in the same way. *)

(** The entry ["categories"] of [_parse_config_options]: the first key
    of every item of the structure whose value is a list or a dict. The
    condition of the comprehension reads the first key of the item
    before the element does. *)
Definition categories (structure : value) : result (list str) :=
  items ← py_iter structure;
  for_each
    (λ x acc,
       kv ← first_item x;
       Ok (match kv.2 with
           | VList _ | VDict _ => acc ++ [kv.1 : str]
           | _ => acc
           end))
    items [].

(** *** Notions for the navigation tree *)

(** The first key of an item is ["Introduction"]. *)
Definition has_intro_key (item : value) : bool :=
  match item with
  | VDict ((k, _) :: _) => bool_decide (k = "Introduction")
  | _ => false
  end.

(** The nodes below a node of the navigation tree, parents before
    children. *)
Fixpoint nodes_below (n : nav) : list nav :=
  match children n with
  | Some l => flat_map (λ c, c :: nodes_below c) l
  | None => []
  end.

(** A node that [_walk_struct] takes for a document: it has no
    children, or an empty list of them. *)
Definition childless (n : nav) : bool :=
  match children n with
  | Some (_ :: _) => false
  | _ => true
  end.

(** The node has a list of children, empty or not. *)
Definition has_children (n : nav) : bool :=
  match children n with
  | Some _ => true
  | None => false
  end.

(** *** Notions for the run of [_resolve_links] *)

(** [open(p, "r").read()] can decode what is at [p]. *)
Definition decodes (fs : filesystem) (p : str) : bool :=
  match fs p with
  | Some (File content) => utf8_valid content
  | _ => true
  end.

(** The two file systems have the same paths, the same kind of node
    at each of them, and the same files that can be read as a text. *)
Definition same_kinds (fs fs' : filesystem) : Prop :=
  ∀ p, isfile fs' p = isfile fs p
       ∧ isdir fs' p = isdir fs p
       ∧ path_exists fs' p = path_exists fs p
       ∧ decodes fs' p = decodes fs p.

(** The source directory that a round of [for file in dst_files]
    takes for the path [_file]: the lines from [if _nfile :=
    dst_to_src.get(_file)] to [src_dir = dst_to_src[...]]. *)
Definition source_dir (dst_to_src : mapping) (_file : str) : result str :=
  match mapping_get dst_to_src _file with
  | Some (c :: _nfile) => Ok (os_path.dirname (c :: _nfile))
  | _ => getitem dst_to_src (os_path.dirname _file)
  end.

(** The round of [for file in dst_files] finds its source directory
    and can read the document: the path tried for [file] is a key of
    [dst_to_src] with a non-empty value or the directory of the path
    is a key, the path is not a directory, and a regular file at the
    path holds a text in UTF-8. *)
Definition document_found (fs : filesystem) (docusaurus_dir : str)
    (dst_to_src : mapping) (file : str) : bool :=
  let _file := dst_file fs docusaurus_dir file in
  match mapping_get dst_to_src _file with
  | Some (_ :: _) => true
  | _ => bool_decide (os_path.dirname _file ∈ keys dst_to_src)
  end
  && negb (isdir fs _file)
  && decodes fs _file.

(** The paths of the documents of the sidebar, as [_resolve_links]
    tries them. *)
Definition document_paths (fs : filesystem) (docusaurus_dir : str)
    (sidebar : list nav) : list str :=
  dst_file fs docusaurus_dir <$> flat_map _walk_struct sidebar.

(** The tree of the lesson with a lesson whose bytes are no text in
    UTF-8: the byte [255] alone. *)
Definition undecodable_fs : filesystem :=
  fs_of [
    ("/src/lessons/l1.md" : str, File ["255"%char]);
    ("/dst/docs" : str, Dir);
    ("/dst/docs/Lessons" : str, Dir);
    ("/dst/docs/Lessons/l1.md" : str, File ["255"%char])
  ].

(** A text without links, with a line that ends in a carriage return
    and a line feed, and the text as it is read. *)
Definition plain_text : str :=
  ("# Lesson" : str) ++ [carriage_return; re.newline] ++ ("text" : str).

Definition plain_text_read : str :=
  ("# Lesson" : str) ++ [re.newline] ++ ("text" : str).

(** *** Notions for the mappings *)

(** What a round of the first loop of [_resolve_links] records for the
    pair [e] of the copy plan: [(_src, _dst)]. *)
Definition mapped_pair (fs : filesystem) (e : str * str) : str * str :=
  let _dst := rstrip e.2 "/" in
  (rstrip e.1 "/",
   if isfile fs e.1 && isdir fs _dst
   then os_path.join _dst [os_path.basename e.1]
   else _dst).

(** *** Notions for the links of a text *)

(** The text of a link as the two patterns take it: [./] or [../],
    then characters of the same line. *)
Definition relative_target (g : str) : Prop :=
  (startswith g "./" = true ∨ startswith g "../" = true)
  ∧ re.newline ∉ g.

(** [g] stands in [text] between [opening] and the character
    [closing]. *)
Definition enclosed (opening : str) (closing : ascii) (g text : str) : Prop :=
  ∃ a b, text = a ++ opening ++ g ++ closing :: b.

(** *** Notions for the copy pass *)

(** One round of [for k, v in structure.items()] in [_parse_copy]. *)
Definition copy_entry (cwd src_path dst_path : str) (kv : str * value)
    (to_copy : plan) : result plan :=
  let '(k, v) := kv in
  match v with
  | VStr s =>
      let _dst_path := os_path.join dst_path [os_path.dirname k] in
      Ok (set_add (path_utils.real_join cwd [src_path; s], _dst_path) to_copy)
  | VDict d =>
      let _dst_path := os_path.join dst_path [k] in
      path ← match dict_get d "path" with
             | None => Ok []
             | Some (VStr p) => Ok p
             | Some _ => Raise TypeError
             end;
      let _src_path := path_utils.real_join cwd [src_path; path] in
      extras ← match dict_get d "extra" with
               | None => Ok []
               | Some e => py_iter e
               end;
      to_copy ← for_each (add_extra cwd _src_path _dst_path) extras to_copy;
      match dict_get d "subsections" with
      | Some sub => _parse_copy cwd sub _src_path _dst_path to_copy
      | None => Ok to_copy
      end
  | VList _ => _parse_copy cwd v src_path (os_path.join dst_path [k]) to_copy
  | VOther => Raise PluginRunError
  end.

(** The destinations of a copy plan, as a set. *)
Definition same_destinations (to_copy to_copy' : plan) : Prop :=
  ∀ d, d ∈ to_copy.*2 ↔ d ∈ to_copy'.*2.

(** Two runs of the copy pass end alike: with plans that have the same
    destinations, or with the same exception. *)
Definition same_destinations_outcome (r r' : result plan) : Prop :=
  match r, r' with
  | Ok to_copy, Ok to_copy' => same_destinations to_copy to_copy'
  | Raise e, Raise e' => e = e'
  | _, _ => False
  end.

(** [[{"Intro": "intro.md", "Notes": "notes/notes.md"}]]: an item with
    two keys. *)
Definition two_keys_items : list value :=
  [VDict [("Intro" : str, VStr "intro.md");
          ("Notes" : str, VStr "notes/notes.md")]].

(** *** [_copy_extra_files] and [_copy_assets]

    One round of either loop computes a source and a destination and
    hands them to [shutil]. The rounds are embedded up to that call,
    which is what they return; the file system is the one of the moment
    of the round. *)

(** [shutil.copytree(src, dst, dirs_exist_ok=True)] and
    [shutil.copy(src, dst)]. *)
Inductive copy_call :=
| Copytree (src dst : str)
| Copy (src dst : str).

Definition call_src (c : copy_call) : str :=
  match c with
  | Copytree src _ | Copy src _ => src
  end.

Definition call_dst (c : copy_call) : str :=
  match c with
  | Copytree _ dst | Copy _ dst => dst
  end.

(** [src.split(os.path.sep)[-1]] *)
Definition last_segment (src : str) : str :=
  List.last (split src os_path.sep) [].

(** The body of [for item in extra_files]. A dict gives the source as
    its first key and the destination as the value of that key. *)
Definition copy_extra_file (cwd input_dir docusaurus_dir : str)
    (fs : filesystem) (item : value) : result copy_call :=
  sd ← match item with
       | VDict ((src, dst) :: _) => Ok (src, dst)
       | VDict [] => Raise IndexError
       | VStr src => Ok (src, VStr (last_segment src))
       | _ => Raise AttributeError
       end;
  dst ← match sd.2 with
        | VStr dst => Ok dst
        | _ => Raise TypeError
        end;
  if os_path.isabs dst then Raise PluginRunError
  else
    let dst := path_utils.real_join cwd [docusaurus_dir; dst] in
    let src : str :=
      if os_path.isabs sd.1 then sd.1
      else path_utils.real_join cwd [input_dir; sd.1] in
    Ok (if isdir fs src then Copytree src dst else Copy src dst).

(** The body of [for asset in static_assets]. A dict gives the
    destination as its first key and the source as the value of that
    key. *)
Definition copy_asset (cwd input_dir docusaurus_dir : str)
    (fs : filesystem) (asset : value) : result copy_call :=
  sd ← match asset with
       | VDict ((dst, src) :: _) => Ok (src, dst)
       | VDict [] => Raise IndexError
       | VStr src => Ok (VStr src, last_segment src)
       | _ => Raise AttributeError
       end;
  if os_path.isabs sd.2 then Raise PluginRunError
  else
    let dst :=
      path_utils.real_join cwd [docusaurus_dir; "static" : str; sd.2] in
    src ← match sd.1 with
          | VStr src => Ok src
          | _ => Raise TypeError
          end;
    let asset_path : str :=
      if os_path.isabs src then src
      else path_utils.real_join cwd [input_dir; src] in
    Ok (if isdir fs asset_path then Copytree asset_path dst
        else Copy asset_path dst).

(** *** Notions for the agreement of the two passes *)

(** A key that can name a directory level on both sides: it is not
    empty, not absolute, and does not end in a slash. *)
Definition section_key (k : str) : bool :=
  negb (bool_decide (k = []))
  && negb (os_path.isabs k)
  && bool_decide (rstrip k "/" = k).

Definition clean_entries (clean : str → value → bool) : list value → bool :=
  fix go items :=
    match items with
    | [] => true
    | VDict ((k, v) :: _) :: r => clean k v && go r
    | _ :: r => go r
    end.

(** The keys from which [_parse_sidebar] makes the node of the entry
    [k: v] and the nodes below it: the key of a list or of a section
    is a [section_key], the key of a string is not absolute. *)
Fixpoint clean_keys (k : str) (v : value) : bool :=
  match v with
  | VStr _ => negb (os_path.isabs k)
  | VList items => section_key k && clean_entries clean_keys items
  | VDict d =>
      section_key k
      && with_get "subsections"
           (λ sub,
              match sub with
              | VList items => clean_entries clean_keys items
              | _ => true
              end) true d
  | VOther => true
  end.

Definition clean_structure (structure : value) : bool :=
  match structure with
  | VList items => clean_entries clean_keys items
  | _ => false
  end.

(** The directory in which [_resolve_links] looks for the document
    with the id [file] is the destination [dst] of the copy plan, as
    the first loop of [_resolve_links] takes it: without the slashes
    at its end. *)
Definition lies_in (docusaurus_dir file dst : str) : Prop :=
  ∀ ext : str,
    ext = of_string ".md" ∨ ext = of_string ".mdx" →
    os_path.dirname (os_path.join docusaurus_dir ["docs" : str; file ++ ext])
    = rstrip dst "/".

(** The path [path] of the ids and the destination path [dst] of the
    copy pass name the same directory under [docs]; neither [docs] nor
    [dst] is empty or ends in a slash. *)
Definition aligned (docs path dst : str) : Prop :=
  dst ++ ("/" : str) = docs ++ ("/" : str) ++ path
  ∧ dst ≠ []
  ∧ rstrip dst "/" = dst
  ∧ os_path.isabs path = false
  ∧ docs ≠ []
  ∧ rstrip docs "/" = docs.

(** * Properties *)

(** ** The scenario of the two lessons *)

(** C2 (as amended): for the structure
    [[{"Intro": "intro.md"}, {"Lessons": {"path": "lessons",
    "subsections": [{"Lesson 1": "l1.md"}]}}]], content root [/src] and
    docs root [/dst/docs], the parser returns the copy plan
    [{(/src/intro.md, /dst/docs/), (/src/lessons/l1.md,
    /dst/docs/Lessons/)}], whose destinations end in a separator and
    equal the stated ones once it is stripped, and a navigation tree
    with the leaf ids [intro] and [Lessons/l1]. *)
Theorem lessons_parsed (unquote : str → str) :
  ∃ p,
    _parse_structure unquote "/src" "/dst" lessons_structure = Ok p
    ∧ same_elements (to_copy p) lessons_plan
    ∧ same_elements ((λ e, (e.1, rstrip e.2 "/")) <$> to_copy p)
        lessons_plan_stated
    ∧ sidebar p = lessons_sidebar unquote
    ∧ flat_map _walk_struct (sidebar p) = ["intro" : str; "Lessons/l1" : str].
Proof.
  eexists. split; [vm_compute; reflexivity|].
  repeat split; try done.
Qed.

(** C2 as stated fails: no destination of the plan is [/dst/docs]
    without the separator at its end. *)
Lemma lessons_plan_not_as_stated :
  ¬ ∃ p,
      _parse_structure (λ s, s) "/src" "/dst" lessons_structure = Ok p
      ∧ same_elements (to_copy p) lessons_plan_stated.
Proof.
  intros (p & Hp & Hsame).
  vm_compute in Hp. injection Hp as <-.
  assert (Hin : ("/src/intro.md" : str, "/dst/docs" : str) ∈ lessons_plan)
    by (apply Hsame; vm_compute; left).
  vm_compute in Hin.
  repeat (apply elem_of_cons in Hin as [Hin|Hin]; [discriminate Hin|]).
  by apply elem_of_nil in Hin.
Qed.

(** C3: the link [[see](../shared/img/fig1.png)] in the lesson copied
    from [/src/lessons/l1.md], with [/src/shared] copied as a unit to
    [/dst/docs/Shared], becomes [../Shared/img/fig1.png], whatever the
    order in which the copy plan is iterated; nothing is logged. *)
Theorem shared_figure_link (cwd : str) :
  let text : str := "[see](../shared/img/fig1.png)" in
  let run to_copy :=
    _resolve_links cwd "/dst" to_copy lesson_leaf (lessons_fs text) in
  let new_text : option str := Some ("[see](../Shared/img/fig1.png)" : str) in
  text_after (run [lesson_entry; shared_entry]) lesson_file = new_text
  ∧ text_after (run [shared_entry; lesson_entry]) lesson_file = new_text
  ∧ warnings_of (run [lesson_entry; shared_entry]) = Some []
  ∧ warnings_of (run [shared_entry; lesson_entry]) = Some [].
Proof. repeat split; vm_compute; reflexivity. Qed.

(** C6, at the input on which the code departs from it: the link
    [../shared/notes.mdx] has the new path [../Shared Files/notes.mdx],
    which has a space in it; the path is put in angle brackets, and the
    removal of [.md] leaves [notesx], neither the document nor its
    name without the extension. *)
Theorem mdx_link_with_space (cwd : str) :
  let text : str := "[notes](../shared/notes.mdx)" in
  text_after
    (_resolve_links cwd "/dst" [lesson_entry; shared_files_entry]
       lesson_leaf (shared_files_fs text)) lesson_file
  = Some ("[notes](<../Shared Files/notesx>)" : str).
Proof. vm_compute. reflexivity. Qed.

(** C8, at the input on which the code departs from it: the leaf
    [notes] has neither [/dst/docs/notes.md] nor [/dst/docs/notes.mdx];
    neither that path nor its directory is a key of the mapping from
    destinations to sources, and the run ends with a [KeyError]. *)
Theorem missing_document_raises (unquote : str → str) (cwd : str) :
  ∃ p,
    _parse_structure unquote "/src" "/dst" notes_structure = Ok p
    ∧ flat_map _walk_struct (sidebar p) = ["intro" : str; "notes" : str]
    ∧ path_exists notes_fs "/dst/docs/notes.md" = false
    ∧ path_exists notes_fs "/dst/docs/notes.mdx" = false
    ∧ _resolve_links cwd "/dst" (to_copy p) (sidebar p) notes_fs
      = Raise (KeyError "/dst/docs").
Proof.
  eexists. split; [vm_compute; reflexivity|].
  repeat split; vm_compute; reflexivity.
Qed.

(** ** Strings *)

Lemma startswith_prefix (s x : str) : startswith s x = true ↔ x `prefix_of` s.
Proof.
  revert s. induction x as [|a x IH]; intros s; simpl.
  - split; [intros _; apply prefix_nil|done].
  - destruct s as [|b s].
    + split; [done|]. intros H. by apply prefix_nil_inv in H.
    + rewrite andb_true_iff, bool_decide_eq_true, IH. split.
      * intros [-> H]. by apply prefix_cons.
      * intros H. split; [by apply prefix_cons_inv_1 in H|].
        by apply prefix_cons_inv_2 in H.
Qed.

Lemma startswith_app (s t : str) : startswith (s ++ t) s = true.
Proof. apply startswith_prefix, prefix_app_r. done. Qed.

(** Only the first [length x] characters of a string decide whether it
    starts with [x]. *)
Lemma startswith_app_l (u w x : str) :
  length x ≤ length u → startswith (u ++ w) x = startswith u x.
Proof.
  revert u. induction x as [|a x IH]; intros u Hlen; [done|].
  destruct u as [|b u]; simpl in *; [lia|].
  rewrite IH by lia. done.
Qed.

Lemma contains_startswith (s x : str) :
  contains s x = false → startswith s x = false.
Proof. destruct s; simpl; intros H; by apply orb_false_iff in H as [? _]. Qed.

Lemma contains_tail (c : ascii) (s x : str) :
  contains (c :: s) x = false → contains s x = false.
Proof. simpl. intros H. by apply orb_false_iff in H as [_ ?]. Qed.

(** *** [str.replace] *)

(** The characters of an occurrence that was just replaced are passed
    over. *)
Lemma replace_from_skip (old new t b : str) :
  replace_from old new (length t) (t ++ b) = replace_from old new 0 b.
Proof.
  induction t as [|c t IH]; simpl; [|done].
  destruct b; done.
Qed.

(** The leftmost occurrence of [old] is replaced and the scan goes on
    behind it: [a] is the text before that occurrence. *)
Lemma replace_first (a old new b : str) :
  old ≠ [] →
  contains (a ++ removelast old) old = false →
  replace (a ++ old ++ b) old new = a ++ new ++ replace b old new.
Proof.
  intros Hne Hfirst.
  assert (Hrep : ∀ s, replace s old new = replace_from old new 0 s)
    by (by destruct old).
  rewrite !Hrep. clear Hrep.
  induction a as [|c a IH].
  - rewrite !app_nil_l.
    pose proof (startswith_app old b) as Hs.
    destruct old as [|o old]; [done|].
    cbn [app replace_from] in *. rewrite Hs.
    simpl length. replace (S (length old) - 1) with (length old) by lia.
    by rewrite replace_from_skip.
  - assert (Hx : old = removelast old ++ [List.last old c])
      by (by apply app_removelast_last).
    assert (Hlen : length old ≤ length ((c :: a) ++ removelast old)).
    { rewrite Hx at 1. rewrite !length_app. simpl. lia. }
    assert (Hs : startswith ((c :: a) ++ old ++ b) old = false).
    { rewrite Hx at 1.
      rewrite <-(app_assoc (removelast old)), (app_assoc (c :: a)).
      rewrite startswith_app_l by done.
      by apply contains_startswith. }
    rewrite <-!app_comm_cons in *.
    cbn [replace_from]. rewrite Hs.
    f_equal. apply IH. by eapply contains_tail.
Qed.

(** ** Induction on structure descriptions *)

Lemma value_ind' (P : value → Prop) :
  (∀ s, P (VStr s)) →
  (∀ items, Forall P items → P (VList items)) →
  (∀ d, Forall (λ kv, P kv.2) d → P (VDict d)) →
  P VOther →
  ∀ v, P v.
Proof.
  intros Hs Hl Hd Ho. fix IH 1. intros [s|items|d|].
  - apply Hs.
  - apply Hl. revert items. fix IHl 1. intros [|x r].
    + constructor.
    + constructor; [apply IH|apply IHl].
  - apply Hd. revert d. fix IHd 1. intros [|[k x] r].
    + constructor.
    + constructor; [apply IH|apply IHd].
  - apply Ho.
Qed.

Lemma with_get_eq {B : Type} (key : str) (f : value → B) (o : B) d :
  with_get key f o d
  = match dict_get d key with
    | Some v => f v
    | None => o
    end.
Proof.
  induction d as [|[k v] d IH]; simpl; [done|].
  by destruct (bool_decide (k = key)).
Qed.

Lemma dict_get_elem d key v :
  dict_get d key = Some v → v ∈ d.*2.
Proof.
  induction d as [|[k x] d IH]; simpl; [done|].
  destruct (bool_decide (k = key)).
  - intros [= ->]. left.
  - intros H. right. by apply IH.
Qed.

(** Induction on the value of a node: the nodes below a list are the
    values of its entries, the nodes below a section are those of its
    ["subsections"]. *)
Lemma node_ind (N : value → Prop) :
  (∀ s, N (VStr s)) →
  N VOther →
  (∀ items,
     Forall (λ item, ∀ k v r, item = VDict ((k, v) :: r) → N v) items →
     N (VList items)) →
  (∀ d, (∀ sub, dict_get d "subsections" = Some sub → N sub) → N (VDict d)) →
  ∀ v, N v.
Proof.
  intros Hs Ho Hl Hd v.
  cut (N v ∧ ∀ k v' r, v = VDict ((k, v') :: r) → N v'); [by intros [? _]|].
  induction v as [s|items IH|d IH|] using value_ind'.
  - split; [apply Hs|done].
  - split; [|done]. apply Hl.
    eapply Forall_impl; [exact IH|]. by intros item [_ H].
  - split.
    + apply Hd. intros sub Hsub.
      apply dict_get_elem, list_elem_of_fmap in Hsub as ([k x] & -> & Hin).
      rewrite Forall_forall in IH. by destruct (IH _ Hin).
    + intros k v' r [= ->]. by inversion_clear IH as [|? ? [? _] _].
  - split; [apply Ho|done].
Qed.

(** ** The navigation pass *)

Lemma each_child_outcome (lax : bool) (f : str → value → result nav) items :
  Forall (λ item, ∀ k v r, item = VDict ((k, v) :: r) →
                  valid_node lax v = true → sidebar_outcome (f k v) v) items →
  each_entry (valid_node lax) items = true →
  children_outcome (each_child f items) items.
Proof.
  unfold children_outcome.
  induction 1 as [|item items Hitem _ IH]; intros Hvalid.
  - simpl. by exists [].
  - destruct item as [| |[|[k v] [|]]|]; try done.
    simpl in Hvalid. apply andb_true_iff in Hvalid as [Hv Hvalid].
    specialize (Hitem k v [] eq_refl Hv). specialize (IH Hvalid).
    unfold sidebar_outcome in Hitem.
    cbn [some_entry each_child sum_entries].
    destruct (lacks_subsections v); simpl.
    + by rewrite Hitem.
    + destruct Hitem as (n & -> & Hn & Hw). simpl.
      destruct (some_entry lacks_subsections items).
      * by rewrite IH.
      * destruct IH as (ns & -> & Hlen & Hl & Hws). simpl.
        exists (n :: ns). split; [done|]. simpl. rewrite length_app.
        unfold nav_leaves in *. simpl. lia.
Qed.

Lemma list_node_outcome u k items path :
  children_outcome
    (each_child (λ k' v', _parse_sidebar u k' v' (path ++ k ++ ("/" : str))) items)
    items →
  sidebar_outcome (_parse_sidebar u k (VList items) path) (VList items).
Proof.
  unfold children_outcome, sidebar_outcome. cbn [lacks_subsections _parse_sidebar].
  destruct (some_entry lacks_subsections items).
  - by intros ->.
  - intros (ns & -> & Hlen & Hl & Hw). simpl.
    eexists. split; [done|]. split; [done|].
    cbn [_walk_struct children].
    destruct ns as [|n ns], items as [|item items]; try done.
Qed.

Lemma sidebar_node_outcome u lax v :
  valid_node lax v = true →
  ∀ k path, sidebar_outcome (_parse_sidebar u k v path) v.
Proof.
  induction v as [s| |items IH|d IH] using node_ind; intros Hvalid k path.
  - unfold sidebar_outcome. simpl. eexists. by repeat split.
  - done.
  - apply list_node_outcome, (each_child_outcome lax); [|done].
    eapply Forall_impl; [exact IH|]. simpl. intros item H k' v' r -> Hv.
    by eapply H.
  - cbn [valid_node] in Hvalid. rewrite with_get_eq in Hvalid.
    apply andb_true_iff in Hvalid as [_ Hvalid].
    destruct (dict_get d "subsections") as [sub|] eqn:Hsub.
    + destruct sub as [|items| |]; try done.
      specialize (IH _ eq_refl Hvalid k path).
      unfold sidebar_outcome in *.
      cbn [lacks_subsections string_entries empty_nodes _parse_sidebar] in *.
      rewrite !with_get_eq, Hsub. done.
    + subst lax. unfold sidebar_outcome.
      cbn [lacks_subsections _parse_sidebar]. rewrite !with_get_eq, Hsub. done.
Qed.

(** ** The copy pass *)

Lemma for_each_nil {A S : Type} (body : A → S → result S) s :
  for_each body [] s = Ok s.
Proof. done. Qed.

Lemma for_each_cons {A S : Type} (body : A → S → result S) a l s :
  for_each body (a :: l) s = s' ← body a s; for_each body l s'.
Proof. done. Qed.

Lemma for_each_app {A S : Type} (body : A → S → result S) l1 l2 s :
  for_each body (l1 ++ l2) s = s' ← for_each body l1 s; for_each body l2 s'.
Proof.
  revert s. induction l1 as [|a l1 IH]; intros s; [done|].
  rewrite <-app_comm_cons, !for_each_cons.
  destruct (body a s) as [s'|e]; simpl; [apply IH|done].
Qed.

Lemma add_extras_ok cwd src dst l acc :
  forallb is_str l = true →
  ∃ acc', for_each (add_extra cwd src dst) l acc = Ok acc'.
Proof.
  revert acc. induction l as [|x l IH]; intros acc Hl; [by eexists|].
  simpl in Hl. apply andb_true_iff in Hl as [Hx Hl].
  destruct x; try done. rewrite for_each_cons. simpl. by apply IH.
Qed.

Lemma copy_entries_ok cwd lax items :
  Forall (λ item, ∀ k v r, item = VDict ((k, v) :: r) →
                  valid_node lax v = true → copy_accepts cwd v) items →
  each_entry (valid_node lax) items = true →
  ∀ src dst acc, ∃ acc', _parse_copy cwd (VList items) src dst acc = Ok acc'.
Proof.
  intros IH Hvalid src dst. cbn [_parse_copy].
  induction IH as [|item items Hitem _ IH]; intros acc; [by eexists|].
  destruct item as [| |[|[k v] [|]]|]; try done.
  simpl in Hvalid. apply andb_true_iff in Hvalid as [Hv Hvalid].
  destruct (Hitem k v [] eq_refl Hv) as [Hentry _].
  destruct (Hentry k src dst acc) as [acc' Hacc'].
  rewrite for_each_cons, Hacc'. simpl. by apply IH.
Qed.

Lemma copy_node_ok cwd lax v :
  valid_node lax v = true → copy_accepts cwd v.
Proof.
  induction v as [s| |items IH|d IH] using node_ind; intros Hvalid.
  - split; [|done]. intros k src dst acc. by eexists.
  - done.
  - assert (Hlist : ∀ src dst acc,
               ∃ acc', _parse_copy cwd (VList items) src dst acc = Ok acc').
    { apply (copy_entries_ok cwd lax); [|done].
      eapply Forall_impl; [exact IH|]. simpl. intros item H k v r -> Hv.
      by eapply H. }
    split; [|by intros ? _].
    intros k src dst acc.
    destruct (Hlist src (os_path.join dst [k]) acc) as [acc' Hacc'].
    exists acc'. cbn [_parse_copy]. rewrite for_each_cons.
    cbn beta iota. rewrite Hacc'. done.
  - split; [|done]. intros k src dst acc.
    cbn [valid_node] in Hvalid. rewrite with_get_eq in Hvalid.
    apply andb_true_iff in Hvalid as [Hfields Hsub].
    apply andb_true_iff in Hfields as [Hpath Hextra].
    cbn [_parse_copy]. rewrite for_each_cons. cbn beta iota.
    unfold path_ok in Hpath. unfold extra_ok in Hextra.
    assert (Hp : ∃ p, match dict_get d "path" with
                      | Some (VStr p) => Ok p
                      | None => Ok []
                      | _ => Raise TypeError
                      end = Ok p).
    { destruct (dict_get d "path") as [[]|]; try done; by eexists. }
    destruct Hp as [p ->]. cbn [mbind result_bind].
    assert (He : ∃ l, match dict_get d "extra" with
                      | Some e => py_iter e
                      | None => Ok []
                      end = Ok l ∧ forallb is_str l = true).
    { destruct (dict_get d "extra") as [[]|]; try done; by eexists. }
    destruct He as (l & -> & Hl). cbn [mbind result_bind].
    destruct (add_extras_ok cwd (path_utils.real_join cwd [src; p])
                (os_path.join dst [k]) l acc Hl) as [acc1 ->].
    cbn [mbind result_bind]. rewrite with_get_eq.
    destruct (dict_get d "subsections") as [sub|] eqn:Hget.
    + destruct sub as [|items| |]; try done.
      destruct (IH _ eq_refl Hsub) as [_ Hlist].
      destruct (Hlist items eq_refl (path_utils.real_join cwd [src; p])
                  (os_path.join dst [k]) acc1) as [acc' ->].
      by eexists.
    + by eexists.
Qed.

(** ** The parser on valid descriptions *)

Lemma valid_has_subsections v :
  valid_node false v = true → lacks_subsections v = false.
Proof.
  induction v as [s| |items IH|d IH] using node_ind; intros Hvalid; try done.
  - cbn [lacks_subsections valid_node] in *.
    induction IH as [|item items Hitem _ IH]; [done|].
    destruct item as [| |[|[k v] [|]]|]; try done.
    simpl in Hvalid. apply andb_true_iff in Hvalid as [Hv Hvalid].
    simpl. by rewrite (Hitem k v [] eq_refl Hv), IH.
  - cbn [lacks_subsections valid_node] in *. rewrite with_get_eq in *.
    apply andb_true_iff in Hvalid as [_ Hvalid].
    destruct (dict_get d "subsections") as [[|items| |]|]; try done.
    by apply (IH _ eq_refl).
Qed.

Lemma top_item_entry u k v r acc :
  top_item u (VDict ((k, v) :: r)) acc
  = n ← _parse_sidebar u k v [];
    Ok (if bool_decide (k = "Introduction") then true else acc.1, acc.2 ++ [n]).
Proof. done. Qed.

(** The loop at the end of [_parse_structure]. *)
Lemma top_items_outcome u lax items acc :
  each_entry (valid_node lax) items = true →
  if some_entry lacks_subsections items
  then for_each (top_item u) items acc = Raise (KeyError "subsections")
  else ∃ b ns, for_each (top_item u) items acc = Ok (b, acc.2 ++ ns)
               ∧ nav_leaves ns = sum_entries string_entries items
               ∧ length (flat_map _walk_struct ns)
                 = sum_entries string_entries items
                   + sum_entries empty_nodes items.
Proof.
  revert acc. induction items as [|item items IH]; intros acc Hvalid.
  - simpl. exists acc.1, []. rewrite app_nil_r. by destruct acc.
  - destruct item as [| |[|[k v] [|]]|]; try done.
    simpl in Hvalid. apply andb_true_iff in Hvalid as [Hv Hvalid].
    pose proof (sidebar_node_outcome u lax v Hv k []) as Hnode.
    unfold sidebar_outcome in Hnode.
    rewrite for_each_cons, top_item_entry.
    cbn [some_entry sum_entries].
    destruct (lacks_subsections v); simpl.
    + by rewrite Hnode.
    + destruct Hnode as (n & -> & Hn & Hw). cbn [mbind result_bind].
      match goal with |- context [for_each _ items ?a] =>
        specialize (IH a Hvalid) end.
      destruct (some_entry lacks_subsections items); [done|].
      destruct IH as (b & ns & -> & Hl & Hws). cbn [snd].
      exists b, (n :: ns). rewrite <-app_assoc. split; [done|].
      unfold nav_leaves in *. simpl. rewrite length_app. lia.
Qed.

Lemma parse_structure_outcome u cwd docusaurus_dir lax items :
  valid_structure lax (VList items) = true →
  (∃ plan, _parse_copy cwd (VList items) cwd
             (os_path.join docusaurus_dir ["docs" : str]) [] = Ok plan)
  ∧ if some_entry lacks_subsections items
    then _parse_structure u cwd docusaurus_dir (VList items)
         = Raise (KeyError "subsections")
    else ∃ p, _parse_structure u cwd docusaurus_dir (VList items) = Ok p
              ∧ nav_leaves (sidebar p) = sum_entries string_entries items
              ∧ length (flat_map _walk_struct (sidebar p))
                = sum_entries string_entries items
                  + sum_entries empty_nodes items.
Proof.
  intros Hvalid. cbn [valid_structure] in Hvalid.
  destruct (copy_node_ok cwd lax _ Hvalid) as [_ Hcopy].
  destruct (Hcopy items eq_refl cwd
              (os_path.join docusaurus_dir ["docs" : str]) []) as [plan Hplan].
  split; [by exists plan|].
  unfold _parse_structure. rewrite Hplan. cbn [mbind result_bind py_iter].
  pose proof (top_items_outcome u lax items (false, []) Hvalid) as Htop.
  destruct (some_entry lacks_subsections items).
  - by rewrite Htop.
  - destruct Htop as (b & ns & -> & Hl & Hw). cbn [mbind result_bind].
    eexists. split; [done|]. done.
Qed.

(** C7 (as amended): for every valid structure description the parser
    returns, and the navigation tree it returns has as many leaves as
    the description has string-valued entries; the entries listed under
    ["extra"] are copied and have no node. Besides the leaves,
    [_walk_struct] names one file for each list or section without
    entries, whose node has an empty list of children. *)
Theorem leaves_are_string_entries (unquote : str → str)
    (cwd docusaurus_dir : str) (items : list value) :
  valid_structure false (VList items) = true →
  ∃ p,
    _parse_structure unquote cwd docusaurus_dir (VList items) = Ok p
    ∧ nav_leaves (sidebar p) = string_entries (VList items)
    ∧ length (flat_map _walk_struct (sidebar p))
      = string_entries (VList items) + sum_entries empty_nodes items.
Proof.
  intros Hvalid.
  destruct (parse_structure_outcome unquote cwd docusaurus_dir false items Hvalid)
    as [_ H].
  pose proof (valid_has_subsections _ Hvalid) as Hsub.
  cbn [lacks_subsections] in Hsub. rewrite Hsub in H. exact H.
Qed.

Lemma leaves_are_string_entries_witness :
  valid_structure false media_structure = true
  ∧ ∃ p,
      _parse_structure (λ s, s) "/src" "/dst" media_structure = Ok p
      ∧ nav_leaves (sidebar p) = string_entries media_structure
      ∧ length (flat_map _walk_struct (sidebar p))
        = string_entries media_structure + 0.
Proof.
  split; [reflexivity|].
  apply (leaves_are_string_entries (λ s, s) "/src" "/dst"). reflexivity.
Defined.

(** C7 as stated fails: the description with one document and one
    ["extra"] path is valid and has two such entries, and its
    navigation tree has one leaf. *)
Lemma extra_entry_has_no_leaf :
  valid_structure false media_structure = true
  ∧ string_entries media_structure + extra_entries media_structure = 2
  ∧ ¬ ∃ p,
        _parse_structure (λ s, s) "/src" "/dst" media_structure = Ok p
        ∧ nav_leaves (sidebar p)
          = string_entries media_structure + extra_entries media_structure.
Proof.
  split; [reflexivity|]. split; [reflexivity|].
  intros (p & Hp & Hleaves).
  vm_compute in Hp. injection Hp as <-. vm_compute in Hleaves. discriminate.
Qed.

(** C9: a description that is valid except that some section has no
    ["subsections"] passes the copy pass, which reads the missing key as
    an empty list, and makes the navigation pass, which indexes the
    section with ["subsections"], end [_parse_structure] with a
    [KeyError] and not with the [PluginRunError] of a malformed
    structure; [_parse_sidebar] raises it for every such section. *)
Theorem section_without_subsections (unquote : str → str)
    (cwd docusaurus_dir : str) (structure : value) :
  valid_structure true structure = true →
  lacks_subsections structure = true →
  (∃ plan, _parse_copy cwd structure cwd
             (os_path.join docusaurus_dir ["docs" : str]) [] = Ok plan)
  ∧ _parse_structure unquote cwd docusaurus_dir structure
    = Raise (KeyError "subsections")
  ∧ ∀ k d path,
      dict_get d "subsections" = None →
      _parse_sidebar unquote k (VDict d) path = Raise (KeyError "subsections").
Proof.
  intros Hvalid Hlacks.
  destruct structure as [|items| |]; try done.
  destruct (parse_structure_outcome unquote cwd docusaurus_dir true items Hvalid)
    as [Hcopy H].
  cbn [lacks_subsections] in Hlacks. rewrite Hlacks in H.
  split; [done|]. split; [done|].
  intros k d path Hget. cbn [_parse_sidebar]. by rewrite with_get_eq, Hget.
Qed.

Lemma section_without_subsections_witness :
  valid_structure true bare_section_structure = true
  ∧ lacks_subsections bare_section_structure = true
  ∧ (∃ plan, _parse_copy "/src" bare_section_structure "/src"
               (os_path.join "/dst" ["docs" : str]) [] = Ok plan)
  ∧ _parse_structure (λ s, s) "/src" "/dst" bare_section_structure
    = Raise (KeyError "subsections")
  ∧ ∀ k d path,
      dict_get d "subsections" = None →
      _parse_sidebar (λ s, s) k (VDict d) path = Raise (KeyError "subsections").
Proof.
  split; [reflexivity|]. split; [reflexivity|].
  apply (section_without_subsections (λ s, s) "/src" "/dst"); reflexivity.
Defined.

(** ** The links found in a text *)

Lemma grow_dot r g n :
  re.grow "." r = Some (g, n) → ∃ t, g = "."%char :: t.
Proof. destruct r as [[g' n']|]; [|done]. intros [= <- _]. by eexists. Qed.

Lemma shift_hit k r g n :
  re.shift k r = Some (g, n) → ∃ n', r = Some (g, n').
Proof. destruct r as [[g' n']|]; [|done]. intros [= <- _]. by eexists. Qed.

Lemma target_dot rest s g n :
  re.target rest s = Some (g, n) → ∃ t, g = "."%char :: t.
Proof.
  unfold re.target. intros H.
  repeat (case_match; try done); by eapply grow_dot.
Qed.

Lemma md_label_dot s g n :
  re.md_label s = Some (g, n) → ∃ t, g = "."%char :: t.
Proof.
  revert n. induction s as [|c s IH]; intros n; [done|].
  cbn [re.md_label].
  match goal with
  | |- context [match ?h with Some r => Some r | None => _ end] =>
      destruct h as [[g' n']|] eqn:Hhere
  end.
  - intros Heq. injection Heq as -> ->. clear IH.
    destruct (ascii_dec c "]") as [->|]; [|by repeat case_match].
    destruct s as [|c s]; [done|].
    destruct (ascii_dec c "(") as [->|]; [|by repeat case_match].
    apply shift_hit in Hhere as [? Hhere]. by eapply target_dot.
  - destruct (bool_decide (c = re.newline)); [done|].
    intros [? H]%shift_hit. by eapply IH.
Qed.

Lemma iframe_attrs_dot s g n :
  re.iframe_attrs s = Some (g, n) → ∃ t, g = "."%char :: t.
Proof.
  revert n. induction s as [|c s IH]; intros n; [done|].
  cbn [re.iframe_attrs].
  match goal with
  | |- context [match ?h with Some r => Some r | None => _ end] =>
      destruct h as [[g' n']|] eqn:Hhere
  end.
  - intros Heq. injection Heq as -> ->. clear IH.
    repeat (case_match; try done).
    apply shift_hit in Hhere as [? Hhere]. by eapply target_dot.
  - destruct (bool_decide (c = re.newline)); [done|].
    intros [? H]%shift_hit. by eapply IH.
Qed.

Lemma finditer_from_elem (P : str → Prop) regex :
  (∀ s g n, regex s = Some (g, n) → P g) →
  ∀ s skip g, g ∈ re.finditer_from regex skip s → P g.
Proof.
  intros Hregex. induction s as [|c s IH]; intros skip g; simpl.
  - by intros ?%elem_of_nil.
  - destruct skip as [|k]; [|by apply IH].
    destruct (regex (c :: s)) as [[g' n]|] eqn:Hhit; [|by apply IH].
    intros [->|Hin]%elem_of_cons; [by eapply Hregex|by eapply IH].
Qed.

(** Every link that the loop of [_resolve_links] handles starts with a
    dot; it is not the empty string. *)
Lemma links_start_with_dot text g :
  g ∈ links text → ∃ t, g = "."%char :: t.
Proof.
  unfold links, re.finditer. intros [Hin|Hin]%elem_of_app.
  - eapply (finditer_from_elem (λ g, ∃ t, g = "."%char :: t) re.md_link_regex);
      [|exact Hin].
    intros s g' n. unfold re.md_link_regex.
    repeat (case_match; try done). intros [? Hhit]%shift_hit.
    by eapply md_label_dot.
  - eapply (finditer_from_elem (λ g, ∃ t, g = "."%char :: t) re.iframe_link_regex);
      [|exact Hin].
    intros s g' n. unfold re.iframe_link_regex.
    case_match; [|done]. intros [? Hhit]%shift_hit.
    by eapply iframe_attrs_dot.
Qed.

(** ** The mappings and the sorted keys *)

Lemma mapping_get_keys (m : mapping) k :
  k ∈ keys m → ∃ v, mapping_get m k = Some v.
Proof.
  unfold keys. induction m as [|[k' v'] m IH]; simpl.
  - by intros ?%elem_of_nil.
  - intros Hin. case_bool_decide as Hk; [by eexists|].
    apply elem_of_cons in Hin as [->|Hin]; [done|by apply IH].
Qed.

Lemma insert_sorted_perm key x l : insert_sorted key x l ≡ₚ x :: l.
Proof.
  induction l as [|y l IH]; simpl; [done|].
  case_match; [done|]. rewrite IH. apply Permutation_swap.
Qed.

Lemma sorted_reverse_perm key l : sorted_reverse key l ≡ₚ l.
Proof.
  induction l as [|x l IH]; simpl; [done|].
  by rewrite insert_sorted_perm, IH.
Qed.

Lemma first_prefix_elem possible src_ref k :
  first_prefix possible src_ref = Some k →
  k ∈ possible ∧ k `prefix_of` src_ref.
Proof.
  unfold first_prefix. induction possible as [|x l IH]; simpl; [done|].
  destruct (startswith src_ref x) eqn:Hx.
  - intros [= <-]. split; [left|by apply startswith_prefix].
  - intros [Hin Hp]%IH. split; [by right|done].
Qed.

Lemma first_prefix_none possible src_ref :
  (∀ k, k ∈ possible → ¬ k `prefix_of` src_ref) →
  first_prefix possible src_ref = None.
Proof.
  unfold first_prefix. induction possible as [|x l IH]; simpl; [done|].
  intros Hno. destruct (startswith src_ref x) eqn:Hx.
  - apply startswith_prefix in Hx. destruct (Hno x); [left|done].
  - apply IH. intros k Hk. apply Hno. by right.
Qed.

Lemma real_join_cons cwd parts :
  path_utils.real_join cwd parts
  = "/"%char :: pystr.join "/"
      (os_path.norm_comps true (pystr.split (os_path.join cwd parts) os_path.sep)).
Proof. done. Qed.

(** The lines that compute the new link raise nothing when the unit is
    a key of the mapping. *)
Lemma new_link_ok fs cwd (m : mapping) dst_dir src_ref k :
  k ∈ keys m → ∃ dst_link, new_link fs cwd m dst_dir src_ref k = Ok dst_link.
Proof.
  intros [v Hv]%mapping_get_keys. unfold new_link, getitem. rewrite Hv.
  cbn [mbind result_bind]. rewrite real_join_cons.
  unfold os_path.relpath. cbv zeta. cbn match.
  match goal with |- context [match ?l with [] => Some (of_string ".") | _ => _ end] =>
    destruct l end; by eexists.
Qed.

(** ** Links that are not found, and links that are rewritten *)

Lemma no_key_matches_spec (m : mapping) src_ref :
  no_key_matches m src_ref = true
  ↔ ∀ k, k ∈ keys m → ¬ k `prefix_of` src_ref.
Proof.
  unfold no_key_matches. rewrite forallb_forall. split.
  - intros H k Hk Hp. apply list_elem_of_In, H in Hk.
    apply startswith_prefix in Hp. by rewrite Hp in Hk.
  - intros H k Hk%list_elem_of_In. apply negb_true_iff.
    destruct (startswith src_ref k) eqn:Hs; [|done].
    apply startswith_prefix in Hs. by destruct (H k).
Qed.

(** C5 (as amended): when no key of the mapping from sources to
    destinations is a prefix of the reference path of a link, the round
    of the loop that handles the link logs exactly one warning, which
    names the reference and the link, hands on the text as it received
    it, and raises nothing; a text all of whose links are of this kind
    comes out of the loop unchanged, with one warning for each link. *)
Theorem unresolved_links_are_skipped (fs : filesystem) (cwd : str)
    (src_to_dst : mapping) (src_dir dst_dir : str) (src_links : list str) :
  let src_ref src_link := path_utils.real_join cwd [src_dir; src_link] in
  let warning src_link := unresolved_warning (src_ref src_link) src_link in
  let step :=
    link_step fs cwd src_to_dst (possible_src src_to_dst) src_dir dst_dir in
  forallb (λ l, no_key_matches src_to_dst (src_ref l)) src_links = true →
  (∀ src_link content log,
     src_link ∈ src_links →
     step src_link (content, log) = Ok (content, log ++ [warning src_link]))
  ∧ (∀ content log,
       for_each step src_links (content, log)
       = Ok (content, log ++ (warning <$> src_links))).
Proof.
  intros src_ref warning step Hall. rewrite forallb_forall in Hall.
  assert (Hstep : ∀ src_link content log,
             src_link ∈ src_links →
             step src_link (content, log)
             = Ok (content, log ++ [warning src_link])).
  { intros src_link content log Hin%list_elem_of_In%Hall.
    unfold step, link_step. fold (src_ref src_link).
    rewrite first_prefix_none; [done|].
    intros k Hk. unfold possible_src in Hk.
    rewrite sorted_reverse_perm in Hk.
    by apply (no_key_matches_spec src_to_dst). }
  split; [exact Hstep|]. clear Hall.
  induction src_links as [|l ls IH]; intros content log.
  - by rewrite app_nil_r.
  - rewrite for_each_cons, Hstep by left. cbn [mbind result_bind].
    rewrite IH, <-app_assoc; [done|].
    intros ? ? ? ?. apply Hstep. by right.
Qed.

Lemma unresolved_links_are_skipped_witness :
  let fs := sub_fs two_links_text in
  let m := src_to_dst_of fs [lesson_entry; sub_entry] in
  let src_ref src_link :=
    path_utils.real_join "/dst" ["/src/lessons" : str; src_link] in
  let warning src_link := unresolved_warning (src_ref src_link) src_link in
  let step :=
    link_step fs "/dst" m (possible_src m) "/src/lessons" "/dst/docs/Lessons" in
  forallb (λ l, no_key_matches m (src_ref l)) ["../a.md" : str] = true
  ∧ (∀ src_link content log,
       src_link ∈ ["../a.md" : str] →
       step src_link (content, log) = Ok (content, log ++ [warning src_link]))
  ∧ (∀ content log,
       for_each step ["../a.md" : str] (content, log)
       = Ok (content, log ++ (warning <$> ["../a.md" : str]))).
Proof.
  split; [reflexivity|].
  apply (unresolved_links_are_skipped (sub_fs two_links_text) "/dst"
           (src_to_dst_of (sub_fs two_links_text) [lesson_entry; sub_entry])
           "/src/lessons" "/dst/docs/Lessons" ["../a.md" : str]).
  reflexivity.
Defined.

(** C5 as stated fails: the lesson has the links [./a.md], which is in
    the copy plan, and [../a.md], which is not and is logged; the text
    [./a.md] of the first occurs inside the second, and the rewrite of
    the first changes both. *)
Lemma unresolved_link_text_rewritten :
  let fs := sub_fs two_links_text in
  let m := src_to_dst_of fs [lesson_entry; sub_entry] in
  let run :=
    _resolve_links "/dst" "/dst" [lesson_entry; sub_entry] lesson_leaf fs in
  let src_ref := path_utils.real_join "/dst" ["/src/lessons" : str; "../a.md" : str] in
  links two_links_text = ["./a.md" : str; "../a.md" : str]
  ∧ no_key_matches m src_ref = true
  ∧ warnings_of run = Some [unresolved_warning src_ref "../a.md"]
  ∧ text_after run lesson_file = Some ("[a](Sub/a.md) [b](.Sub/a.md)" : str)
  ∧ contains "[a](Sub/a.md) [b](.Sub/a.md)" "../a.md" = false.
Proof. repeat split; vm_compute; reflexivity. Qed.

(** C10: the round of the loop for a link that is found replaces the
    text it received by [content.replace(src_link, dst_link)]: where the
    text of the link stands a first and a second time, whether in the
    link or anywhere else, both places hold the new link afterwards, and
    the rest of the text is replaced in the same way. *)
Theorem every_occurrence_is_rewritten (fs : filesystem) (cwd : str)
    (src_to_dst : mapping) (src_dir dst_dir text src_link _src_ref : str) :
  let src_ref := path_utils.real_join cwd [src_dir; src_link] in
  src_link ∈ links text →
  first_prefix (possible_src src_to_dst) src_ref = Some _src_ref →
  ∃ dst_link,
    new_link fs cwd src_to_dst dst_dir src_ref _src_ref = Ok dst_link
    ∧ (∀ content log,
         link_step fs cwd src_to_dst (possible_src src_to_dst)
           src_dir dst_dir src_link (content, log)
         = Ok (replace content src_link dst_link, log))
    ∧ (∀ a b c,
         contains (a ++ removelast src_link) src_link = false →
         contains (b ++ removelast src_link) src_link = false →
         replace (a ++ src_link ++ b ++ src_link ++ c) src_link dst_link
         = a ++ dst_link ++ b ++ dst_link ++ replace c src_link dst_link).
Proof.
  intros src_ref Hlink Hfound.
  destruct (links_start_with_dot _ _ Hlink) as [t ->].
  pose proof (first_prefix_elem _ _ _ Hfound) as [Hin _].
  unfold possible_src in Hin. rewrite sorted_reverse_perm in Hin.
  destruct (new_link_ok fs cwd src_to_dst dst_dir src_ref _src_ref Hin)
    as [dst_link Hnew].
  exists dst_link. split; [done|]. split.
  - intros content log. unfold link_step. fold src_ref.
    rewrite Hfound, Hnew. done.
  - intros a b c Ha Hb.
    rewrite (replace_first a) by done. do 2 f_equal.
    by rewrite (replace_first b).
Qed.

Lemma every_occurrence_is_rewritten_witness :
  let fs := lessons_fs figure_twice_text in
  let m := src_to_dst_of fs [lesson_entry; shared_entry] in
  let src_link : str := "../shared/img/fig1.png" in
  let src_ref := path_utils.real_join "/dst" ["/src/lessons" : str; src_link] in
  src_link ∈ links figure_twice_text
  ∧ first_prefix (possible_src m) src_ref = Some ("/src/shared" : str)
  ∧ ∃ dst_link,
      new_link fs "/dst" m "/dst/docs/Lessons" src_ref "/src/shared"
      = Ok dst_link
      ∧ (∀ content log,
           link_step fs "/dst" m (possible_src m)
             "/src/lessons" "/dst/docs/Lessons" src_link (content, log)
           = Ok (replace content src_link dst_link, log))
      ∧ (∀ a b c,
           contains (a ++ removelast src_link) src_link = false →
           contains (b ++ removelast src_link) src_link = false →
           replace (a ++ src_link ++ b ++ src_link ++ c) src_link dst_link
           = a ++ dst_link ++ b ++ dst_link ++ replace c src_link dst_link).
Proof.
  split; [vm_compute; left|]. split; [reflexivity|].
  apply (every_occurrence_is_rewritten (lessons_fs figure_twice_text) "/dst"
           (src_to_dst_of (lessons_fs figure_twice_text)
              [lesson_entry; shared_entry])
           "/src/lessons" "/dst/docs/Lessons" figure_twice_text
           "../shared/img/fig1.png" "/src/shared").
  - vm_compute. left.
  - reflexivity.
Defined.

(** ** The key under which a reference is found *)

Lemma insert_sorted_sorted key x l :
  StronglySorted (by_key_reversed key) l →
  StronglySorted (by_key_reversed key) (insert_sorted key x l).
Proof.
  induction 1 as [|y l Hl IH Hy]; simpl.
  - by repeat constructor.
  - destruct (key y <=? key x) eqn:Hle.
    + apply Nat.leb_le in Hle. constructor; [by constructor|].
      constructor; [done|].
      eapply Forall_impl; [exact Hy|]. unfold by_key_reversed. intros z Hz. lia.
    + apply Nat.leb_gt in Hle. constructor; [done|].
      rewrite insert_sorted_perm. constructor; [unfold by_key_reversed; lia|done].
Qed.

Lemma sorted_reverse_sorted key l :
  StronglySorted (by_key_reversed key) (sorted_reverse key l).
Proof.
  induction l as [|x l IH]; simpl; [constructor|].
  by apply insert_sorted_sorted.
Qed.

(** The first element with [p] after the insertion of [x]. *)
Lemma find_insert_sorted (p : str → bool) key x l :
  StronglySorted (by_key_reversed key) l →
  find p (insert_sorted key x l)
  = if p x then
      match find p l with
      | Some y => if key y <=? key x then Some x else Some y
      | None => Some x
      end
    else find p l.
Proof.
  induction 1 as [|y l Hl IH Hy]; simpl.
  - by destruct (p x).
  - destruct (key y <=? key x) eqn:Hle; simpl.
    + destruct (p x) eqn:Hx; [|done].
      destruct (p y) eqn:Hpy; [by rewrite Hle|].
      destruct (find p l) as [z|] eqn:Hz; [|done].
      apply find_some in Hz as [Hin%list_elem_of_In _].
      rewrite Forall_forall in Hy. apply Hy in Hin. unfold by_key_reversed in Hin.
      apply Nat.leb_le in Hle.
      by destruct (Nat.leb_spec (key z) (key x)); [|lia].
    + destruct (p y) eqn:Hpy.
      * destruct (p x); [by rewrite Hle|done].
      * apply IH.
Qed.

(** The element that [next] finds in the sorted keys, told from the
    list [l] as it was before the sort: it is the first among the
    elements with [p] that have the largest key. *)
Lemma find_sorted_reverse (p : str → bool) key l k :
  find p (sorted_reverse key l) = Some k →
  ∃ before after,
    l = before ++ k :: after
    ∧ p k = true
    ∧ (∀ x, x ∈ before → p x = true → key x < key k)
    ∧ (∀ x, x ∈ after → p x = true → key x ≤ key k).
Proof.
  revert k. induction l as [|x l IH]; intros k; [done|].
  simpl. rewrite find_insert_sorted by apply sorted_reverse_sorted.
  destruct (p x) eqn:Hx.
  - destruct (find p (sorted_reverse key l)) as [y|] eqn:Hy.
    + destruct (IH y eq_refl) as (before & after & -> & Hpy & Hb & Ha).
      destruct (Nat.leb_spec (key y) (key x)) as [Hle|Hlt]; intros [= <-].
      * exists [], (before ++ y :: after). repeat split; try done.
        { by intros ? ?%elem_of_nil. }
        intros z [Hz|[->|Hz]%elem_of_cons]%elem_of_app Hpz; [|done|].
        -- specialize (Hb z Hz Hpz). lia.
        -- specialize (Ha z Hz Hpz). lia.
      * exists (x :: before), after. repeat split; try done.
        intros z [->|Hz]%elem_of_cons Hpz; [done|by apply Hb].
    + intros [= <-]. exists [], l. repeat split; try done.
      { by intros ? ?%elem_of_nil. }
      intros z Hz Hpz.
      assert (Hin : z ∈ sorted_reverse key l) by by rewrite sorted_reverse_perm.
      apply list_elem_of_In in Hin.
      by rewrite (find_none _ _ Hy z Hin) in Hpz.
  - intros Hk. destruct (IH k Hk) as (before & after & -> & Hpk & Hb & Ha).
    exists (x :: before), after. repeat split; try done.
    intros z [->|Hz]%elem_of_cons Hpz; [congruence|by apply Hb].
Qed.


(** *** Segments of keys *)

Lemma split_length s c :
  length (split s c) = S (length (filter (λ x, x = c) s)).
Proof.
  unfold str in *. induction s as [|a s IH]; [done|]. cbn [split].
  rewrite filter_cons. case_bool_decide as Ha; case_decide; try done.
  - cbn [length]. by rewrite IH.
  - destruct (split s c); cbn [length] in *; lia.
Qed.

Lemma rstrip_cons c s chars :
  rstrip s chars ≠ [] → rstrip (c :: s) chars = c :: rstrip s chars.
Proof. cbn [rstrip]. by destruct (rstrip s chars). Qed.

Lemma rstrip_idemp s chars : rstrip (rstrip s chars) chars = rstrip s chars.
Proof.
  induction s as [|c s IH]; [done|].
  destruct (rstrip s chars) as [|r0 r] eqn:Hr.
  - cbn [rstrip]. rewrite Hr.
    destruct (char_in c chars) eqn:Hc; [done|]. cbn [rstrip]. by rewrite Hc.
  - rewrite (rstrip_cons c s) by (by rewrite Hr). rewrite Hr.
    rewrite rstrip_cons by (by rewrite IH). by rewrite IH.
Qed.

Lemma lstrip_nil_rstrip s chars : lstrip s chars = [] → rstrip s chars = [].
Proof.
  induction s as [|c s IH]; [done|]. simpl.
  destruct (char_in c chars) eqn:Hc; [|done].
  intros H. by rewrite (IH H).
Qed.

Lemma lstrip_app s u chars :
  lstrip s chars ≠ [] → lstrip (s ++ u) chars = lstrip s chars ++ u.
Proof.
  induction s as [|c s IH]; [done|]. simpl.
  destruct (char_in c chars); [exact IH|done].
Qed.

(** Of two keys without a separator at the end, the one that is a
    prefix of the other has no more segments. *)
Lemma segments_prefix k k' :
  rstrip k "/" = k → rstrip k' "/" = k' → k `prefix_of` k' →
  segments k ≤ segments k'.
Proof.
  intros Hk Hk' [u ->]. unfold segments, strip. rewrite Hk, Hk', !split_length.
  destruct (lstrip k "/") as [|c t] eqn:Hl.
  - simpl. lia.
  - rewrite lstrip_app, Hl by (by rewrite Hl).
    unfold str in *. rewrite filter_app, length_app. lia.
Qed.

Lemma keys_mapping_set (m : mapping) k v x :
  x ∈ keys (mapping_set m k v) → x = k ∨ x ∈ keys m.
Proof.
  unfold keys. induction m as [|[k' v'] m IH]; simpl.
  - intros [->|[]%elem_of_nil]%elem_of_cons. by left.
  - case_bool_decide as Hk; simpl.
    + intros [->|Hx]%elem_of_cons; [by left|]. right. by right.
    + intros [->|Hx]%elem_of_cons; [right; left|].
      destruct (IH Hx) as [->|Hin]; [by left|]. right. by right.
Qed.

(** The keys of the mapping from sources to destinations have no
    separator at their end. *)
Lemma src_to_dst_keys_stripped fs to_copy k :
  k ∈ keys (src_to_dst_of fs to_copy) → rstrip k "/" = k.
Proof.
  unfold src_to_dst_of, create_mappings.
  assert (Hgen : ∀ acc : mapping * mapping,
             (∀ x, x ∈ keys acc.1 → rstrip x "/" = x) →
             k ∈ keys (fold_left (add_mapping fs) to_copy acc).1 →
             rstrip k "/" = k).
  { induction to_copy as [|[src dst] l IH]; intros acc Hacc; simpl.
    - apply Hacc.
    - apply IH. intros x [->|Hx]%keys_mapping_set.
      + apply rstrip_idemp.
      + by apply Hacc. }
  apply Hgen. by intros x ?%elem_of_nil.
Qed.

(** What the lookup finds: when some key of the mapping from sources
    to destinations is a prefix of the reference path, the key that is
    found is such a key with the largest number of path segments, and
    among the prefix keys with that number the first in the order in
    which the mapping is iterated. *)
Lemma found_key_has_most_segments (fs : filesystem) (to_copy : plan)
    (src_ref : str) :
  let m := src_to_dst_of fs to_copy in
  no_key_matches m src_ref = false →
  ∃ k,
    first_prefix (possible_src m) src_ref = Some k
    ∧ k ∈ keys m
    ∧ k `prefix_of` src_ref
    ∧ (∀ k', k' ∈ keys m → k' `prefix_of` src_ref →
             segments k' ≤ segments k)
    ∧ (∀ k', k' ∈ keys m → k' `prefix_of` src_ref →
             length k < length k' → segments k' = segments k)
    ∧ ∃ before after,
        keys m = before ++ k :: after
        ∧ ∀ k', k' ∈ before → k' `prefix_of` src_ref →
                segments k' < segments k.
Proof.
  intros m Hsome.
  destruct (first_prefix (possible_src m) src_ref) as [k|] eqn:Hfound.
  - exists k. split; [done|].
    destruct (find_sorted_reverse _ _ _ _ Hfound)
      as (before & after & Hkeys & Hk & Hb & Ha).
    apply startswith_prefix in Hk.
    assert (Hin : k ∈ keys m)
      by (rewrite Hkeys; apply elem_of_app; right; left).
    assert (Hmost : ∀ k', k' ∈ keys m → k' `prefix_of` src_ref →
                          segments k' ≤ segments k).
    { intros k' Hk' Hp%startswith_prefix. rewrite Hkeys in Hk'.
      apply elem_of_app in Hk' as [Hk'|[->|Hk']%elem_of_cons].
      - specialize (Hb k' Hk' Hp). lia.
      - done.
      - by apply Ha. }
    repeat split; try done.
    + intros k' Hk' Hp Hlen. apply Nat.le_antisymm; [by apply Hmost|].
      apply segments_prefix; try by eapply src_to_dst_keys_stripped.
      destruct (prefix_weak_total _ _ _ Hk Hp) as [?|Hrev]; [done|].
      apply prefix_length in Hrev. lia.
    + exists before, after. split; [done|].
      intros k' Hk' Hp%startswith_prefix. by apply Hb.
  - exfalso. apply not_true_iff_false in Hsome. apply Hsome.
    apply no_key_matches_spec. intros k Hk Hp.
    apply find_none with (x := k) in Hfound.
    + apply startswith_prefix in Hp. congruence.
    + apply list_elem_of_In. unfold possible_src.
      by rewrite sorted_reverse_perm.
Qed.

(** C4: the key that is found need not be a directory above the
    reference. The lesson [/dst/docs/Lessons/l1.md] links to
    [../shared/img/fig1.png], and [/src/sha] and [/src/shared] are both
    copied as units. The keys are compared by their number of segments
    and matched with [str.startswith], so with [/src/sha] first in the
    copy plan the reference [/src/shared/img/fig1.png] is found under
    [/src/sha], which is not the longest key that is a prefix of it
    ([/src/shared] is) and is no directory above it, and
    [_resolve_links] writes the link [../Sha/red/img/fig1.png]. With
    the same plan iterated in the other order the link is found under
    [/src/shared] and written as [../Shared/img/fig1.png]. *)
Theorem link_is_resolved_under_shorter_key :
  let fs := units_fs figure_link_text in
  let src_ref : str := "/src/shared/img/fig1.png" in
  let m := src_to_dst_of fs [lesson_entry; sha_entry; shared_entry] in
  let m' := src_to_dst_of fs [lesson_entry; shared_entry; sha_entry] in
  first_prefix (possible_src m) src_ref = Some ("/src/sha" : str)
  ∧ ¬ longest_prefix_key m src_ref "/src/sha"
  ∧ longest_prefix_key m src_ref "/src/shared"
  ∧ _resolve_links "/dst" "/dst" [lesson_entry; sha_entry; shared_entry]
      lesson_leaf fs
    = Ok (write fs lesson_file "[see](../Sha/red/img/fig1.png)", [])
  ∧ first_prefix (possible_src m') src_ref = Some ("/src/shared" : str)
  ∧ _resolve_links "/dst" "/dst" [lesson_entry; shared_entry; sha_entry]
      lesson_leaf fs
    = Ok (write fs lesson_file "[see](../Shared/img/fig1.png)", []).
Proof.
  intros fs src_ref m m'.
  assert (keys m = ["/src/lessons/l1.md" : str; "/src/sha" : str;
                    "/src/shared" : str]) as Hkeys by reflexivity.
  split_and!; try reflexivity.
  - intros (_ & _ & Hlongest).
    specialize (Hlongest ("/src/shared" : str)).
    assert (Hlen : length ("/src/shared" : str) ≤ length ("/src/sha" : str)).
    { apply Hlongest.
      - rewrite Hkeys. right. right. left.
      - apply startswith_prefix. reflexivity. }
    vm_compute in Hlen. lia.
  - split_and!.
    + rewrite Hkeys. right. right. left.
    + apply startswith_prefix. reflexivity.
    + intros k' Hk' Hprefix. rewrite Hkeys in Hk'.
      apply elem_of_cons in Hk' as [->|Hk'].
      { by apply startswith_prefix in Hprefix. }
      apply elem_of_cons in Hk' as [->|Hk']; [vm_compute; lia|].
      apply list_elem_of_singleton in Hk' as ->. done.
Qed.

(** ** Paths *)

(** *** Splitting at the separator *)

Lemma split_nonempty s c : split s c ≠ [].
Proof. destruct s as [|a s]; [done|]. simpl. by repeat case_match. Qed.

Lemma split_app s t c : split (s ++ c :: t) c = split s c ++ split t c.
Proof.
  induction s as [|a s IH]; simpl.
  - by rewrite bool_decide_eq_true_2.
  - rewrite IH. case_bool_decide; [done|].
    pose proof (split_nonempty s c). by destruct (split s c).
Qed.

Lemma split_simple s c : c ∉ s → split s c = [s].
Proof.
  induction s as [|a s IH]; [done|]. intros Hc. simpl.
  rewrite bool_decide_eq_false_2 by (intros ->; apply Hc; left).
  rewrite IH; [done|]. intros ?. apply Hc. by right.
Qed.

Lemma split_no_sep s c : Forall (λ x, c ∉ x) (split s c).
Proof.
  induction s as [|a s IH]; simpl.
  - repeat constructor. by intros ?%elem_of_nil.
  - case_bool_decide as Ha.
    + constructor; [by intros ?%elem_of_nil|done].
    + pose proof (split_nonempty s c).
      destruct (split s c) as [|h r]; [done|].
      inversion_clear IH as [|? ? Hh Hr]. constructor; [|done].
      intros [->|?]%elem_of_cons; done.
Qed.

(** *** Components *)

Lemma comps_nil : comps [] = [].
Proof. done. Qed.

Lemma comps_app_sep s t : comps (s ++ os_path.sep :: t) = comps s ++ comps t.
Proof. unfold comps, str. by rewrite split_app, filter_app. Qed.

Lemma comps_sep t : comps (os_path.sep :: t) = comps t.
Proof. apply (comps_app_sep [] t). Qed.

Lemma comps_app_r s : comps (s ++ [os_path.sep]) = comps s.
Proof. by rewrite comps_app_sep, comps_nil, app_nil_r. Qed.

Lemma comps_simple x : simple x → comps x = [x].
Proof.
  intros [Hne Hsep]. unfold comps, str. rewrite split_simple by done.
  rewrite filter_cons. by case_decide.
Qed.

Lemma comps_are_simple s : Forall simple (comps s).
Proof.
  unfold comps, str. apply Forall_forall. intros x [Hx Hin]%list_elem_of_filter.
  split; [done|].
  pose proof (split_no_sep s os_path.sep) as Hall.
  rewrite Forall_forall in Hall. by apply Hall.
Qed.

Lemma comps_repeat_sep n t : comps (repeat os_path.sep n ++ t) = comps t.
Proof. induction n as [|n IH]; [done|]. simpl. by rewrite comps_sep. Qed.

(** The components of [sep.join(l)] are the elements of [l]. *)
Lemma comps_join l : Forall simple l → comps (pystr.join "/" l) = l.
Proof.
  induction 1 as [|x l Hx Hl IH]; [done|].
  destruct l as [|y l].
  - by apply comps_simple.
  - change (pystr.join "/" (x :: y :: l))
      with (x ++ os_path.sep :: pystr.join "/" (y :: l)).
    by rewrite comps_app_sep, comps_simple, IH.
Qed.

(** *** Joining *)

Lemma isabs_cons p : os_path.isabs p = true ↔ ∃ t, p = os_path.sep :: t.
Proof.
  unfold os_path.isabs. rewrite startswith_prefix. split.
  - intros [t ->]. by exists t.
  - intros [t ->]. by exists t.
Qed.

Lemma endswith_sep p :
  endswith p "/" = true → ∃ p', p = p' ++ [os_path.sep].
Proof.
  unfold endswith. intros [t Ht]%startswith_prefix.
  exists (rev t). rewrite <-(rev_involutive p), Ht, rev_app_distr.
  by rewrite rev_involutive.
Qed.

(** The components of a joined path: those of [b] when [b] is
    absolute, and else those of [path] followed by those of [b]. *)
Lemma comps_join2 path b :
  comps (os_path.join2 path b)
  = if os_path.isabs b then comps b else comps path ++ comps b.
Proof.
  unfold os_path.join2. fold (os_path.isabs b).
  destruct (os_path.isabs b); [done|].
  case_bool_decide as Hnil; simpl.
  - by subst.
  - destruct (endswith path "/") eqn:Hend.
    + apply endswith_sep in Hend as [p' ->].
      rewrite <-app_assoc. cbn [app]. by rewrite comps_app_sep, comps_app_r.
    + apply (comps_app_sep path b).
Qed.

Lemma isabs_join2 path b :
  os_path.isabs path = true → os_path.isabs (os_path.join2 path b) = true.
Proof.
  intros [t ->]%isabs_cons. unfold os_path.join2.
  destruct (startswith b "/") eqn:Hb; [done|].
  by repeat case_match.
Qed.

Lemma join2_abs path b :
  os_path.isabs b = true → os_path.join2 path b = b.
Proof. unfold os_path.join2, os_path.isabs. by intros ->. Qed.

(** *** The stack of [normpath] *)

Lemma norm_stack_app l1 l2 stack :
  norm_stack (l1 ++ l2) stack = norm_stack l2 (norm_stack l1 stack).
Proof. apply fold_left_app. Qed.

(** Empty components are passed over. *)
Lemma norm_stack_split p stack :
  norm_stack (split p os_path.sep) stack = norm_stack (comps p) stack.
Proof.
  unfold comps, norm_stack, str. revert stack.
  induction (split p os_path.sep) as [|x l IH]; intros stack; [done|].
  rewrite filter_cons. case_decide as Hx; simpl.
  - apply IH.
  - subst x. apply IH.
Qed.

Lemma norm_step_plain stack x :
  plain x → os_path.norm_step true stack x = x :: stack.
Proof.
  intros (Hne & _ & Hdot & Hdots). unfold os_path.norm_step.
  rewrite !bool_decide_eq_false_2 by done. done.
Qed.

Lemma norm_stack_plain l stack :
  Forall plain l → norm_stack l stack = rev l ++ stack.
Proof.
  intros Hl. revert stack. induction Hl as [|x l Hx _ IH]; intros stack; [done|].
  unfold norm_stack in *. simpl. rewrite norm_step_plain by done.
  rewrite IH, <-app_assoc. done.
Qed.

Lemma norm_step_parent stack :
  Forall plain stack →
  os_path.norm_step true stack ".." = tail stack.
Proof.
  intros Hstack. unfold os_path.norm_step. simpl.
  destruct stack as [|top stack]; [done|].
  inversion_clear Hstack as [|? ? (_ & _ & _ & Htop) _].
  by rewrite bool_decide_eq_false_2.
Qed.

Lemma norm_stack_parents n stack :
  Forall plain stack →
  norm_stack (repeat (".." : str) n) stack = drop n stack.
Proof.
  revert stack. induction n as [|n IH]; intros stack Hstack; [done|].
  unfold norm_stack in *. simpl. rewrite norm_step_parent by done.
  destruct stack as [|top stack]; simpl.
  - rewrite IH by done. by destruct n.
  - apply IH. by inversion Hstack.
Qed.

(** The stack holds plain components only. *)
Lemma norm_stack_is_plain l stack :
  Forall simple l → Forall plain stack → Forall plain (norm_stack l stack).
Proof.
  intros Hl. revert stack. induction Hl as [|x l [Hne Hsep] _ IH]; intros stack Hstack;
    [done|].
  unfold norm_stack in *. simpl. apply IH. unfold os_path.norm_step.
  rewrite (bool_decide_eq_false_2 (x = [])) by done. simpl.
  case_bool_decide as Hdot; [done|].
  case_bool_decide as Hdots; simpl.
  - destruct stack as [|top stack]; [done|].
    inversion_clear Hstack as [|? ? (_ & _ & _ & Htop) Hrest].
    by rewrite bool_decide_eq_false_2.
  - by constructor.
Qed.

Lemma norm_comps_stack p :
  os_path.norm_comps true (split p os_path.sep) = rev (norm_stack (comps p) []).
Proof. unfold os_path.norm_comps. by rewrite <-norm_stack_split. Qed.

Lemma norm_comps_plain p :
  Forall plain (os_path.norm_comps true (split p os_path.sep)).
Proof.
  rewrite norm_comps_stack. apply Forall_rev, norm_stack_is_plain;
    [apply comps_are_simple|constructor].
Qed.

Lemma plain_simple x : plain x → simple x.
Proof. by intros (? & ? & _). Qed.

(** *** Real paths *)

Lemma real_join_rooted cwd parts :
  path_utils.real_join cwd parts
  = rooted (rev (norm_stack (comps (os_path.join cwd parts)) [])).
Proof. unfold path_utils.real_join, rooted. by rewrite norm_comps_stack. Qed.

Lemma comps_rooted l : Forall plain l → comps (rooted l) = l.
Proof.
  intros Hl. unfold rooted. rewrite comps_sep. apply comps_join.
  eapply Forall_impl; [exact Hl|]. apply plain_simple.
Qed.

Lemma isabs_rooted l : os_path.isabs (rooted l) = true.
Proof. done. Qed.

(** [normpath] of an absolute path keeps one or two separators in front
    of the normalized components. *)
Lemma normpath_abs p :
  os_path.isabs p = true →
  ∃ n, os_path.normpath p
       = repeat os_path.sep (S n)
         ++ pystr.join "/" (os_path.norm_comps true (split p os_path.sep)).
Proof.
  intros [t ->]%isabs_cons. unfold os_path.normpath.
  assert (Hn : ∃ n, os_path.initial_slashes (os_path.sep :: t) = S n).
  { unfold os_path.initial_slashes.
    change (startswith (os_path.sep :: t) "/") with true. cbn match.
    case_match; by eexists. }
  destruct Hn as [n ->]. exists n.
  rewrite (bool_decide_eq_false_2 (S n = 0)) by done. done.
Qed.

Lemma comps_normpath p :
  os_path.isabs p = true →
  comps (os_path.normpath p) = rev (norm_stack (comps p) []).
Proof.
  intros [n ->]%normpath_abs. rewrite comps_repeat_sep, comps_join.
  - apply norm_comps_stack.
  - eapply Forall_impl; [apply norm_comps_plain|]. apply plain_simple.
Qed.

Lemma comps_abspath cwd p :
  os_path.isabs p = true →
  comps (os_path.abspath cwd p) = rev (norm_stack (comps p) []).
Proof. intros Hp. unfold os_path.abspath. rewrite Hp. by apply comps_normpath. Qed.

Lemma comps_abspath_rooted cwd l :
  Forall plain l → comps (os_path.abspath cwd (rooted l)) = l.
Proof.
  intros Hl. rewrite comps_abspath by done.
  rewrite comps_rooted, norm_stack_plain by done.
  by rewrite app_nil_r, rev_involutive.
Qed.

(** *** The relative path *)

Lemma commonprefix_take l1 l2 :
  let i := length (os_path.commonprefix l1 l2) in
  os_path.commonprefix l1 l2 = take i l1
  ∧ os_path.commonprefix l1 l2 = take i l2.
Proof.
  revert l2. induction l1 as [|a l1 IH]; intros [|b l2]; try done.
  simpl. case_bool_decide as Hab; [|done]. subst b.
  destruct (IH l2) as [H1 H2]. simpl. split; by f_equal.
Qed.

Lemma commonprefix_length l1 l2 :
  length (os_path.commonprefix l1 l2) ≤ length l1
  ∧ length (os_path.commonprefix l1 l2) ≤ length l2.
Proof.
  revert l2. induction l1 as [|a l1 IH]; intros [|b l2]; simpl; try lia.
  case_bool_decide; simpl; [|lia]. destruct (IH l2). lia.
Qed.

Lemma simple_not_abs x : simple x → os_path.isabs x = false.
Proof.
  intros [Hne Hsep]. destruct (os_path.isabs x) eqn:Habs; [|done].
  apply isabs_cons in Habs as [t ->]. destruct Hsep. left.
Qed.

Lemma isabs_app x y :
  x ≠ [] → os_path.isabs (x ++ y) = os_path.isabs x.
Proof. by destruct x. Qed.

(** [join(a, *p)] of components: they are the components of the
    result, which is a relative path. *)
Lemma join_simple a p :
  a ≠ [] → os_path.isabs a = false → Forall simple p →
  comps (os_path.join a p) = comps a ++ p
  ∧ os_path.isabs (os_path.join a p) = false
  ∧ os_path.join a p ≠ [].
Proof.
  intros Hne Habs Hp. revert a Hne Habs.
  induction Hp as [|b p Hb _ IH]; intros a Hne Habs.
  - by rewrite app_nil_r.
  - unfold os_path.join in *. simpl.
    pose proof (simple_not_abs b Hb) as Hbabs.
    assert (Hj : os_path.join2 a b ≠ []
                 ∧ os_path.isabs (os_path.join2 a b) = false).
    { unfold os_path.join2. fold (os_path.isabs b). rewrite Hbabs.
      case_match; rewrite isabs_app by done; split; try done;
        by destruct a. }
    destruct Hj as [Hjne Hjabs].
    destruct (IH (os_path.join2 a b) Hjne Hjabs) as (Hc & Ha & Hn).
    split; [|done].
    rewrite Hc, comps_join2, Hbabs, (comps_simple b), <-app_assoc by done. done.
Qed.

(** The components of the relative path from [start] to [path]: the
    way up from [start] to the common directory, then down to
    [path]. *)
Lemma relpath_eq cwd path start :
  path ≠ [] →
  os_path.relpath cwd path start
  = Some
      (let start_list := comps (os_path.abspath cwd start) in
       let path_list := comps (os_path.abspath cwd path) in
       let i := length (os_path.commonprefix start_list path_list) in
       match repeat (".." : str) (length start_list - i) ++ drop i path_list with
       | [] => of_string "."
       | a :: p => os_path.join a p
       end).
Proof.
  intros Hne. unfold os_path.relpath. destruct path as [|c path]; [done|].
  cbv zeta. fold (comps (os_path.abspath cwd start)).
  fold (comps (os_path.abspath cwd (c :: path))).
  by case_match.
Qed.

Lemma simple_parent : simple "..".
Proof.
  split; [done|]. intros H.
  repeat (apply elem_of_cons in H as [H|H]; [discriminate H|]).
  by apply elem_of_nil in H.
Qed.

Lemma norm_stack_dot stack : norm_stack (comps ".") stack = stack.
Proof. done. Qed.

(** Following the relative path from a directory to a real path leads
    to that path. *)
Lemma relpath_round_trip cwd dst_dir l :
  os_path.isabs dst_dir = true →
  Forall plain l →
  ∃ link,
    os_path.relpath cwd (rooted l) dst_dir = Some link
    ∧ follow_link cwd dst_dir link = rooted l.
Proof.
  intros Habs Hl. eexists. split; [by apply relpath_eq|].
  rewrite comps_abspath, comps_abspath_rooted by done. cbv zeta.
  set (stack := norm_stack (comps dst_dir) []).
  assert (Hstack : Forall plain stack)
    by (apply norm_stack_is_plain; [apply comps_are_simple|constructor]).
  set (i := length (os_path.commonprefix (rev stack) l)).
  destruct (commonprefix_take (rev stack) l) as [Hs Hp]. fold i in Hs, Hp.
  destruct (commonprefix_length (rev stack) l) as [His Hil]. fold i in His, Hil.
  rewrite length_rev in *.
  set (rel := repeat (".." : str) (length stack - i) ++ drop i l).
  assert (Hrel : norm_stack rel stack = rev l).
  { unfold rel. rewrite norm_stack_app, norm_stack_parents by done.
    rewrite norm_stack_plain by (by apply Forall_drop).
    rewrite <-(rev_involutive (drop _ stack)), <-firstn_rev.
    rewrite <-Hs, Hp, <-rev_app_distr. by rewrite take_drop. }
  assert (Hgoal : ∀ link,
             os_path.isabs link = false →
             norm_stack (comps link) stack = rev l →
             follow_link cwd dst_dir link = rooted l).
  { intros link Hlink Hnorm. unfold follow_link.
    rewrite real_join_rooted. unfold os_path.join. simpl.
    rewrite comps_join2, Hlink, (join2_abs cwd) by done.
    rewrite norm_stack_app. fold stack. by rewrite Hnorm, rev_involutive. }
  destruct rel as [|a p] eqn:Heq.
  - apply Hgoal; [done|]. by rewrite norm_stack_dot.
  - assert (Hsimple : Forall simple (a :: p)).
    { rewrite <-Heq. unfold rel. apply Forall_app. split.
      - apply Forall_forall. intros x Hx%list_elem_of_In%repeat_spec. subst x.
        apply simple_parent.
      - apply Forall_drop. eapply Forall_impl; [exact Hl|]. apply plain_simple. }
    inversion_clear Hsimple as [|? ? Ha Hp'].
    destruct (join_simple a p) as (Hc & Hjabs & _);
      [by destruct Ha|by apply simple_not_abs|done|].
    apply Hgoal; [done|]. by rewrite Hc, comps_simple.
Qed.

(** *** Directory and base name *)

Lemma split_at_last_sep_spec p :
  p = (os_path.split_at_last_sep p).1 ++ (os_path.split_at_last_sep p).2
  ∧ (os_path.sep ∉ (os_path.split_at_last_sep p).2)
  ∧ ((os_path.split_at_last_sep p).1 = []
     ∨ ∃ h, (os_path.split_at_last_sep p).1 = h ++ [os_path.sep]).
Proof.
  induction p as [|c p (IHeq & IHsep & IHhead)].
  - repeat split; [by intros ?%elem_of_nil|by left].
  - cbn [os_path.split_at_last_sep].
    destruct (os_path.split_at_last_sep p) as [h b]. simpl in *.
    destruct h as [|h0 h].
    + case_bool_decide as Hc; simpl.
      * split; [by f_equal|]. split; [done|]. right. exists []. by rewrite Hc.
      * split; [by f_equal|]. split; [|by left].
        intros [Heq|?]%elem_of_cons; [by rewrite Heq in Hc|done].
    + simpl. split; [by f_equal|]. split; [done|]. right.
      destruct IHhead as [?|[h' Hh']]; [done|].
      exists (c :: h'). by rewrite Hh'.
Qed.

Lemma basename_no_sep p : os_path.sep ∉ os_path.basename p.
Proof. apply split_at_last_sep_spec. Qed.

Lemma char_in_sep c : char_in c "/" = bool_decide (c = os_path.sep).
Proof.
  unfold char_in. apply bool_decide_ext. split.
  - by intros [->|?%elem_of_nil]%elem_of_cons.
  - intros ->. left.
Qed.

(** [s.rstrip("/")] takes separators off the end of [s]. *)
Lemma rstrip_spec s : ∃ n, s = rstrip s "/" ++ repeat os_path.sep n.
Proof.
  induction s as [|c s [n IH]]; [by exists 0|].
  cbn [rstrip]. destruct (rstrip s "/") as [|r0 r] eqn:Hr.
  - rewrite char_in_sep. case_bool_decide as Hc.
    + subst c. exists (S n). simpl. by rewrite IH at 1.
    + exists n. simpl. by rewrite IH at 1.
  - exists n. simpl. by rewrite IH at 1.
Qed.

Lemma rstrip_nil s :
  rstrip s "/" = [] → forallb (λ c, bool_decide (c = os_path.sep)) s = true.
Proof.
  induction s as [|c s IH]; [done|]. cbn [rstrip].
  destruct (rstrip s "/") as [|r0 r]; [|done].
  rewrite char_in_sep. case_bool_decide; [|done]. intros _. simpl.
  rewrite IH by done. by rewrite bool_decide_eq_true_2.
Qed.

Lemma comps_app_seps s n : comps (s ++ repeat os_path.sep n) = comps s.
Proof.
  revert s. induction n as [|n IH]; intros s; [by rewrite app_nil_r|].
  cbn [repeat]. rewrite comps_app_sep.
  pose proof (IH []) as Hn. cbn [app] in Hn. by rewrite Hn, app_nil_r.
Qed.

Lemma comps_rstrip s : comps (rstrip s "/") = comps s.
Proof.
  destruct (rstrip_spec s) as [n Hn]. rewrite Hn at 2.
  by rewrite comps_app_seps.
Qed.

(** The directory of a path: the path up to its last separator,
    without the separators at the end of that, unless nothing else is
    there. *)
Lemma dirname_spec p :
  ∃ n, p = os_path.dirname p ++ repeat os_path.sep n ++ os_path.basename p.
Proof.
  destruct (split_at_last_sep_spec p) as (Heq & _ & _).
  unfold os_path.dirname, os_path.basename. case_match.
  - by exists 0.
  - destruct (rstrip_spec (os_path.split_at_last_sep p).1) as [n Hn].
    exists n. rewrite app_assoc, <-Hn. done.
Qed.

Lemma comps_dirname_basename p :
  comps p = comps (os_path.dirname p) ++ comps (os_path.basename p).
Proof.
  destruct (split_at_last_sep_spec p) as (Heq & _ & Hhead).
  assert (Hdir : comps (os_path.dirname p)
                 = comps (os_path.split_at_last_sep p).1).
  { unfold os_path.dirname. case_match; [done|apply comps_rstrip]. }
  rewrite Hdir. unfold os_path.basename. rewrite Heq at 1.
  destruct Hhead as [->|[h ->]]; [done|].
  rewrite <-app_assoc. cbn [app]. by rewrite comps_app_sep, comps_app_r.
Qed.

Lemma isabs_dirname p : os_path.isabs (os_path.dirname p) = os_path.isabs p.
Proof.
  destruct (dirname_spec p) as [n Hn].
  destruct (os_path.dirname p) as [|c d] eqn:Hd.
  - destruct (os_path.isabs p) eqn:Habs; [|done].
    apply isabs_cons in Habs as [t Ht]. exfalso.
    destruct (split_at_last_sep_spec p) as (Heq & Hsep & Hhead).
    unfold os_path.dirname in Hd. fold (os_path.basename p) in *.
    destruct (forallb _ (os_path.split_at_last_sep p).1) eqn:Hall.
    + rewrite Hd in Heq. simpl in Heq. apply Hsep.
      fold (os_path.basename p). rewrite <-Heq, Ht. left.
    + apply rstrip_nil in Hd. congruence.
  - rewrite Hn at 1. done.
Qed.

Lemma lstrip_seps n s : lstrip (repeat os_path.sep n ++ s) "/" = lstrip s "/".
Proof.
  induction n as [|n IH]; [done|]. cbn [repeat app lstrip].
  by rewrite char_in_sep, bool_decide_eq_true_2.
Qed.

Lemma lstrip_relative s : os_path.isabs s = false → lstrip s "/" = s.
Proof.
  destruct s as [|c s]; [done|]. intros Habs. cbn [lstrip].
  rewrite char_in_sep. case_bool_decide as Hc; [|done]. by rewrite Hc in Habs.
Qed.

Lemma no_sep_not_abs s : os_path.sep ∉ s → os_path.isabs s = false.
Proof.
  intros Hsep. destruct (os_path.isabs s) eqn:Habs; [|done].
  apply isabs_cons in Habs as [t ->]. destruct Hsep. left.
Qed.

(** What [_resolve_links] takes for the path of a file inside its
    directory is the base name of the file. *)
Lemma removeprefix_dirname p :
  lstrip (removeprefix p (os_path.dirname p)) "/" = os_path.basename p.
Proof.
  destruct (dirname_spec p) as [n Hn]. unfold removeprefix.
  pose proof (basename_no_sep p) as Hsep.
  set (d := os_path.dirname p) in *. set (b := os_path.basename p) in *.
  clearbody d b. subst p.
  rewrite startswith_app, drop_app_length, lstrip_seps.
  by apply lstrip_relative, no_sep_not_abs.
Qed.

(** *** Joining real paths *)

Lemma real_join_empty cwd d :
  path_utils.real_join cwd [d; []] = path_utils.real_join cwd [d].
Proof.
  rewrite !real_join_rooted. unfold os_path.join. simpl.
  by rewrite comps_join2, comps_nil, app_nil_r.
Qed.

Lemma real_join_dirname_basename cwd d :
  path_utils.real_join cwd [os_path.dirname d; os_path.basename d]
  = path_utils.real_join cwd [d].
Proof.
  rewrite !real_join_rooted. unfold os_path.join. simpl.
  rewrite comps_join2, (no_sep_not_abs (os_path.basename d))
    by apply basename_no_sep.
  rewrite !comps_join2, isabs_dirname.
  destruct (os_path.isabs d); by rewrite <-?app_assoc, <-comps_dirname_basename.
Qed.

Lemma real_join_plain cwd parts :
  ∃ l, path_utils.real_join cwd parts = rooted l ∧ Forall plain l.
Proof.
  eexists. split; [apply real_join_rooted|].
  apply Forall_rev, norm_stack_is_plain; [apply comps_are_simple|constructor].
Qed.

(** ** The rewritten link *)

Lemma wrap_spaces_none link : contains link " " = false → wrap_spaces link = link.
Proof. unfold wrap_spaces. by intros ->. Qed.

Lemma removeprefix_self s : removeprefix s s = [].
Proof.
  unfold removeprefix. pose proof (startswith_app s []) as Hs.
  rewrite app_nil_r in Hs. rewrite Hs. apply drop_all.
Qed.

(** The destination reference that [_resolve_links] computes is the
    new location of the source reference. *)
Lemma new_link_location (fs : filesystem) (cwd : str) (m : mapping)
    (dst_dir src_ref K D target : str) :
  mapping_get m K = Some D →
  isfile fs D = isfile fs K →
  (isfile fs K = true → os_path.basename D = os_path.basename K) →
  new_location fs cwd K D src_ref = Some target →
  new_link fs cwd m dst_dir src_ref K
  = match os_path.relpath cwd target dst_dir with
    | Some dst_link => Ok (wrap_spaces dst_link)
    | None => Raise ValueError
    end.
Proof.
  intros Hget Hkind Hname Hloc. unfold new_link, getitem. rewrite Hget.
  cbn [mbind result_bind]. rewrite Hkind.
  assert (Hdst :
    path_utils.real_join cwd
      [if isfile fs K then os_path.dirname D else D;
       lstrip (removeprefix src_ref
                 (if isfile fs K then os_path.dirname K else K)) "/"]
    = target); [|by rewrite Hdst].
  unfold new_location in Hloc. case_bool_decide as Heq.
  - injection Hloc as <-. subst src_ref.
    destruct (isfile fs K) eqn:Hfile.
    + rewrite removeprefix_dirname, <-Hname by done.
      apply real_join_dirname_basename.
    + rewrite removeprefix_self. apply real_join_empty.
  - destruct (isfile fs K); [done|].
    destruct (startswith src_ref (K ++ [os_path.sep])) eqn:Hstart; [|done].
    destruct (os_path.isabs (drop (length K + 1) src_ref)) eqn:Habs; [done|].
    injection Hloc as <-.
    apply startswith_prefix in Hstart as [rest ->].
    assert (Hdrop : drop (length K + 1) ((K ++ [os_path.sep]) ++ rest) = rest).
    { replace (length K + 1) with (length (K ++ [os_path.sep]))
        by (rewrite length_app; simpl; lia).
      apply drop_app_length. }
    rewrite Hdrop in *. do 2 f_equal.
    unfold removeprefix. rewrite <-app_assoc, startswith_app, drop_app_length.
    cbn [app lstrip]. rewrite char_in_sep, bool_decide_eq_true_2 by done.
    by rewrite lstrip_relative.
Qed.

(** The round of a link whose reference has been copied to [target]:
    every occurrence of the text of the link is replaced by the new
    text of the relative path from [dst_dir] to [target], and following
    that path from [dst_dir] leads to [target]. *)
Lemma link_round_leads_to_target (fs : filesystem) (cwd : str)
    (m : mapping) (src_dir dst_dir src_link target : str) :
  copied_to fs cwd m (path_utils.real_join cwd [src_dir; src_link]) target →
  os_path.isabs dst_dir = true →
  ∃ dst_link,
    os_path.relpath cwd target dst_dir = Some dst_link
    ∧ follow_link cwd dst_dir dst_link = target
    ∧ ∀ content log,
        link_step fs cwd m (possible_src m) src_dir dst_dir src_link
          (content, log)
        = Ok (replace content src_link (wrap_spaces dst_link), log).
Proof.
  intros (K & D & Hfound & Hget & Hkind & Hname & Hloc) Habs.
  assert (Hplain : ∃ l, target = rooted l ∧ Forall plain l).
  { unfold new_location in Hloc.
    repeat case_match; try done; injection Hloc as <-; apply real_join_plain. }
  destruct Hplain as (l & -> & Hl).
  destruct (relpath_round_trip cwd dst_dir l Habs Hl)
    as (dst_link & Hrel & Hfollow).
  exists dst_link. split_and!; [done|done|].
  intros content log. unfold link_step. rewrite Hfound.
  rewrite (new_link_location fs cwd m dst_dir _ K D (rooted l)) by done.
  by rewrite Hrel.
Qed.

(** C1 as stated fails: the document [/src/shared/notes.md] is copied
    with its directory to [/dst/docs/Shared Files/notes.md]; the
    relative path to it has a space in it, and the link is rewritten to
    [<../Shared Files/notes>], which leads there neither as it stands
    nor without the angle brackets. *)
Lemma link_with_space_misses_target :
  let fs := shared_files_fs notes_link_text in
  let m := src_to_dst_of fs [lesson_entry; shared_files_entry] in
  let src_ref :=
    path_utils.real_join "/dst" ["/src/lessons" : str; "../shared/notes.md" : str] in
  let target : str := "/dst/docs/Shared Files/notes.md" in
  links notes_link_text = ["../shared/notes.md" : str]
  ∧ first_prefix (possible_src m) src_ref = Some ("/src/shared" : str)
  ∧ new_location fs "/dst" "/src/shared" "/dst/docs/Shared Files" src_ref
    = Some target
  ∧ new_link fs "/dst" m "/dst/docs/Lessons" src_ref "/src/shared"
    = Ok ("<../Shared Files/notes>" : str)
  ∧ text_after
      (_resolve_links "/dst" "/dst" [lesson_entry; shared_files_entry]
         lesson_leaf fs) lesson_file
    = Some ("[notes](<../Shared Files/notes>)" : str)
  ∧ follow_link "/dst" "/dst/docs/Lessons" "<../Shared Files/notes>" ≠ target
  ∧ follow_link "/dst" "/dst/docs/Lessons" "../Shared Files/notes" ≠ target.
Proof.
  repeat split; try (vm_compute; reflexivity);
    intros H; vm_compute in H; discriminate H.
Qed.

(** * Further properties *)

(** ** The loop over the top-level entries *)

Lemma top_items_unfold u items acc r :
  for_each (top_item u) items acc = Ok r →
  ∃ ns,
    r = (acc.1 || existsb has_intro_key items, acc.2 ++ ns)
    ∧ Forall2 (λ item n, ∃ k v rest,
                 item = VDict ((k, v) :: rest)
                 ∧ _parse_sidebar u k v [] = Ok n) items ns.
Proof.
  revert acc. induction items as [|item items IH]; intros acc.
  - intros [= <-]. exists []. cbn [existsb]. rewrite orb_false_r, app_nil_r.
    split; [by destruct acc|constructor].
  - rewrite for_each_cons.
    destruct item as [| |[|[k v] rest]|]; try done.
    rewrite top_item_entry.
    destruct (_parse_sidebar u k v []) as [n|] eqn:Hn; [|done].
    cbn [mbind result_bind]. intros (ns & -> & Hns)%IH.
    exists (n :: ns). cbn [fst snd existsb has_intro_key]. split.
    + f_equal; [|by rewrite <-app_assoc].
      destruct (bool_decide (k = "Introduction")); simpl;
        by rewrite ?orb_true_r.
    + constructor; [by eauto|done].
Qed.

Lemma parse_structure_unfold u cwd docusaurus_dir structure p :
  _parse_structure u cwd docusaurus_dir structure = Ok p →
  ∃ items,
    py_iter structure = Ok items
    ∧ _parse_copy cwd structure cwd
        (os_path.join docusaurus_dir ["docs" : str]) [] = Ok (to_copy p)
    ∧ for_each (top_item u) items (false, []) = Ok (intro p, sidebar p).
Proof.
  unfold _parse_structure.
  destruct (_parse_copy _ _ _ _ _) as [plan|] eqn:Hcopy; [|done].
  cbn [mbind result_bind].
  destruct (py_iter structure) as [items|] eqn:Hiter; [|done].
  cbn [mbind result_bind].
  destruct (for_each _ _ _) as [[b ns]|] eqn:Htop; [|done].
  cbn [mbind result_bind]. intros [= <-]. by exists items.
Qed.

(** X1: when [_parse_structure] returns, [self.intro] is set if and
    only if the first key of some top-level item of the structure is
    ["Introduction"]; keys further down do not count. *)
Theorem intro_flag_top_level (u : str → str) (cwd docusaurus_dir : str)
    (structure : value) (p : parsed) :
  _parse_structure u cwd docusaurus_dir structure = Ok p →
  ∃ items,
    py_iter structure = Ok items
    ∧ intro p = existsb has_intro_key items.
Proof.
  intros (items & Hiter & _ & Htop)%parse_structure_unfold.
  exists items. split; [done|].
  apply top_items_unfold in Htop as (ns & [= -> _] & _). done.
Qed.

Lemma intro_flag_top_level_witness :
  _parse_structure (λ s, s) "/src" "/dst" lessons_structure
  = Ok (Parsed false lessons_plan (lessons_sidebar (λ s, s)))
  ∧ ∃ items,
      py_iter lessons_structure = Ok items
      ∧ intro (Parsed false lessons_plan (lessons_sidebar (λ s, s)))
        = existsb has_intro_key items.
Proof.
  split; [reflexivity|].
  apply (intro_flag_top_level (λ s, s) "/src" "/dst" lessons_structure).
  reflexivity.
Defined.

(** ** The navigation tree of [_parse_sidebar] *)

Lemma nav_ind' (P : nav → Prop) :
  (∀ t i, P (Nav t i None)) →
  (∀ t i l, Forall P l → P (Nav t i (Some l))) →
  ∀ n, P n.
Proof.
  intros Hleaf Hnode. fix IH 1. intros [t i [l|]]; [|apply Hleaf].
  apply Hnode. induction l as [|c l IHl]; constructor; [apply IH|apply IHl].
Qed.

Lemma each_child_unfold (f : str → value → result nav) items ns :
  each_child f items = Ok ns →
  Forall2 (λ item n, ∃ k v rest, item = VDict ((k, v) :: rest) ∧ f k v = Ok n)
    items ns.
Proof.
  revert ns. induction items as [|item items IH]; intros ns.
  - intros [= <-]. constructor.
  - cbn [each_child].
    destruct item as [| |[|[k v] rest]|]; try done.
    destruct (f k v) as [n|] eqn:Hn; [|done]. cbn [mbind result_bind].
    fold (each_child f items).
    destruct (each_child f items) as [ns'|]; [|done].
    cbn [mbind result_bind]. intros [= <-].
    constructor; [by eauto|by apply IH].
Qed.

(** What [_parse_sidebar] returns for a list of entries and for a
    section is the same node. *)
Lemma parse_sidebar_section u k d path n :
  _parse_sidebar u k (VDict d) path = Ok n →
  ∃ items,
    _parse_sidebar u k (VList items) path = Ok n
    ∧ (items = [] ∨ dict_get d "subsections" = Some (VList items)).
Proof.
  cbn [_parse_sidebar]. rewrite with_get_eq.
  destruct (dict_get d "subsections") as [[[|c s]|items|[|kv r]|]|] eqn:Hsub;
    try done.
  - intros <-. exists []. by split; [|left].
  - intros H. exists items. by split; [|right].
  - intros <-. exists []. by split; [|left].
Qed.

Lemma parse_sidebar_list u k items path n :
  _parse_sidebar u k (VList items) path = Ok n →
  ∃ ns,
    n = Nav (u (strip k "/")) (path ++ k) (Some ns)
    ∧ Forall2 (λ item c, ∃ k' v' rest,
                 item = VDict ((k', v') :: rest)
                 ∧ _parse_sidebar u k' v' (path ++ k ++ ("/" : str)) = Ok c)
        items ns.
Proof.
  cbn [_parse_sidebar].
  destruct (each_child _ items) as [ns|] eqn:Hns; [|done].
  cbn [mbind result_bind]. intros [= <-]. exists ns. split; [done|].
  by apply each_child_unfold in Hns.
Qed.

Lemma parse_sidebar_title u k v path n :
  _parse_sidebar u k v path = Ok n → title n = u (strip k "/").
Proof.
  destruct v as [s|items|d|].
  - by intros [= <-].
  - by intros (ns & -> & _)%parse_sidebar_list.
  - by intros (items & (ns & -> & _)%parse_sidebar_list & _)%parse_sidebar_section.
  - by intros [= <-].
Qed.

Lemma stem_no_sep p : os_path.sep ∉ path_utils.stem p.
Proof.
  unfold path_utils.stem, os_path.splitext.
  pose proof (basename_no_sep p) as Hb.
  set (b := os_path.basename p) in *. clearbody b.
  assert (os_path.split_at_last_sep b = ([], b)) as ->.
  { induction b as [|c b IH]; [done|]. cbn [os_path.split_at_last_sep].
    rewrite IH by (intros ?; apply Hb; by right).
    rewrite bool_decide_eq_false_2; [done|]. intros ->. apply Hb. by left. }
  assert (∀ d e, os_path.split_at_last_dot b = Some (d, e) → b = d ++ e) as Hdot.
  { clear Hb. induction b as [|c b IH]; [done|]. intros d e.
    cbn [os_path.split_at_last_dot].
    destruct (os_path.split_at_last_dot b) as [[d' e']|].
    - intros [= <- <-]. cbn. f_equal. by apply IH.
    - case_bool_decide; [|done]. by intros [= <- <-]. }
  destruct (os_path.split_at_last_dot b) as [[d e]|]; [|done].
  destruct (forallb _ d); [done|]. cbn.
  specialize (Hdot d e eq_refl). subst b.
  intros ?. apply Hb. apply elem_of_app. by left.
Qed.

(** The id of a string entry: the path, the directory part of the key
    with a slash when there is one, and a file name. *)
Lemma leaf_id_shape (k s path : str) :
  ∃ name : str,
    leaf_id k s path
    = path ++ match os_path.dirname k with
              | [] => []
              | dir => dir ++ ("/" : str)
              end ++ name
    ∧ name ≠ []
    ∧ (os_path.sep ∉ name)
    ∧ (path_utils.stem s ≠ [] → name = path_utils.stem s).
Proof.
  unfold leaf_id.
  set (path' := match os_path.dirname k with [] => path | _ => _ end).
  set (dir := match os_path.dirname k with [] => [] | _ => _ end).
  assert (path' = path ++ dir) as ->.
  { unfold path', dir. destruct (os_path.dirname k) as [|c t]; [|done].
    by rewrite app_nil_r. }
  clearbody dir.
  destruct (path_utils.stem s) as [|c t] eqn:Hs.
  - destruct (path_utils.stem k) as [|c t] eqn:Hk.
    + exists ("README" : str). rewrite <-app_assoc.
      split_and!; [done|done| |done].
      intros H. by repeat (apply elem_of_cons in H as [?|H]; [done|]);
        apply elem_of_nil in H.
    + exists (c :: t). rewrite <-app_assoc.
      split_and!; [done|done| |done].
      rewrite <-Hk. apply stem_no_sep.
  - exists (c :: t). rewrite <-app_assoc.
    split_and!; [done|done| |done].
    rewrite <-Hs. apply stem_no_sep.
Qed.

(** X2: the id of a document names a file. The id that [_parse_sidebar]
    gives to a string entry is the path, then a directory and a name.
    The directory is the directory part of the key with a slash when
    the key has one, and nothing when it has none. The name is the
    stem of the string when it has one, else the stem of the key when
    it has one, else [README]; it is never empty and has no slash in
    it, so an id is never a directory alone. *)
Theorem leaf_id_names_a_file (k s path : str) :
  ∃ dir name : str,
    leaf_id k s path = path ++ dir ++ name
    ∧ (os_path.dirname k = [] → dir = [])
    ∧ (os_path.dirname k ≠ [] → dir = os_path.dirname k ++ ("/" : str))
    ∧ (path_utils.stem s ≠ [] → name = path_utils.stem s)
    ∧ (path_utils.stem s = [] → path_utils.stem k ≠ [] →
       name = path_utils.stem k)
    ∧ (path_utils.stem s = [] → path_utils.stem k = [] →
       name = ("README" : str))
    ∧ name ≠ []
    ∧ os_path.sep ∉ name.
Proof.
  exists (match os_path.dirname k with
          | [] => []
          | dir => dir ++ ("/" : str)
          end),
         (match path_utils.stem s with
          | [] => match path_utils.stem k with
                  | [] => ("README" : str)
                  | stem => stem
                  end
          | stem => stem
          end).
  split_and!.
  - unfold leaf_id.
    destruct (os_path.dirname k) as [|c t];
      destruct (path_utils.stem s) as [|c1 t1];
      try destruct (path_utils.stem k) as [|c2 t2];
      by rewrite <-?(app_assoc path).
  - by intros ->.
  - by destruct (os_path.dirname k).
  - by destruct (path_utils.stem s).
  - intros ->. by destruct (path_utils.stem k).
  - by intros -> ->.
  - destruct (path_utils.stem s); [|done].
    by destruct (path_utils.stem k).
  - destruct (path_utils.stem s) as [|c t] eqn:Hs.
    + destruct (path_utils.stem k) as [|c t] eqn:Hk.
      * intros H. by repeat (apply elem_of_cons in H as [?|H]; [done|]);
          apply elem_of_nil in H.
      * rewrite <-Hk. apply stem_no_sep.
    + rewrite <-Hs. apply stem_no_sep.
Qed.

Lemma parse_sidebar_ids u v :
  ∀ k path n,
    _parse_sidebar u k v path = Ok n →
    path `prefix_of` id n
    ∧ (has_children n = true → id n = path ++ k)
    ∧ ∀ d, d ∈ nodes_below n → (path ++ k ++ ("/" : str)) `prefix_of` id d.
Proof.
  induction v as [s| |items IH|d IH] using node_ind; intros k path n.
  - intros [= <-]. cbn [id children has_children nodes_below].
    destruct (leaf_id_shape k s path) as (name & -> & _).
    split_and!; [by eexists|done|]. by intros d' ?%elem_of_nil.
  - intros [= <-]. cbn [id children has_children nodes_below].
    split_and!; [by eexists|done|]. by intros d' ?%elem_of_nil.
  - intros (ns & -> & Hns)%parse_sidebar_list.
    cbn [id children has_children nodes_below].
    split_and!; [by eexists|done|].
    intros d' (c & Hc & Hd')%list_elem_of_In%in_flat_map.
    apply (proj2 (list_elem_of_In _ _)) in Hc.
    apply list_elem_of_lookup in Hc as (i & Hi).
    destruct (Forall2_lookup_r _ _ _ _ _ Hns Hi)
      as (item & Hitem & k' & v' & rest & -> & Hc).
    eapply Forall_lookup_1 in IH; [|done].
    destruct (IH k' v' rest eq_refl _ _ _ Hc) as (Hpre & _ & Hbelow).
    apply (proj2 (list_elem_of_In _ _)), elem_of_cons in Hd' as [->|Hd'];
      [done|].
    etrans; [|by apply Hbelow].
    exists (k' ++ ("/" : str)). by rewrite <-!app_assoc.
  - intros (items & Hn & [->|Hsub])%parse_sidebar_section.
    + apply parse_sidebar_list in Hn as (ns & -> & ->%Forall2_nil_inv_l).
      cbn [id children has_children nodes_below flat_map].
      split_and!; [by eexists|done|]. by intros d' ?%elem_of_nil.
    + by apply (IH _ Hsub).
Qed.

(** X3: the ids of the navigation tree nest as the sections do. The id
    of the node made for the entry [k] under the path [path] starts with
    [path]; a node with a list of children has the id [path ++ k]; and
    the id of every node below it starts with [path ++ k ++ "/"]. *)
Theorem ids_lie_below_their_section (unquote : str → str) (k : str)
    (v : value) (path : str) (n : nav) :
  _parse_sidebar unquote k v path = Ok n →
  path `prefix_of` id n
  ∧ (has_children n = true → id n = path ++ k)
  ∧ ∀ d, d ∈ nodes_below n → (path ++ k ++ ("/" : str)) `prefix_of` id d.
Proof. apply parse_sidebar_ids. Qed.

Lemma ids_lie_below_their_section_witness :
  let n := Nav "Lessons" "Lessons"
             (Some [Nav "Lesson 1" "Lessons/l1" None]) in
  _parse_sidebar (λ s, s) "Lessons"
    (VList [VDict [("Lesson 1" : str, VStr "lessons/l1.md")]]) [] = Ok n
  ∧ [] `prefix_of` id n
  ∧ (has_children n = true → id n = [] ++ ("Lessons" : str))
  ∧ ∀ d, d ∈ nodes_below n
         → ([] ++ ("Lessons" : str) ++ ("/" : str)) `prefix_of` id d.
Proof.
  intros n. split; [reflexivity|].
  apply (ids_lie_below_their_section (λ s, s) "Lessons"
           (VList [VDict [("Lesson 1" : str, VStr "lessons/l1.md")]]) []).
  reflexivity.
Defined.

Lemma elem_of_flat_map {A B : Type} (f : A → list B) (l : list A) (y : B) :
  y ∈ flat_map f l ↔ ∃ x, x ∈ l ∧ y ∈ f x.
Proof.
  rewrite list_elem_of_In, in_flat_map.
  by setoid_rewrite list_elem_of_In.
Qed.

(** X4: the documents of the link resolver. [_walk_struct] collects the
    ids of the node and of the nodes below it that have no children: no
    list of them, or an empty one. *)
Theorem walk_struct_collects_childless (n : nav) (x : str) :
  x ∈ _walk_struct n
  ↔ ∃ d, d ∈ n :: nodes_below n ∧ childless d = true ∧ id d = x.
Proof.
  revert x. induction n as [t i|t i l IH] using nav_ind'; intros x.
  - cbn. rewrite list_elem_of_singleton. split.
    + intros ->. eexists. split; [by left|done].
    + by intros (d & ->%list_elem_of_singleton & _ & <-).
  - destruct l as [|c l].
    + cbn. rewrite list_elem_of_singleton. split.
      * intros ->. eexists. split; [by left|done].
      * by intros (d & ->%list_elem_of_singleton & _ & <-).
    + change (_walk_struct (Nav t i (Some (c :: l))))
        with (flat_map _walk_struct (c :: l)).
      change (nodes_below (Nav t i (Some (c :: l))))
        with (flat_map (λ c, c :: nodes_below c) (c :: l)).
      rewrite elem_of_flat_map. split.
      * intros (c' & Hc' & Hx).
        rewrite Forall_forall in IH.
        apply IH in Hx as (d & Hd & Hchild & <-); [|done].
        exists d. split; [|done]. right.
        apply elem_of_flat_map. by exists c'.
      * intros (d & [->|Hd]%elem_of_cons & Hchild & <-); [done|].
        apply elem_of_flat_map in Hd as (c' & Hc' & Hd).
        exists c'. split; [done|].
        rewrite Forall_forall in IH. apply IH; [done|]. by exists d.
Qed.

Lemma parse_sidebar_has_children u k v path n :
  _parse_sidebar u k v path = Ok n →
  has_children n = match v with
                   | VList _ | VDict _ => true
                   | _ => false
                   end.
Proof.
  destruct v as [s|items|d|].
  - by intros [= <-].
  - by intros (ns & -> & _)%parse_sidebar_list.
  - by intros (items & (ns & -> & _)%parse_sidebar_list & _)%parse_sidebar_section.
  - by intros [= <-].
Qed.

(** X5: the sidebar has one node for each item of the structure, in the
    order of the items. The node is made from the first key of the item
    and its value, with the empty path; its title is the key without
    the slashes around it, unquoted. Further keys of an item give no
    node. *)
Theorem sidebar_follows_the_items (unquote : str → str)
    (cwd docusaurus_dir : str) (structure : value) (p : parsed) :
  _parse_structure unquote cwd docusaurus_dir structure = Ok p →
  ∃ items,
    py_iter structure = Ok items
    ∧ Forall2 (λ item n, ∃ k v rest,
                 item = VDict ((k, v) :: rest)
                 ∧ _parse_sidebar unquote k v [] = Ok n
                 ∧ title n = unquote (strip k "/"))
        items (sidebar p).
Proof.
  intros (items & Hiter & _ & Htop)%parse_structure_unfold.
  exists items. split; [done|].
  apply top_items_unfold in Htop as (ns & [= _ ->] & Hns).
  eapply Forall2_impl; [done|]. cbn.
  intros item n (k & v & rest & -> & Hn). exists k, v, rest.
  split_and!; [done|done|]. by apply parse_sidebar_title in Hn.
Qed.

Lemma sidebar_follows_the_items_witness :
  _parse_structure (λ s, s) "/src" "/dst" lessons_structure
  = Ok (Parsed false lessons_plan (lessons_sidebar (λ s, s)))
  ∧ ∃ items,
      py_iter lessons_structure = Ok items
      ∧ Forall2 (λ item n, ∃ k v rest,
                   item = VDict ((k, v) :: rest)
                   ∧ _parse_sidebar (λ s, s) k v [] = Ok n
                   ∧ title n = strip k "/")
          items (sidebar (Parsed false lessons_plan (lessons_sidebar (λ s, s)))).
Proof.
  split; [reflexivity|].
  apply (sidebar_follows_the_items (λ s, s) "/src" "/dst" lessons_structure).
  reflexivity.
Defined.

Lemma categories_loop u items ns acc :
  Forall2 (λ item n, ∃ k v rest,
             item = VDict ((k, v) :: rest)
             ∧ _parse_sidebar u k v [] = Ok n) items ns →
  for_each
    (λ x acc,
       kv ← first_item x;
       Ok (match kv.2 with
           | VList _ | VDict _ => acc ++ [kv.1 : str]
           | _ => acc
           end))
    items acc
  = Ok (acc ++ (id <$> filter (λ n, has_children n = true) ns)).
Proof.
  intros H. revert acc.
  induction H as [|item n items ns (k & v & rest & -> & Hn) _ IH]; intros acc.
  - by rewrite for_each_nil, app_nil_r.
  - rewrite for_each_cons. cbn [first_item mbind result_bind fst snd].
    rewrite IH, filter_cons.
    pose proof (parse_sidebar_has_children _ _ _ _ _ Hn) as Hc.
    destruct (parse_sidebar_ids u v k [] n Hn) as (_ & Hid & _).
    destruct (decide (has_children n = true)) as [Hy|Hy].
    + rewrite fmap_cons, Hid by done. rewrite Hy in Hc.
      destruct v; try done; by rewrite <-app_assoc.
    + destruct (has_children n); [done|]. by destruct v.
Qed.

(** X6: the categories that [_parse_config_options] hands to the
    configuration template are the sections of the sidebar. When
    [_parse_structure] returns, the list is made of the ids of the
    top-level nodes that have a list of children, in their order. *)
Theorem categories_are_the_sections (unquote : str → str)
    (cwd docusaurus_dir : str) (structure : value) (p : parsed) :
  _parse_structure unquote cwd docusaurus_dir structure = Ok p →
  categories structure
  = Ok (id <$> filter (λ n, has_children n = true) (sidebar p)).
Proof.
  intros (items & Hiter & _ & Htop)%parse_structure_unfold.
  unfold categories. rewrite Hiter. cbn [mbind result_bind].
  apply top_items_unfold in Htop as (ns & [= _ ->] & Hns).
  by rewrite (categories_loop unquote items ns).
Qed.

Lemma categories_are_the_sections_witness :
  _parse_structure (λ s, s) "/src" "/dst" lessons_structure
  = Ok (Parsed false lessons_plan (lessons_sidebar (λ s, s)))
  ∧ categories lessons_structure
    = Ok (id <$> filter (λ n, has_children n = true)
                   (sidebar (Parsed false lessons_plan
                               (lessons_sidebar (λ s, s))))).
Proof.
  split; [reflexivity|].
  apply (categories_are_the_sections (λ s, s) "/src" "/dst" lessons_structure).
  reflexivity.
Defined.

(** ** The run of [_resolve_links] *)

Lemma same_kinds_refl fs : same_kinds fs fs.
Proof. by intros p. Qed.

Lemma same_kinds_trans fs1 fs2 fs3 :
  same_kinds fs1 fs2 → same_kinds fs2 fs3 → same_kinds fs1 fs3.
Proof.
  intros H12 H23 p. destruct (H12 p) as (<- & <- & <- & <-). apply H23.
Qed.

Lemma same_kinds_write fs p old new :
  fs p = Some (File old) → utf8_valid old = true → utf8_valid new = true →
  same_kinds fs (write fs p new).
Proof.
  intros Hp Hold Hnew q. unfold isfile, isdir, path_exists, decodes, write.
  case_bool_decide as Hq; [|done]. by rewrite Hq, Hp, Hold, Hnew.
Qed.

Lemma dst_file_same_kinds fs fs' docusaurus_dir file :
  same_kinds fs fs' →
  dst_file fs' docusaurus_dir file = dst_file fs docusaurus_dir file.
Proof.
  intros H. unfold dst_file.
  by destruct (H (os_path.join docusaurus_dir
                    ["docs" : str; file ++ (".md" : str)])) as (_ & _ & -> & _).
Qed.

Lemma document_found_same_kinds fs fs' docusaurus_dir m file :
  same_kinds fs fs' →
  document_found fs' docusaurus_dir m file
  = document_found fs docusaurus_dir m file.
Proof.
  intros H. unfold document_found.
  rewrite (dst_file_same_kinds fs fs') by done.
  by destruct (H (dst_file fs docusaurus_dir file)) as (_ & -> & _ & ->).
Qed.

(** A round of the loop over the links of a document raises nothing:
    a key that is found is a key of [src_to_dst], and the path that
    [relpath] gets is not empty. *)
Lemma link_step_ok fs cwd (m : mapping) src_dir dst_dir l st :
  ∃ st',
    link_step fs cwd m (sorted_reverse segments (keys m)) src_dir dst_dir l st
    = Ok st'.
Proof.
  unfold link_step. cbn zeta.
  destruct (first_prefix (sorted_reverse segments (keys m))
              (path_utils.real_join cwd [src_dir; l])) as [k|] eqn:Hk;
    [|by eexists].
  apply first_prefix_elem in Hk as [Hk _].
  rewrite sorted_reverse_perm in Hk.
  destruct (new_link_ok fs cwd m dst_dir
              (path_utils.real_join cwd [src_dir; l]) k Hk) as (dst_link & ->).
  by eexists.
Qed.

Lemma links_loop_ok fs cwd (m : mapping) src_dir dst_dir ls st :
  ∃ st',
    for_each (link_step fs cwd m (sorted_reverse segments (keys m))
                src_dir dst_dir) ls st = Ok st'.
Proof.
  revert st. induction ls as [|l ls IH]; intros st; [by eexists|].
  rewrite for_each_cons.
  destruct (link_step_ok fs cwd m src_dir dst_dir l st) as (st' & ->).
  apply IH.
Qed.

Lemma getitem_keys (m : mapping) k :
  (∃ v, getitem m k = Ok v) ↔ k ∈ keys m.
Proof.
  unfold getitem. split.
  - destruct (mapping_get m k) as [v|] eqn:Hv; [|by intros [? ?]].
    intros _. clear -Hv. induction m as [|[k' v'] m IH]; [done|].
    cbn in Hv |- *. case_bool_decide as Hk; [by subst; left|].
    right. by apply IH.
  - intros (v & ->)%mapping_get_keys. by eexists.
Qed.

(** One round of the loop over the documents, step by step. *)
Lemma file_step_unfold cwd docusaurus_dir (s2d d2s : mapping) file fs l :
  file_step cwd docusaurus_dir s2d d2s file (fs, l)
  = let _file := dst_file fs docusaurus_dir file in
    src_dir ← source_dir d2s _file;
    if path_exists fs _file then
      content ← read fs _file;
      r ← for_each
            (link_step fs cwd s2d (sorted_reverse segments (keys s2d))
               src_dir (os_path.dirname _file))
            (links content) (content, l);
      if utf8_valid r.1 then Ok (write fs _file r.1, r.2)
      else Raise UnicodeEncodeError
    else Ok (fs, l).
Proof. reflexivity. Qed.

Lemma source_dir_ok (d2s : mapping) _file :
  match mapping_get d2s _file with
  | Some (_ :: _) => true
  | _ => bool_decide (os_path.dirname _file ∈ keys d2s)
  end = true →
  ∃ src_dir, source_dir d2s _file = Ok src_dir.
Proof.
  unfold source_dir. intros Hsrc.
  destruct (mapping_get d2s _file) as [[|c t]|]; [|by eexists|];
    apply bool_decide_eq_true in Hsrc; by apply getitem_keys.
Qed.

Lemma source_dir_raises (d2s : mapping) _file :
  match mapping_get d2s _file with
  | Some (_ :: _) => true
  | _ => bool_decide (os_path.dirname _file ∈ keys d2s)
  end = false →
  source_dir d2s _file = Raise (KeyError (os_path.dirname _file))
  ∧ os_path.dirname _file ∉ keys d2s.
Proof.
  unfold source_dir. intros Hsrc.
  assert (os_path.dirname _file ∉ keys d2s) as Hnot.
  { destruct (mapping_get d2s _file) as [[|c t]|]; [|done|];
      by apply bool_decide_eq_false in Hsrc. }
  split; [|done].
  assert (mapping_get d2s (os_path.dirname _file) = None) as Hnone.
  { destruct (mapping_get d2s (os_path.dirname _file)) as [v|] eqn:Hv;
      [|done].
    exfalso. apply Hnot, getitem_keys. unfold getitem. rewrite Hv.
    by eexists. }
  destruct (mapping_get d2s _file) as [[|c t]|]; [|done|];
    unfold getitem; by rewrite Hnone.
Qed.

Lemma read_ok fs p text :
  read fs p = Ok text
  ↔ ∃ content,
      fs p = Some (File content)
      ∧ utf8_valid content = true
      ∧ text = universal_newlines content.
Proof.
  unfold read. split.
  - destruct (fs p) as [[content|]|]; [|done..].
    destruct (utf8_valid content) eqn:Hvalid; [|done].
    intros [= <-]. by exists content.
  - intros (content & -> & -> & ->). done.
Qed.

(** A round for a document that is found returns, unless the text it
    has made cannot be written. *)
Lemma file_step_found cwd docusaurus_dir (s2d d2s : mapping) file fs l :
  document_found fs docusaurus_dir d2s file = true →
  (∃ fs' l',
     file_step cwd docusaurus_dir s2d d2s file (fs, l) = Ok (fs', l')
     ∧ same_kinds fs fs'
     ∧ ∀ p, fs' p = fs p
            ∨ (p = dst_file fs docusaurus_dir file ∧ isfile fs p = true))
  ∨ file_step cwd docusaurus_dir s2d d2s file (fs, l)
    = Raise UnicodeEncodeError.
Proof.
  rewrite file_step_unfold. unfold document_found. cbn zeta.
  set (_file := dst_file fs docusaurus_dir file).
  intros [[Hsrc Hdir%negb_true_iff]%andb_true_iff Hdec]%andb_true_iff.
  destruct (source_dir_ok d2s _file Hsrc) as (src_dir & ->).
  cbn [mbind result_bind].
  unfold path_exists, read, isdir, decodes in *.
  destruct (fs _file) as [[content|]|] eqn:Hfile; [|done|].
  - rewrite Hdec. cbn [mbind result_bind].
    destruct (links_loop_ok fs cwd s2d src_dir (os_path.dirname _file)
                (links (universal_newlines content))
                (universal_newlines content, l)) as ([text l'] & ->).
    cbn [mbind result_bind fst snd].
    destruct (utf8_valid text) eqn:Htext; [left|by right].
    exists (write fs _file text), l'. split; [reflexivity|]. split.
    + by eapply same_kinds_write.
    + intros p. destruct (decide (p = _file)) as [->|Hne].
      * right. split; [done|]. unfold isfile. by rewrite Hfile.
      * left. unfold write. by rewrite bool_decide_eq_false_2.
  - left. exists fs, l. split; [reflexivity|].
    split; [apply same_kinds_refl|by left].
Qed.

(** The exception of a round for a document that is not found. *)
Lemma file_step_not_found cwd docusaurus_dir (s2d d2s : mapping) file fs l :
  document_found fs docusaurus_dir d2s file = false →
  let _file := dst_file fs docusaurus_dir file in
  (file_step cwd docusaurus_dir s2d d2s file (fs, l)
   = Raise (KeyError (os_path.dirname _file))
   ∧ os_path.dirname _file ∉ keys d2s)
  ∨ (file_step cwd docusaurus_dir s2d d2s file (fs, l) = Raise IsADirectoryError
     ∧ isdir fs _file = true)
  ∨ (file_step cwd docusaurus_dir s2d d2s file (fs, l) = Raise UnicodeDecodeError
     ∧ ∃ content, fs _file = Some (File content)
                  ∧ utf8_valid content = false).
Proof.
  rewrite file_step_unfold. unfold document_found. cbn zeta.
  set (_file := dst_file fs docusaurus_dir file).
  destruct (match mapping_get d2s _file with
            | Some (_ :: _) => true
            | _ => bool_decide (os_path.dirname _file ∈ keys d2s)
            end) eqn:Hsrc; cbn [andb].
  - destruct (source_dir_ok d2s _file Hsrc) as (src_dir & ->).
    cbn [mbind result_bind].
    unfold path_exists, read, isdir, decodes.
    destruct (fs _file) as [[content|]|] eqn:Hfile; cbn [negb andb].
    + intros Hvalid. rewrite Hvalid. right. right. split; [done|].
      by exists content.
    + intros _. right. by left.
    + done.
  - intros _. left.
    destruct (source_dir_raises d2s _file Hsrc) as [-> Hnot]. done.
Qed.

Lemma file_step_same_kinds cwd docusaurus_dir (s2d d2s : mapping) file fs l
    fs' l' :
  file_step cwd docusaurus_dir s2d d2s file (fs, l) = Ok (fs', l') →
  same_kinds fs fs'.
Proof.
  intros H. destruct (document_found fs docusaurus_dir d2s file) eqn:Hf.
  - destruct (file_step_found cwd docusaurus_dir s2d d2s file fs l Hf)
      as [(fs1 & l1 & H1 & Hkinds & _)|H1]; rewrite H1 in H; [|done].
    by injection H as <- <-.
  - destruct (file_step_not_found cwd docusaurus_dir s2d d2s file fs l Hf)
      as [[H1 _]|[[H1 _]|[H1 _]]]; by rewrite H1 in H.
Qed.

(** The loop over the documents: either every round finds its
    document and the loop ends, or the first round that does not
    raises, or a round cannot write its text. *)
Lemma documents_loop cwd docusaurus_dir (s2d d2s : mapping) files :
  ∀ fs l,
    match for_each (file_step cwd docusaurus_dir s2d d2s) files (fs, l) with
    | Ok (fs', l') =>
        Forall (λ f, document_found fs docusaurus_dir d2s f = true) files
        ∧ same_kinds fs fs'
        ∧ ∀ p, fs' p = fs p
               ∨ (isfile fs p = true
                  ∧ ∃ f, f ∈ files ∧ p = dst_file fs docusaurus_dir f)
    | Raise e =>
        ∃ before f after,
          files = before ++ f :: after
          ∧ Forall (λ f, document_found fs docusaurus_dir d2s f = true) before
          ∧ let _file := dst_file fs docusaurus_dir f in
            (document_found fs docusaurus_dir d2s f = true
             ∧ e = UnicodeEncodeError)
            ∨ (document_found fs docusaurus_dir d2s f = false
               ∧ ((e = KeyError (os_path.dirname _file)
                   ∧ os_path.dirname _file ∉ keys d2s)
                  ∨ (e = IsADirectoryError ∧ isdir fs _file = true)
                  ∨ (e = UnicodeDecodeError
                     ∧ ∃ content, fs _file = Some (File content)
                                  ∧ utf8_valid content = false)))
    end.
Proof.
  induction files as [|f files IH]; intros fs l.
  - rewrite for_each_nil. split_and!; [done|apply same_kinds_refl|by left].
  - rewrite for_each_cons.
    destruct (document_found fs docusaurus_dir d2s f) eqn:Hf.
    + destruct (file_step_found cwd docusaurus_dir s2d d2s f fs l Hf)
        as [(fs1 & l1 & -> & Hkinds & Hframe)| ->].
      2:{ cbn [mbind result_bind]. exists [], f, files.
          split_and!; [done|done|]. cbn zeta. by left. }
      cbn [mbind result_bind]. specialize (IH fs1 l1).
      destruct (for_each _ files (fs1, l1)) as [[fs' l']|e].
      * destruct IH as (Hall & Hkinds' & Hframe'). split_and!.
        -- constructor; [done|]. eapply Forall_impl; [done|]. cbn.
           intros f'. by rewrite (document_found_same_kinds fs fs1).
        -- by eapply same_kinds_trans.
        -- intros p. destruct (Hframe' p) as [->|(Hfile & f' & Hf' & ->)].
           ++ destruct (Hframe p) as [->|[-> Hfile]]; [by left|].
              right. split; [done|]. exists f. split; [by left|done].
           ++ right. destruct (Hkinds (dst_file fs1 docusaurus_dir f'))
                as (<- & _). split; [done|].
              exists f'. split; [by right|].
              by apply dst_file_same_kinds.
      * destruct IH as (before & f' & after & -> & Hall & He).
        exists (f :: before), f', after. split_and!; [done| |].
        -- constructor; [done|]. eapply Forall_impl; [done|]. cbn.
           intros f''. by rewrite (document_found_same_kinds fs fs1).
        -- cbn zeta in *.
           rewrite (document_found_same_kinds fs fs1) in He by done.
           rewrite (dst_file_same_kinds fs fs1) in He by done.
           destruct He as [He|(Hnot & [He|[[He Hdir]|(He & c & Hc & Hv)]])];
             [by left|right; split; [done|]..].
           ++ by left.
           ++ right. left. split; [done|].
              by destruct (Hkinds (dst_file fs docusaurus_dir f'))
                as (_ & <- & _).
           ++ right. right. split; [done|].
              destruct (Hframe (dst_file fs docusaurus_dir f'))
                as [Heq|[Heq Hfile]].
              ** exists c. by rewrite <-Heq.
              ** exfalso.
                 destruct (Hkinds (dst_file fs docusaurus_dir f'))
                   as (_ & _ & _ & Hdec).
                 unfold document_found in Hf, Hnot. rewrite <-Heq in Hf.
                 apply andb_true_iff in Hf as [Hf Hdecf].
                 apply andb_true_iff in Hf as [Hsrcf Hdirf].
                 rewrite Hsrcf, Hdirf, <-Hdec in Hnot. cbn [andb] in Hnot.
                 unfold decodes in Hnot at 1. rewrite Hc, Hv in Hnot.
                 unfold decodes in Hdec. rewrite Hc, Hv in Hdec.
                 unfold decodes in Hdecf. congruence.
    + destruct (file_step_not_found cwd docusaurus_dir s2d d2s f fs l Hf)
        as [[-> Hnot]|[[-> Hdir]|[-> Hc]]]; cbn [mbind result_bind];
        exists [], f, files; (split_and!; [done|done|]); cbn zeta; right;
        (split; [done|]); [by left|right; by left|right; by right].
Qed.

Lemma resolve_links_unfold cwd docusaurus_dir to_copy sidebar fs :
  _resolve_links cwd docusaurus_dir to_copy sidebar fs
  = for_each
      (file_step cwd docusaurus_dir (create_mappings fs to_copy).1
         (create_mappings fs to_copy).2)
      (flat_map _walk_struct sidebar) (fs, []).
Proof. unfold _resolve_links. by destruct (create_mappings fs to_copy). Qed.

Lemma resolve_links_loop cwd docusaurus_dir to_copy sidebar fs :
  let dst_to_src := (create_mappings fs to_copy).2 in
  let files := flat_map _walk_struct sidebar in
  match _resolve_links cwd docusaurus_dir to_copy sidebar fs with
  | Ok (fs', l') =>
      Forall (λ f, document_found fs docusaurus_dir dst_to_src f = true) files
      ∧ same_kinds fs fs'
      ∧ ∀ p, fs' p = fs p
             ∨ (isfile fs p = true
                ∧ ∃ f, f ∈ files ∧ p = dst_file fs docusaurus_dir f)
  | Raise e =>
      ∃ before f after,
        files = before ++ f :: after
        ∧ Forall (λ f, document_found fs docusaurus_dir dst_to_src f = true)
            before
        ∧ let _file := dst_file fs docusaurus_dir f in
          (document_found fs docusaurus_dir dst_to_src f = true
           ∧ e = UnicodeEncodeError)
          ∨ (document_found fs docusaurus_dir dst_to_src f = false
             ∧ ((e = KeyError (os_path.dirname _file)
                 ∧ os_path.dirname _file ∉ keys dst_to_src)
                ∨ (e = IsADirectoryError ∧ isdir fs _file = true)
                ∨ (e = UnicodeDecodeError
                   ∧ ∃ content, fs _file = Some (File content)
                                ∧ utf8_valid content = false)))
  end.
Proof. rewrite resolve_links_unfold. apply documents_loop. Qed.

(** X7: [_resolve_links] creates nothing and deletes nothing. When it
    returns, every path names what it named before: a regular file, a
    directory or nothing. *)
Theorem resolve_links_keeps_the_tree (cwd docusaurus_dir : str)
    (to_copy : plan) (sidebar : list nav) (fs fs' : filesystem) (l : log) :
  _resolve_links cwd docusaurus_dir to_copy sidebar fs = Ok (fs', l) →
  ∀ p, isfile fs' p = isfile fs p
       ∧ isdir fs' p = isdir fs p
       ∧ path_exists fs' p = path_exists fs p.
Proof.
  intros H.
  pose proof (resolve_links_loop cwd docusaurus_dir to_copy sidebar fs)
    as Hloop.
  rewrite H in Hloop. destruct Hloop as (_ & Hkinds & _).
  intros p. by destruct (Hkinds p) as (? & ? & ? & _).
Qed.

Lemma resolve_links_keeps_the_tree_witness :
  let fs := lessons_fs notes_link_text in
  let fs' := write fs lesson_file "[notes](../Shared/notes.md)" in
  _resolve_links "/dst" "/dst" [lesson_entry; shared_entry] lesson_leaf fs
  = Ok (fs', [])
  ∧ ∀ p, isfile fs' p = isfile fs p
         ∧ isdir fs' p = isdir fs p
         ∧ path_exists fs' p = path_exists fs p.
Proof.
  intros fs fs'. split; [reflexivity|].
  apply (resolve_links_keeps_the_tree "/dst" "/dst"
           [lesson_entry; shared_entry] lesson_leaf fs fs' []).
  reflexivity.
Defined.

(** X8: [_resolve_links] rewrites documents of the sidebar only. A
    path whose content differs when it returns was a regular file, and
    it is the path tried for one of the ids that [_walk_struct]
    collects: the id with [.md] or, where no such path exists, with
    [.mdx], under [docs]. *)
Theorem resolve_links_touches_documents_only (cwd docusaurus_dir : str)
    (to_copy : plan) (sidebar : list nav) (fs fs' : filesystem) (l : log) :
  _resolve_links cwd docusaurus_dir to_copy sidebar fs = Ok (fs', l) →
  ∀ p, fs' p ≠ fs p →
       isfile fs p = true
       ∧ ∃ f, f ∈ flat_map _walk_struct sidebar
              ∧ p = dst_file fs docusaurus_dir f.
Proof.
  intros H p Hp.
  pose proof (resolve_links_loop cwd docusaurus_dir to_copy sidebar fs)
    as Hloop.
  rewrite H in Hloop. destruct Hloop as (_ & _ & Hframe).
  by destruct (Hframe p).
Qed.

Lemma resolve_links_touches_documents_only_witness :
  let fs := lessons_fs notes_link_text in
  let fs' := write fs lesson_file "[notes](../Shared/notes.md)" in
  _resolve_links "/dst" "/dst" [lesson_entry; shared_entry] lesson_leaf fs
  = Ok (fs', [])
  ∧ ∀ p, fs' p ≠ fs p →
         isfile fs p = true
         ∧ ∃ f, f ∈ flat_map _walk_struct lesson_leaf
                ∧ p = dst_file fs "/dst" f.
Proof.
  intros fs fs'. split; [reflexivity|].
  apply (resolve_links_touches_documents_only "/dst" "/dst"
           [lesson_entry; shared_entry] lesson_leaf fs fs' []).
  reflexivity.
Defined.

(** X9: what can make [_resolve_links] fail. When it returns, every
    document of the sidebar was found: the path tried for its id is a
    key of [dst_to_src] with a non-empty value or its directory is a
    key, the path is not a directory, and a regular file at the path
    holds a text in UTF-8. When every document is found, it returns,
    unless a text it has made cannot be written in the encoding
    ([UnicodeEncodeError]); no link raises another exception. *)
Theorem resolve_links_fails_on_documents_only (cwd docusaurus_dir : str)
    (to_copy : plan) (sidebar : list nav) (fs : filesystem) :
  let found f :=
    document_found fs docusaurus_dir (create_mappings fs to_copy).2 f = true in
  let run := _resolve_links cwd docusaurus_dir to_copy sidebar fs in
  ((∃ r, run = Ok r) → ∀ f, f ∈ flat_map _walk_struct sidebar → found f)
  ∧ ((∀ f, f ∈ flat_map _walk_struct sidebar → found f) →
     (∃ r, run = Ok r) ∨ run = Raise UnicodeEncodeError).
Proof.
  cbn zeta.
  pose proof (resolve_links_loop cwd docusaurus_dir to_copy sidebar fs)
    as Hloop.
  split.
  - intros ([fs' l] & H). rewrite H in Hloop.
    destruct Hloop as (Hall & _). by apply Forall_forall.
  - intros Hall.
    destruct (_resolve_links _ _ _ _ _) as [r|e]; [left; by eexists|].
    destruct Hloop as (before & f & after & Hfiles & _ & He).
    cbn zeta in He. destruct He as [[_ ->]|[Hf _]]; [by right|].
    rewrite Hall in Hf; [done|]. rewrite Hfiles.
    apply elem_of_app. right. by left.
Qed.

(** X10: the exceptions of [_resolve_links]. When it raises, the
    documents before some document [f] of the sidebar were all found,
    and either [f] was found and the exception is the
    [UnicodeEncodeError] of writing its text, or [f] was not found and
    the exception is the [KeyError] for the directory of the path tried
    for [f], which is no key of [dst_to_src], or the exception of
    reading a directory at that path, or the [UnicodeDecodeError] of
    reading a file there whose bytes are no text in UTF-8. *)
Theorem resolve_links_raises_at_first_missing (cwd docusaurus_dir : str)
    (to_copy : plan) (sidebar : list nav) (fs : filesystem) (e : exception) :
  _resolve_links cwd docusaurus_dir to_copy sidebar fs = Raise e →
  let dst_to_src := (create_mappings fs to_copy).2 in
  ∃ before f after,
    flat_map _walk_struct sidebar = before ++ f :: after
    ∧ (∀ f', f' ∈ before →
             document_found fs docusaurus_dir dst_to_src f' = true)
    ∧ let _file := dst_file fs docusaurus_dir f in
      (document_found fs docusaurus_dir dst_to_src f = true
       ∧ e = UnicodeEncodeError)
      ∨ (document_found fs docusaurus_dir dst_to_src f = false
         ∧ ((e = KeyError (os_path.dirname _file)
             ∧ os_path.dirname _file ∉ keys dst_to_src)
            ∨ (e = IsADirectoryError ∧ isdir fs _file = true)
            ∨ (e = UnicodeDecodeError
               ∧ ∃ content, fs _file = Some (File content)
                            ∧ utf8_valid content = false))).
Proof.
  intros H. cbn zeta.
  pose proof (resolve_links_loop cwd docusaurus_dir to_copy sidebar fs)
    as Hloop.
  rewrite H in Hloop.
  destruct Hloop as (before & f & after & Hfiles & Hall & He).
  exists before, f, after. split_and!; [done| |done].
  by apply Forall_forall.
Qed.

Lemma resolve_links_raises_at_first_missing_witness :
  let fs := undecodable_fs in
  let dst_to_src := (create_mappings fs [lesson_entry]).2 in
  let e := UnicodeDecodeError in
  _resolve_links "/dst" "/dst" [lesson_entry] lesson_leaf fs = Raise e
  ∧ ∃ before f after,
      flat_map _walk_struct lesson_leaf = before ++ f :: after
      ∧ (∀ f', f' ∈ before → document_found fs "/dst" dst_to_src f' = true)
      ∧ let _file := dst_file fs "/dst" f in
        (document_found fs "/dst" dst_to_src f = true
         ∧ e = UnicodeEncodeError)
        ∨ (document_found fs "/dst" dst_to_src f = false
           ∧ ((e = KeyError (os_path.dirname _file)
               ∧ os_path.dirname _file ∉ keys dst_to_src)
              ∨ (e = IsADirectoryError ∧ isdir fs _file = true)
              ∨ (e = UnicodeDecodeError
                 ∧ ∃ content, fs _file = Some (File content)
                              ∧ utf8_valid content = false))).
Proof.
  intros fs dst_to_src e. split; [reflexivity|].
  apply (resolve_links_raises_at_first_missing "/dst" "/dst"
           [lesson_entry] lesson_leaf fs e).
  reflexivity.
Defined.

(** ** The links of a document *)

Lemma replace_absent (s old new : str) :
  contains s old = false → replace s old new = s.
Proof.
  destruct old as [|o old]; [by destruct s|].
  unfold replace. induction s as [|c s IH]; [done|].
  intros H. cbn [replace_from].
  rewrite (contains_startswith _ _ H), IH; [done|].
  by eapply contains_tail.
Qed.

(** A relative path without a space is written as it is; one with a
    space is written in angle brackets, and nothing else happens to it
    when it has no [.md] in it. *)
Lemma wrap_spaces_written (dst_link : str) :
  (contains dst_link " " = false → wrap_spaces dst_link = dst_link)
  ∧ (contains dst_link " " = true →
     contains (("<" : str) ++ dst_link ++ (">" : str)) ".md" = false →
     wrap_spaces dst_link = ("<" : str) ++ dst_link ++ (">" : str)).
Proof.
  unfold wrap_spaces. split; intros ->; [done|].
  apply replace_absent.
Qed.

Lemma new_link_same_kinds fs fs' cwd (m : mapping) dst_dir src_ref k :
  same_kinds fs fs' →
  new_link fs' cwd m dst_dir src_ref k = new_link fs cwd m dst_dir src_ref k.
Proof.
  intros H. unfold new_link. destruct (H k) as (-> & _).
  destruct (getitem m k) as [d|]; [|done]. cbn [mbind result_bind].
  by destruct (H d) as (-> & _).
Qed.

Lemma links_loop_same_kinds fs fs' cwd (m : mapping) ps src_dir dst_dir ls :
  same_kinds fs fs' →
  ∀ st,
    for_each (link_step fs' cwd m ps src_dir dst_dir) ls st
    = for_each (link_step fs cwd m ps src_dir dst_dir) ls st.
Proof.
  intros H. induction ls as [|l ls IH]; intros st; [done|].
  rewrite !for_each_cons.
  assert (link_step fs' cwd m ps src_dir dst_dir l st
          = link_step fs cwd m ps src_dir dst_dir l st) as ->.
  { unfold link_step. cbn zeta. destruct (first_prefix _ _); [|done].
    by rewrite (new_link_same_kinds fs fs'). }
  destruct (link_step fs cwd m ps src_dir dst_dir l st); [apply IH|done].
Qed.

(** The loop over links each round of which replaces its link. *)
Lemma link_rounds (step : str → str * log → result (str * log))
    (new : str → str) ls :
  (∀ l content log,
     l ∈ ls → step l (content, log) = Ok (replace content l (new l), log)) →
  ∀ content log,
    for_each step ls (content, log)
    = Ok (fold_left (λ c l, replace c l (new l)) ls content, log).
Proof.
  induction ls as [|l ls IH]; intros Hstep content log; [done|].
  rewrite for_each_cons, Hstep by left. cbn [mbind result_bind fold_left].
  apply IH. intros ? ? ? ?. apply Hstep. by right.
Qed.

(** The round of a document that can be read: the loop over its links
    runs on the text that was read, and the file gets the text that
    comes out of it. *)
Lemma file_step_rewrites cwd docusaurus_dir (s2d d2s : mapping) file fs l
    fs' l' text src_dir :
  let _file := dst_file fs docusaurus_dir file in
  file_step cwd docusaurus_dir s2d d2s file (fs, l) = Ok (fs', l') →
  read fs _file = Ok text →
  source_dir d2s _file = Ok src_dir →
  ∃ content,
    for_each
      (link_step fs cwd s2d (possible_src s2d) src_dir (os_path.dirname _file))
      (links text) (text, l) = Ok (content, l')
    ∧ fs' = write fs _file content.
Proof.
  rewrite file_step_unfold. cbn zeta. intros H Hread Hsrc.
  rewrite Hsrc in H. cbn [mbind result_bind] in H.
  assert (path_exists fs (dst_file fs docusaurus_dir file) = true) as Hex.
  { apply read_ok in Hread as (bytes & Hbytes & _).
    unfold path_exists. by rewrite Hbytes. }
  rewrite Hex, Hread in H. cbn [mbind result_bind] in H.
  unfold possible_src.
  destruct (for_each _ (links text) (text, l)) as [[content l1]|]; [|done].
  cbn [mbind result_bind fst snd] in H.
  destruct (utf8_valid content); [|done].
  injection H as <- <-. by exists content.
Qed.

Lemma documents_loop_ok cwd docusaurus_dir (s2d d2s : mapping) files fs l
    fs' l' :
  for_each (file_step cwd docusaurus_dir s2d d2s) files (fs, l)
  = Ok (fs', l') →
  same_kinds fs fs'
  ∧ ∀ p, fs' p = fs p
         ∨ (isfile fs p = true
            ∧ ∃ f, f ∈ files ∧ p = dst_file fs docusaurus_dir f).
Proof.
  intros H.
  pose proof (documents_loop cwd docusaurus_dir s2d d2s files fs l) as Hloop.
  rewrite H in Hloop. by destruct Hloop as (_ & ? & ?).
Qed.

(** C1 (as amended): take a document of the sidebar that the loop
    visits once, in the directory [dst_dir], and let the reference of
    every relative link of its text be found under a key of the mapping
    and be that key or a path below it, so that the copy has put it at
    the target of the link. When [_resolve_links] returns, the file
    holds the text that was read with, for each link in turn, every
    occurrence of the text of the link replaced by what is written for
    the relative path from [dst_dir] to the target of the link: the
    path itself when it has no space in it, and the path in angle
    brackets when it has one and no [.md] is there to be removed.
    Following the relative path of a link from [dst_dir] leads to the
    target of the link. *)
Theorem rewritten_links_lead_to_targets (cwd docusaurus_dir : str)
    (to_copy : plan) (sidebar : list nav) (fs fs' : filesystem) (log : log)
    (before after : list str) (file text src_dir : str) (target : str → str) :
  let m := src_to_dst_of fs to_copy in
  let _file := dst_file fs docusaurus_dir file in
  let dst_dir := os_path.dirname _file in
  _resolve_links cwd docusaurus_dir to_copy sidebar fs = Ok (fs', log) →
  flat_map _walk_struct sidebar = before ++ file :: after →
  (∀ f, f ∈ before ++ after → dst_file fs docusaurus_dir f ≠ _file) →
  read fs _file = Ok text →
  source_dir (create_mappings fs to_copy).2 _file = Ok src_dir →
  os_path.isabs dst_dir = true →
  (∀ src_link,
     src_link ∈ links text →
     copied_to fs cwd m (path_utils.real_join cwd [src_dir; src_link])
       (target src_link)) →
  ∃ dst_link : str → str,
    (∀ src_link,
       src_link ∈ links text →
       os_path.relpath cwd (target src_link) dst_dir
       = Some (dst_link src_link)
       ∧ follow_link cwd dst_dir (dst_link src_link) = target src_link
       ∧ (contains (dst_link src_link) " " = false →
          wrap_spaces (dst_link src_link) = dst_link src_link)
       ∧ (contains (dst_link src_link) " " = true →
          contains (("<" : str) ++ dst_link src_link ++ (">" : str)) ".md"
          = false →
          wrap_spaces (dst_link src_link)
          = ("<" : str) ++ dst_link src_link ++ (">" : str)))
    ∧ fs' _file
      = Some (File (fold_left
                      (λ content src_link,
                         replace content src_link
                           (wrap_spaces (dst_link src_link)))
                      (links text) text)).
Proof.
  intros m _file dst_dir Hrun Hfiles Honce Hread Hsrc Habs Hlinks.
  rewrite resolve_links_unfold, Hfiles, for_each_app in Hrun.
  set (d2s := (create_mappings fs to_copy).2) in *.
  fold (src_to_dst_of fs to_copy) in Hrun. fold m in Hrun.
  match type of Hrun with
  | context [for_each ?body before ?st] =>
      destruct (for_each body before st) as [[fs1 l1]|] eqn:Hbefore; [|done]
  end.
  cbn [mbind result_bind] in Hrun. rewrite for_each_cons in Hrun.
  apply documents_loop_ok in Hbefore as (Hkinds1 & Hframe1).
  destruct (file_step cwd docusaurus_dir m d2s file (fs1, l1))
    as [[fs2 l2]|] eqn:Hstep; [|done].
  cbn [mbind result_bind] in Hrun.
  apply documents_loop_ok in Hrun as (_ & Hframe2).
  pose proof (file_step_same_kinds _ _ _ _ _ _ _ _ _ Hstep) as Hkinds2.
  assert (dst_file fs1 docusaurus_dir file = _file) as Hfile1
    by (by apply dst_file_same_kinds).
  assert (fs1 _file = fs _file) as Hsame.
  { destruct (Hframe1 _file) as [?|(_ & f & Hf & Heq)]; [done|].
    destruct (Honce f); [|done]. apply elem_of_app. by left. }
  assert (read fs1 _file = Ok text) as Hread1
    by (unfold read in *; by rewrite Hsame).
  destruct (file_step_rewrites cwd docusaurus_dir m d2s file fs1 l1 fs2 l2
              text src_dir Hstep) as (content & Hloop & ->);
    [by rewrite Hfile1..|].
  rewrite Hfile1 in Hloop, Hframe2, Hkinds2.
  rewrite (links_loop_same_kinds fs fs1) in Hloop by done.
  set (dst_link := λ src_link,
         default [] (os_path.relpath cwd (target src_link) dst_dir)).
  assert (∀ src_link,
            src_link ∈ links text →
            os_path.relpath cwd (target src_link) dst_dir
            = Some (dst_link src_link)
            ∧ follow_link cwd dst_dir (dst_link src_link) = target src_link
            ∧ ∀ content log,
                link_step fs cwd m (possible_src m) src_dir dst_dir src_link
                  (content, log)
                = Ok (replace content src_link
                        (wrap_spaces (dst_link src_link)), log)) as Hround.
  { intros src_link Hin.
    destruct (link_round_leads_to_target fs cwd m src_dir dst_dir src_link
                (target src_link) (Hlinks src_link Hin) Habs)
      as (d & Hrel & Hfollow & Hstep').
    unfold dst_link. rewrite Hrel. done. }
  exists dst_link. split.
  - intros src_link Hin.
    destruct (Hround src_link Hin) as (Hrel & Hfollow & _).
    destruct (wrap_spaces_written (dst_link src_link)) as [Hplain Hangle].
    done.
  - rewrite (link_rounds _ (λ l, wrap_spaces (dst_link l))) in Hloop.
    + injection Hloop as <- _.
      destruct (Hframe2 _file) as [->|(_ & f & Hf & Heq)].
      * unfold write. by rewrite bool_decide_eq_true_2.
      * rewrite (dst_file_same_kinds fs) in Heq
          by (by eapply same_kinds_trans).
        destruct (Honce f); [|done]. apply elem_of_app. by right.
    + intros l c lg Hin. by apply Hround.
Qed.

Lemma rewritten_links_lead_to_targets_witness :
  let fs := lessons_fs notes_link_text in
  let fs' := write fs lesson_file "[notes](../Shared/notes.md)" in
  let to_copy := [lesson_entry; shared_entry] in
  let m := src_to_dst_of fs to_copy in
  let file : str := "Lessons/l1" in
  let _file := dst_file fs "/dst" file in
  let dst_dir := os_path.dirname _file in
  let src_dir : str := "/src/lessons" in
  let target (src_link : str) : str := "/dst/docs/Shared/notes.md" in
  _resolve_links "/dst" "/dst" to_copy lesson_leaf fs = Ok (fs', [])
  ∧ flat_map _walk_struct lesson_leaf = [] ++ file :: []
  ∧ (∀ f, f ∈ [] ++ [] → dst_file fs "/dst" f ≠ _file)
  ∧ read fs _file = Ok notes_link_text
  ∧ source_dir (create_mappings fs to_copy).2 _file = Ok src_dir
  ∧ os_path.isabs dst_dir = true
  ∧ (∀ src_link,
       src_link ∈ links notes_link_text →
       copied_to fs "/dst" m (path_utils.real_join "/dst" [src_dir; src_link])
         (target src_link))
  ∧ ∃ dst_link : str → str,
      (∀ src_link,
         src_link ∈ links notes_link_text →
         os_path.relpath "/dst" (target src_link) dst_dir
         = Some (dst_link src_link)
         ∧ follow_link "/dst" dst_dir (dst_link src_link) = target src_link
         ∧ (contains (dst_link src_link) " " = false →
            wrap_spaces (dst_link src_link) = dst_link src_link)
         ∧ (contains (dst_link src_link) " " = true →
            contains (("<" : str) ++ dst_link src_link ++ (">" : str)) ".md"
            = false →
            wrap_spaces (dst_link src_link)
            = ("<" : str) ++ dst_link src_link ++ (">" : str)))
      ∧ fs' _file
        = Some (File (fold_left
                        (λ content src_link,
                           replace content src_link
                             (wrap_spaces (dst_link src_link)))
                        (links notes_link_text) notes_link_text)).
Proof.
  intros fs fs' to_copy m file _file dst_dir src_dir target.
  assert (∀ f : str, f ∈ [] ++ [] → dst_file fs "/dst" f ≠ _file) as Honce
    by (by intros f ?%elem_of_nil).
  assert (∀ src_link,
            src_link ∈ links notes_link_text →
            copied_to fs "/dst" m
              (path_utils.real_join "/dst" [src_dir; src_link])
              (target src_link)) as Hlinks.
  { intros src_link Hin.
    assert (links notes_link_text = ["../shared/notes.md" : str]) as Heq
      by reflexivity.
    rewrite Heq in Hin. apply list_elem_of_singleton in Hin as ->.
    exists ("/src/shared" : str), ("/dst/docs/Shared" : str).
    split_and!; [reflexivity..|discriminate|reflexivity]. }
  split_and!; [reflexivity|reflexivity|exact Honce|reflexivity|reflexivity
              |reflexivity|exact Hlinks|].
  exact (rewritten_links_lead_to_targets "/dst" "/dst" to_copy lesson_leaf
           fs fs' [] [] [] file notes_link_text src_dir target
           eq_refl eq_refl Honce eq_refl eq_refl eq_refl Hlinks).
Defined.

(** ** The two mappings of [_resolve_links] *)

Lemma add_mapping_pair fs (m : mapping * mapping) e :
  add_mapping fs m e
  = (mapping_set m.1 (mapped_pair fs e).1 (mapped_pair fs e).2,
     mapping_set m.2 (mapped_pair fs e).2 (mapped_pair fs e).1).
Proof. by destruct e. Qed.

Lemma mapping_set_fresh (m : mapping) k v :
  k ∉ keys m → mapping_set m k v = m ++ [(k, v)].
Proof.
  induction m as [|[k' v'] m IH]; [done|]. cbn. intros Hk.
  rewrite bool_decide_eq_false_2 by (intros ->; apply Hk; by left).
  rewrite IH; [done|]. intros ?. apply Hk. by right.
Qed.

Lemma mapping_get_set (m : mapping) k v k' :
  mapping_get (mapping_set m k v) k'
  = if bool_decide (k = k') then Some v else mapping_get m k'.
Proof.
  induction m as [|[k0 v0] m IH]; cbn.
  - done.
  - destruct (bool_decide (k0 = k)) eqn:Hk0; cbn.
    + apply bool_decide_eq_true in Hk0 as ->. by case_bool_decide.
    + rewrite IH. apply bool_decide_eq_false in Hk0.
      repeat case_bool_decide; congruence.
Qed.

Lemma keys_mapping_set_iff (m : mapping) k v x :
  x ∈ keys (mapping_set m k v) ↔ x = k ∨ x ∈ keys m.
Proof.
  split; [apply keys_mapping_set|].
  intros H. apply getitem_keys. unfold getitem. rewrite mapping_get_set.
  case_bool_decide as Hk; [by eexists|].
  destruct H as [->|H]; [done|].
  apply mapping_get_keys in H as (v' & ->). by eexists.
Qed.

Lemma mapping_get_elem (m : mapping) k v :
  mapping_get m k = Some v → (k, v) ∈ m.
Proof.
  induction m as [|[k' v'] m IH]; [done|]. cbn.
  case_bool_decide as Hk.
  - intros [= ->]. subst. by left.
  - intros H. right. by apply IH.
Qed.

Lemma mapping_get_nodup (m : mapping) k v :
  NoDup (keys m) → (k, v) ∈ m → mapping_get m k = Some v.
Proof.
  induction m as [|[k' v'] m IH]; [by intros _ ?%elem_of_nil|].
  cbn. intros [Hk' Hm]%NoDup_cons [[= -> ->]|Hin]%elem_of_cons.
  - by rewrite bool_decide_eq_true_2.
  - rewrite bool_decide_eq_false_2; [by apply IH|].
    intros ->. apply Hk'. unfold keys.
    apply list_elem_of_fmap. by exists (k, v).
Qed.

(** The state of the mappings after the first loop, from any state. *)
Lemma mappings_loop fs to_copy (m : mapping * mapping) :
  let r := fold_left (add_mapping fs) to_copy m in
  (∀ k, k ∈ keys r.1 ↔ k ∈ keys m.1 ∨ k ∈ (mapped_pair fs <$> to_copy).*1)
  ∧ (∀ k, k ∈ keys r.2 ↔ k ∈ keys m.2 ∨ k ∈ (mapped_pair fs <$> to_copy).*2)
  ∧ (∀ k v, mapping_get r.1 k = Some v →
            mapping_get m.1 k = Some v ∨ (k, v) ∈ mapped_pair fs <$> to_copy)
  ∧ (∀ k v, mapping_get r.2 k = Some v →
            mapping_get m.2 k = Some v ∨ (v, k) ∈ mapped_pair fs <$> to_copy).
Proof.
  revert m. induction to_copy as [|e to_copy IH]; intros m; cbn zeta.
  - cbn. split_and!; try (by left).
    + intros k. split; [by left|]. by intros [?|?%elem_of_nil].
    + intros k. split; [by left|]. by intros [?|?%elem_of_nil].
  - cbn [fold_left]. specialize (IH (add_mapping fs m e)). cbn zeta in IH.
    destruct IH as (Hk1 & Hk2 & Hg1 & Hg2).
    rewrite !fmap_cons. split_and!.
    + intros k. rewrite Hk1, add_mapping_pair. cbn [fst snd].
      rewrite keys_mapping_set_iff, elem_of_cons. tauto.
    + intros k. rewrite Hk2, add_mapping_pair. cbn [fst snd].
      rewrite keys_mapping_set_iff, elem_of_cons. tauto.
    + intros k v [H|H]%Hg1; [|right; by right].
      rewrite add_mapping_pair in H. cbn [fst snd] in H.
      rewrite mapping_get_set in H. case_bool_decide as Hk; [|by left].
      injection H as <-. subst k. right. by left.
    + intros k v [H|H]%Hg2; [|right; by right].
      rewrite add_mapping_pair in H. cbn [fst snd] in H.
      rewrite mapping_get_set in H. case_bool_decide as Hk; [|by left].
      injection H as <-. subst k. right. by left.
Qed.

(** X11: the two mappings record the copy plan and nothing else. Each
    source of the plan, without the slashes at its end, is a key of
    [src_to_dst], and each destination that the loop has made for a
    pair is a key of [dst_to_src]; an entry of either mapping is the
    pair made for some pair of the plan. *)
Theorem mappings_record_the_plan (fs : filesystem) (to_copy : plan) :
  let src_to_dst := (create_mappings fs to_copy).1 in
  let dst_to_src := (create_mappings fs to_copy).2 in
  let pairs := mapped_pair fs <$> to_copy in
  (∀ k, k ∈ keys src_to_dst ↔ k ∈ pairs.*1)
  ∧ (∀ k, k ∈ keys dst_to_src ↔ k ∈ pairs.*2)
  ∧ (∀ k v, mapping_get src_to_dst k = Some v → (k, v) ∈ pairs)
  ∧ (∀ k v, mapping_get dst_to_src k = Some v → (v, k) ∈ pairs).
Proof.
  cbn zeta. unfold create_mappings.
  destruct (mappings_loop fs to_copy ([], [])) as (Hk1 & Hk2 & Hg1 & Hg2).
  cbn [fst snd] in *. split_and!.
  - intros k. rewrite Hk1. split; [by intros [?%elem_of_nil|?]|by right].
  - intros k. rewrite Hk2. split; [by intros [?%elem_of_nil|?]|by right].
  - intros k v [?|?]%Hg1; done.
  - intros k v [?|?]%Hg2; done.
Qed.

Lemma mappings_loop_nodup fs to_copy (m1 m2 : mapping) :
  NoDup (keys m1 ++ (mapped_pair fs <$> to_copy).*1) →
  NoDup (keys m2 ++ (mapped_pair fs <$> to_copy).*2) →
  fold_left (add_mapping fs) to_copy (m1, m2)
  = (m1 ++ (mapped_pair fs <$> to_copy),
     m2 ++ (prod_swap <$> (mapped_pair fs <$> to_copy))).
Proof.
  revert m1 m2. induction to_copy as [|e to_copy IH]; intros m1 m2.
  - cbn. by rewrite !app_nil_r.
  - rewrite !fmap_cons. cbn [fold_left]. intros H1 H2.
    rewrite add_mapping_pair. cbn [fst snd].
    apply NoDup_app in H1 as (Hm1 & Hnot1 & Hrest1).
    apply NoDup_app in H2 as (Hm2 & Hnot2 & Hrest2).
    apply NoDup_cons in Hrest1 as [Hfresh1 Hrest1].
    apply NoDup_cons in Hrest2 as [Hfresh2 Hrest2].
    rewrite (mapping_set_fresh m1)
      by (intros Hin; eapply Hnot1; [exact Hin|by left]).
    rewrite (mapping_set_fresh m2)
      by (intros Hin; eapply Hnot2; [exact Hin|by left]).
    rewrite IH.
    + rewrite <-!app_assoc. by destruct (mapped_pair fs e).
    + unfold keys. rewrite fmap_app, <-app_assoc. cbn.
      apply NoDup_app. split_and!; [done| |by constructor].
      intros k Hk [->|Hin]%elem_of_cons; [by eapply Hnot1; [done|left]|].
      eapply Hnot1; [done|by right].
    + unfold keys. rewrite fmap_app, <-app_assoc. cbn.
      apply NoDup_app. split_and!; [done| |by constructor].
      intros k Hk [->|Hin]%elem_of_cons; [by eapply Hnot2; [done|left]|].
      eapply Hnot2; [done|by right].
Qed.

Lemma fst_prod_swap {A B : Type} (l : list (A * B)) :
  (prod_swap <$> l).*1 = l.*2.
Proof. induction l as [|[a b] l IH]; [done|]. cbn. by f_equal. Qed.

(** X12: when no two pairs of the copy plan give the same source and
    no two give the same destination, each mapping is the inverse of
    the other: [src_to_dst] has the pairs made by the loop in the order
    in which the plan is iterated, [dst_to_src] the same pairs turned
    around. *)
Theorem mappings_are_inverse (fs : filesystem) (to_copy : plan) :
  let src_to_dst := (create_mappings fs to_copy).1 in
  let dst_to_src := (create_mappings fs to_copy).2 in
  let pairs := mapped_pair fs <$> to_copy in
  NoDup pairs.*1 →
  NoDup pairs.*2 →
  src_to_dst = pairs
  ∧ dst_to_src = prod_swap <$> pairs
  ∧ ∀ k v, mapping_get src_to_dst k = Some v ↔ mapping_get dst_to_src v = Some k.
Proof.
  cbn zeta. intros H1 H2. unfold create_mappings.
  rewrite mappings_loop_nodup by done. cbn [fst snd app].
  split_and!; [done|done|]. intros k v. split.
  - intros H%mapping_get_elem. apply mapping_get_nodup.
    + unfold keys. by rewrite fst_prod_swap.
    + apply list_elem_of_fmap. by exists (k, v).
  - intros H%mapping_get_elem. apply mapping_get_nodup; [done|].
    apply list_elem_of_fmap in H as ([k' v'] & [= -> ->] & H). done.
Qed.

Lemma mappings_are_inverse_witness :
  let fs := lessons_fs [] in
  let to_copy := [lesson_entry; shared_entry] in
  let src_to_dst := (create_mappings fs to_copy).1 in
  let dst_to_src := (create_mappings fs to_copy).2 in
  let pairs := mapped_pair fs <$> to_copy in
  NoDup pairs.*1
  ∧ NoDup pairs.*2
  ∧ src_to_dst = pairs
  ∧ dst_to_src = prod_swap <$> pairs
  ∧ ∀ k v, mapping_get src_to_dst k = Some v ↔ mapping_get dst_to_src v = Some k.
Proof.
  intros fs to_copy src_to_dst dst_to_src pairs.
  assert (NoDup pairs.*1) as H1
    by (refine (bool_decide_unpack _ _); vm_compute; exact I).
  assert (NoDup pairs.*2) as H2
    by (refine (bool_decide_unpack _ _); vm_compute; exact I).
  split; [exact H1|]. split; [exact H2|].
  exact (mappings_are_inverse fs to_copy H1 H2).
Defined.

(** ** The shape of the links *)

Lemma md_group_spec s g n :
  re.md_group s = Some (g, n) →
  (∃ b, s = g ++ ")"%char :: b) ∧ (")"%char ∉ g) ∧ re.newline ∉ g.
Proof.
  revert g n. induction s as [|c s IH]; intros g n; [done|].
  cbn [re.md_group]. case_bool_decide as Hc.
  - intros [= <- _]. subst c.
    split_and!; [by exists s|by intros ?%elem_of_nil..].
  - case_bool_decide as Hn; [done|].
    destruct (re.md_group s) as [[g' n']|]; [|done]. cbn.
    intros [= <- _]. destruct (IH g' n' eq_refl) as ((b & ->) & Hp & Hl).
    split_and!; [by exists b| |]; by intros [?|?]%elem_of_cons.
Qed.

Lemma iframe_group_spec s g n :
  re.iframe_group s = Some (g, n) →
  (∃ b, s = g ++ re.quote :: b) ∧ re.newline ∉ g.
Proof.
  revert g n. induction s as [|c s IH]; intros g n; [done|].
  cbn [re.iframe_group]. cbn zeta.
  set (more := if bool_decide (c = re.newline) then None
               else re.grow c (re.iframe_group s)).
  assert (more = Some (g, n) →
          (∃ b, c :: s = g ++ re.quote :: b) ∧ re.newline ∉ g) as Hmore.
  { unfold more. case_bool_decide as Hn; [done|].
    destruct (re.iframe_group s) as [[g' n']|]; [|done]. cbn.
    intros [= <- _]. destruct (IH g' n' eq_refl) as ((b & ->) & Hl).
    split; [by exists b|]. by intros [?|?]%elem_of_cons. }
  clearbody more.
  destruct (bool_decide (c = re.quote)) eqn:Hc; [|exact Hmore].
  apply bool_decide_eq_true in Hc as ->.
  destruct (re.iframe_close s) as [k|]; [|exact Hmore].
  intros [= <- _]. split; [by exists s|by intros ?%elem_of_nil].
Qed.

Lemma target_spec rest s g n :
  re.target rest s = Some (g, n) →
  ∃ pre t g' n',
    (pre = of_string "./" ∨ pre = of_string "../")
    ∧ s = pre ++ t ∧ g = pre ++ g' ∧ rest t = Some (g', n').
Proof.
  unfold re.target.
  destruct s as [|c1 [|c2 s]]; [done|by case_match; repeat case_match|].
  destruct (ascii_dec c1 ".") as [->|]; [|by repeat case_match].
  destruct (ascii_dec c2 "/") as [->|].
  - destruct (rest s) as [[g' n']|] eqn:Hrest; [|done].
    intros [= <- _]. exists "./", s, g', n'. by split_and!; [left|..].
  - destruct (ascii_dec c2 ".") as [->|]; [|by repeat case_match].
    destruct s as [|c3 s]; [done|].
    destruct (ascii_dec c3 "/") as [->|]; [|by repeat case_match].
    destruct (rest s) as [[g' n']|] eqn:Hrest; [|done].
    intros [= <- _]. exists "../", s, g', n'. by split_and!; [right|..].
Qed.

Lemma relative_target_app pre g :
  pre = of_string "./" ∨ pre = of_string "../" →
  re.newline ∉ g → relative_target (pre ++ g).
Proof.
  intros [->| ->] Hl; (split; [by (left + right)|]).
  - intros [?|[?|?]%elem_of_cons]%elem_of_cons; done.
  - intros [?|[?|[?|?]%elem_of_cons]%elem_of_cons]%elem_of_cons; done.
Qed.

Lemma md_target_spec s g n :
  re.target re.md_group s = Some (g, n) →
  (∃ b, s = g ++ ")"%char :: b) ∧ (")"%char ∉ g) ∧ relative_target g.
Proof.
  intros (pre & t & g' & n' & Hpre & -> & -> & Hg)%target_spec.
  apply md_group_spec in Hg as ((b & ->) & Hp & Hl). split_and!.
  - exists b. by rewrite <-app_assoc.
  - intros [Hin|?]%elem_of_app; [|done].
    destruct Hpre as [->| ->];
      by repeat (apply elem_of_cons in Hin as [?|Hin]; [done|]);
      apply elem_of_nil in Hin.
  - by apply relative_target_app.
Qed.

Lemma iframe_target_spec s g n :
  re.target re.iframe_group s = Some (g, n) →
  (∃ b, s = g ++ re.quote :: b) ∧ relative_target g.
Proof.
  intros (pre & t & g' & n' & Hpre & -> & -> & Hg)%target_spec.
  apply iframe_group_spec in Hg as ((b & ->) & Hl). split.
  - exists b. by rewrite <-app_assoc.
  - by apply relative_target_app.
Qed.

Lemma enclosed_cons opening closing g c s :
  enclosed opening closing g s → enclosed opening closing g (c :: s).
Proof. intros (a & b & ->). by exists (c :: a), b. Qed.

Lemma md_label_spec s g n :
  re.md_label s = Some (g, n) →
  enclosed "](" ")" g s ∧ (")"%char ∉ g) ∧ relative_target g.
Proof.
  revert n. induction s as [|c s IH]; intros n; [done|].
  cbn [re.md_label].
  match goal with
  | |- context [match ?h with Some r => Some r | None => _ end] =>
      destruct h as [[g' n']|] eqn:Hhere
  end.
  - intros Heq. injection Heq as -> ->. clear IH.
    destruct (ascii_dec c "]") as [->|]; [|by repeat case_match].
    destruct s as [|c s]; [done|].
    destruct (ascii_dec c "(") as [->|]; [|by repeat case_match].
    apply shift_hit in Hhere as [? Hhere].
    apply md_target_spec in Hhere as ((b & ->) & Hp & Hrel).
    split_and!; [|done|done]. by exists [], b.
  - destruct (bool_decide (c = re.newline)); [done|].
    intros [? H]%shift_hit. destruct (IH _ H) as (Henc & Hp & Hrel).
    split_and!; [|done|done]. by apply enclosed_cons.
Qed.

Lemma iframe_attrs_spec s g n :
  re.iframe_attrs s = Some (g, n) →
  enclosed (("src=" : str) ++ [re.quote]) re.quote g s ∧ relative_target g.
Proof.
  revert n. induction s as [|c s IH]; intros n; [done|].
  cbn [re.iframe_attrs].
  match goal with
  | |- context [match ?h with Some r => Some r | None => _ end] =>
      destruct h as [[g' n']|] eqn:Hhere
  end.
  - intros Heq. injection Heq as -> ->. clear IH.
    destruct (ascii_dec c "s") as [->|]; [|by repeat case_match].
    destruct s as [|c s]; [done|].
    destruct (ascii_dec c "r") as [->|]; [|by repeat case_match].
    destruct s as [|c s]; [done|].
    destruct (ascii_dec c "c") as [->|]; [|by repeat case_match].
    destruct s as [|c s]; [done|].
    destruct (ascii_dec c "=") as [->|]; [|by repeat case_match].
    destruct s as [|c s]; [done|].
    destruct (ascii_dec c re.quote) as [->|]; [|by repeat case_match].
    apply shift_hit in Hhere as [? Hhere].
    apply iframe_target_spec in Hhere as ((b & ->) & Hrel).
    split; [|done]. by exists [], b.
  - destruct (bool_decide (c = re.newline)); [done|].
    intros [? H]%shift_hit. destruct (IH _ H) as (Henc & Hrel).
    split; [|done]. by apply enclosed_cons.
Qed.

Lemma finditer_from_at (P : str → str → Prop) regex :
  (∀ s g n, regex s = Some (g, n) → P s g) →
  (∀ c s g, P s g → P (c :: s) g) →
  ∀ s skip g, g ∈ re.finditer_from regex skip s → P s g.
Proof.
  intros Hregex Hcons. induction s as [|c s IH]; intros skip g; simpl.
  - by intros ?%elem_of_nil.
  - destruct skip as [|k]; [|intros ?%IH; by apply Hcons].
    destruct (regex (c :: s)) as [[g' n]|] eqn:Hhit;
      [|intros ?%IH; by apply Hcons].
    intros [->|Hin]%elem_of_cons; [by eapply Hregex|].
    by apply Hcons, (IH (n - 1)).
Qed.

(** X13: the links that [_resolve_links] handles. A link found in a
    text starts with [./] or [../] and has no line break in it. Found
    by the first pattern, it stands in the text between [](] and the
    first closing parenthesis after it, so there is no closing
    parenthesis in it; found by the second, it stands between [src=]
    with a double quote and a double quote. *)
Theorem links_are_enclosed_targets (text g : str) :
  g ∈ links text →
  relative_target g
  ∧ ((enclosed "](" ")" g text ∧ ")"%char ∉ g)
     ∨ enclosed (("src=" : str) ++ [re.quote]) re.quote g text).
Proof.
  unfold links, re.finditer. intros [Hin|Hin]%elem_of_app.
  - pose proof (finditer_from_at
      (λ s g, relative_target g ∧ enclosed "](" ")" g s ∧ ")"%char ∉ g)
      re.md_link_regex) as H.
    destruct (H) with (s := text) (skip := 0) (g := g)
      as (Hrel & Henc & Hp); [| |done|by split; [|left]].
    + intros s g' n. unfold re.md_link_regex.
      destruct s as [|c s]; [done|].
      destruct (ascii_dec c "[") as [->|]; [|by repeat case_match].
      intros [? (Henc & Hp & Hrel)%md_label_spec]%shift_hit.
      split_and!; [done| |done]. by apply enclosed_cons.
    + intros c s g' (Hrel & Henc & Hp).
      split_and!; [done| |done]. by apply enclosed_cons.
  - pose proof (finditer_from_at
      (λ s g, relative_target g
              ∧ enclosed (("src=" : str) ++ [re.quote]) re.quote g s)
      re.iframe_link_regex) as H.
    destruct (H) with (s := text) (skip := 0) (g := g)
      as (Hrel & Henc); [| |done|by split; [|right]].
    + intros s g' n. unfold re.iframe_link_regex.
      destruct (startswith s "<iframe") eqn:Hs; [|done].
      intros [? (Henc & Hrel)%iframe_attrs_spec]%shift_hit.
      split; [done|]. destruct Henc as (a & b & Hdrop).
      exists (take 7 s ++ a), b.
      rewrite <-app_assoc, <-Hdrop. by rewrite take_drop.
    + intros c s g' (Hrel & Henc). split; [done|]. by apply enclosed_cons.
Qed.

Lemma links_are_enclosed_targets_witness :
  let g : str := "../shared/img/fig1.png" in
  g ∈ links figure_twice_text
  ∧ relative_target g
  ∧ ((enclosed "](" ")" g figure_twice_text ∧ ")"%char ∉ g)
     ∨ enclosed (("src=" : str) ++ [re.quote]) re.quote g figure_twice_text).
Proof.
  intros g. split; [vm_compute; left|].
  apply (links_are_enclosed_targets figure_twice_text g).
  vm_compute. left.
Defined.

(** ** The copy pass on any structure *)

Lemma parse_copy_dict cwd items src dst tc :
  _parse_copy cwd (VDict items) src dst tc
  = for_each (copy_entry cwd src dst) items tc.
Proof.
  cbn [_parse_copy]. revert tc.
  induction items as [|[k v] items IH]; intros tc; [done|].
  rewrite !for_each_cons.
  assert ((match v with
           | VStr s =>
               Ok (set_add (path_utils.real_join cwd [src; s],
                            os_path.join dst [os_path.dirname k]) tc)
           | VList _ => _parse_copy cwd v src (os_path.join dst [k]) tc
           | VDict d =>
               path ← match dict_get d "path" with
                      | None => Ok []
                      | Some (VStr p) => Ok p
                      | Some _ => Raise TypeError
                      end;
               extras ← match dict_get d "extra" with
                        | None => Ok []
                        | Some e => py_iter e
                        end;
               to_copy ← for_each
                           (add_extra cwd (path_utils.real_join cwd [src; path])
                              (os_path.join dst [k])) extras tc;
               with_get "subsections"
                 (λ sub, _parse_copy cwd sub
                           (path_utils.real_join cwd [src; path])
                           (os_path.join dst [k]) to_copy)
                 (Ok to_copy) d
           | VOther => Raise PluginRunError
           end) = copy_entry cwd src dst (k, v) tc) as ->.
  { destruct v as [s|l|d|]; try done. cbn [copy_entry].
    destruct (match dict_get d "path" with
              | None => Ok [] | Some (VStr p) => Ok p | Some _ => Raise TypeError
              end) as [path|]; [|done]. cbn [mbind result_bind].
    destruct (match dict_get d "extra" with
              | None => Ok [] | Some e => py_iter e
              end) as [extras|]; [|done]. cbn [mbind result_bind].
    destruct (for_each _ extras tc) as [tc'|]; [|done]. cbn [mbind result_bind].
    by rewrite with_get_eq. }
  destruct (copy_entry cwd src dst (k, v) tc); [|done].
  cbn [mbind result_bind]. apply IH.
Qed.

Lemma parse_copy_list cwd items src dst tc :
  _parse_copy cwd (VList items) src dst tc
  = for_each (λ item, _parse_copy cwd item src dst) items tc.
Proof. done. Qed.

(** Induction along the calls of [_parse_copy]: on the items of a
    list, and for a dict on the lists and on the ["subsections"] of the
    sections among its values. *)
Lemma copy_ind (P : value → Prop) :
  (∀ s, P (VStr s)) →
  P VOther →
  (∀ items, Forall P items → P (VList items)) →
  (∀ d,
     Forall (λ kv : str * value,
               match kv.2 with
               | VList _ => P kv.2
               | VDict d' => ∀ sub, dict_get d' "subsections" = Some sub → P sub
               | _ => True
               end) d →
     P (VDict d)) →
  ∀ v, P v.
Proof.
  intros Hstr Hother Hlist Hdict v.
  cut (P v ∧ match v with
             | VList items => Forall P items
             | VDict d => Forall (λ kv : str * value, P kv.2) d
             | _ => True
             end); [by intros []|].
  induction v as [s|items IH|d IH|] using value_ind'.
  - done.
  - assert (Forall P items) by (eapply Forall_impl; [done|]; by intros ? []).
    split; [by apply Hlist|done].
  - assert (Forall (λ kv : str * value, P kv.2) d)
      by (eapply Forall_impl; [done|]; by intros ? []).
    split; [|done]. apply Hdict.
    eapply Forall_impl; [exact IH|]. intros [k v] [Hv Hsub]. cbn in *.
    destruct v as [s|items|d'|]; [done|done| |done].
    intros sub Hget%dict_get_elem.
    rewrite Forall_forall in Hsub.
    apply list_elem_of_fmap in Hget as ([k' v'] & -> & Hin).
    by apply (Hsub (k', v')).
  - done.
Qed.

Lemma set_add_elem (e e' : str * str) (tc : plan) :
  e' ∈ set_add e tc ↔ e' = e ∨ e' ∈ tc.
Proof.
  unfold set_add. case_bool_decide as He.
  - split; [by right|]. by intros [->|?].
  - rewrite elem_of_app, list_elem_of_singleton. tauto.
Qed.

Lemma add_extras_grow cwd src dst extras (tc tc' : plan) :
  for_each (add_extra cwd src dst) extras tc = Ok tc' → tc ⊆ tc'.
Proof.
  revert tc. induction extras as [|x extras IH]; intros tc.
  - by intros [= <-].
  - rewrite for_each_cons. destruct x as [s| | |]; try done.
    cbn [add_extra mbind result_bind]. intros H%IH e He.
    apply H, set_add_elem. by right.
Qed.

(** The plan only grows. *)
Lemma parse_copy_grows cwd v :
  ∀ src dst (tc tc' : plan),
    _parse_copy cwd v src dst tc = Ok tc' → tc ⊆ tc'.
Proof.
  induction v as [s| |items IH|d IH] using copy_ind; intros src dst tc tc'.
  - done.
  - done.
  - rewrite parse_copy_list. revert tc.
    induction IH as [|item items Hitem _ IH]; intros tc.
    + by intros [= <-].
    + rewrite for_each_cons.
      destruct (_parse_copy cwd item src dst tc) as [tc1|] eqn:H1; [|done].
      cbn [mbind result_bind]. intros H%IH. etrans; [|done]. by eapply Hitem.
  - rewrite parse_copy_dict. revert tc.
    induction IH as [|[k v] d Hentry _ IH]; intros tc.
    + by intros [= <-].
    + rewrite for_each_cons.
      destruct (copy_entry cwd src dst (k, v) tc) as [tc1|] eqn:H1; [|done].
      cbn [mbind result_bind]. intros H%IH. etrans; [|done].
      clear H IH. cbn in Hentry. destruct v as [s|items|d'|].
      * injection H1 as <-. intros e He. apply set_add_elem. by right.
      * by eapply Hentry.
      * cbn [copy_entry] in H1.
        destruct (match dict_get d' "path" with
                  | None => Ok [] | Some (VStr p) => Ok p
                  | Some _ => Raise TypeError
                  end) as [path|]; [|done]. cbn [mbind result_bind] in H1.
        destruct (match dict_get d' "extra" with
                  | None => Ok [] | Some e => py_iter e
                  end) as [extras|]; [|done]. cbn [mbind result_bind] in H1.
        destruct (for_each _ extras tc) as [tc2|] eqn:H2; [|done].
        cbn [mbind result_bind] in H1. apply add_extras_grow in H2.
        etrans; [done|].
        destruct (dict_get d' "subsections") as [sub|] eqn:Hsub.
        -- by eapply Hentry.
        -- by injection H1 as <-.
      * done.
Qed.

Lemma for_each_grows {A : Type} (body : A → plan → result plan) items :
  (∀ a (tc tc' : plan), body a tc = Ok tc' → tc ⊆ tc') →
  ∀ tc tc' : plan, for_each body items tc = Ok tc' → tc ⊆ tc'.
Proof.
  intros Hbody. induction items as [|a items IH]; intros tc tc'.
  - by intros [= <-].
  - rewrite for_each_cons. destruct (body a tc) as [tc1|] eqn:H1; [|done].
    cbn [mbind result_bind]. intros H%IH. etrans; [|done]. by eapply Hbody.
Qed.

Lemma for_each_elem {A S : Type} (body : A → S → result S) items a s s' :
  for_each body items s = Ok s' → a ∈ items →
  ∃ before after s1 s2,
    items = before ++ a :: after
    ∧ for_each body before s = Ok s1
    ∧ body a s1 = Ok s2
    ∧ for_each body after s2 = Ok s'.
Proof.
  intros H (before & after & ->)%list_elem_of_split.
  rewrite for_each_app in H.
  destruct (for_each body before s) as [s1|] eqn:H1; [|done].
  cbn [mbind result_bind] in H. rewrite for_each_cons in H.
  destruct (body a s1) as [s2|] eqn:H2; [|done].
  cbn [mbind result_bind] in H. by exists before, after, s1, s2.
Qed.

Lemma copy_entry_grows cwd src dst kv (tc tc' : plan) :
  copy_entry cwd src dst kv tc = Ok tc' → tc ⊆ tc'.
Proof.
  intros H. apply (parse_copy_grows cwd (VDict [kv]) src dst).
  rewrite parse_copy_dict, for_each_cons, H. done.
Qed.

(** X14: the copy pass plans every key of every item. When
    [_parse_copy] returns for a list, each string entry of each dict of
    the list has its pair in the plan, whether the key is the first of
    its dict or not: the source is the string under the source path,
    the destination is the directory part of the key under the
    destination path. *)
Theorem every_key_is_planned (cwd : str) (items : list value)
    (src_path dst_path : str) (to_copy to_copy' : plan)
    (d : list (str * value)) (k s : str) :
  _parse_copy cwd (VList items) src_path dst_path to_copy = Ok to_copy' →
  VDict d ∈ items →
  (k, VStr s) ∈ d →
  (path_utils.real_join cwd [src_path; s],
   os_path.join dst_path [os_path.dirname k]) ∈ to_copy'.
Proof.
  rewrite parse_copy_list. intros H Hd Hk.
  destruct (for_each_elem _ _ _ _ _ H Hd)
    as (before & after & tc1 & tc2 & _ & _ & Hitem & Hafter).
  apply (for_each_grows _ after (λ a, parse_copy_grows cwd a src_path dst_path))
    in Hafter.
  apply Hafter. rewrite parse_copy_dict in Hitem.
  destruct (for_each_elem _ _ _ _ _ Hitem Hk)
    as (before' & after' & tc3 & tc4 & _ & _ & Hentry & Hafter').
  apply (for_each_grows _ after' (copy_entry_grows cwd src_path dst_path))
    in Hafter'.
  apply Hafter'. injection Hentry as <-. apply set_add_elem. by left.
Qed.

Lemma every_key_is_planned_witness :
  let to_copy' : plan :=
    [("/src/intro.md" : str, "/dst/docs/" : str);
     ("/src/notes/notes.md" : str, "/dst/docs/" : str)] in
  _parse_copy "/src" (VList two_keys_items) "/src" "/dst/docs" [] = Ok to_copy'
  ∧ (path_utils.real_join "/src" ["/src" : str; "notes/notes.md" : str],
     os_path.join "/dst/docs" [os_path.dirname "Notes"]) ∈ to_copy'.
Proof.
  intros to_copy'. split; [reflexivity|].
  apply (every_key_is_planned "/src" two_keys_items "/src" "/dst/docs" []
           to_copy'
           [("Intro" : str, VStr "intro.md");
            ("Notes" : str, VStr "notes/notes.md")] "Notes" "notes/notes.md").
  - reflexivity.
  - left.
  - right. left.
Defined.

Lemma same_destinations_refl tc : same_destinations tc tc.
Proof. by intros d. Qed.

Lemma same_destinations_add (s s' d : str) (tc tc' : plan) :
  same_destinations tc tc' →
  same_destinations (set_add (s, d) tc) (set_add (s', d) tc').
Proof.
  intros H x. rewrite !list_elem_of_fmap. split.
  - intros ([s0 d0] & -> & [[= -> ->]|Hin]%set_add_elem).
    + exists (s', d). split; [done|]. apply set_add_elem. by left.
    + assert (d0 ∈ tc.*2) as Hd
        by (apply list_elem_of_fmap; by exists (s0, d0)).
      apply H, list_elem_of_fmap in Hd as ([s1 d1] & Heq & Hin').
      exists (s1, d1). split; [done|]. apply set_add_elem. by right.
  - intros ([s0 d0] & -> & [[= -> ->]|Hin]%set_add_elem).
    + exists (s, d). split; [done|]. apply set_add_elem. by left.
    + assert (d0 ∈ tc'.*2) as Hd
        by (apply list_elem_of_fmap; by exists (s0, d0)).
      apply H, list_elem_of_fmap in Hd as ([s1 d1] & Heq & Hin').
      exists (s1, d1). split; [done|]. apply set_add_elem. by right.
Qed.

Lemma for_each_same_destinations {A : Type}
    (body body' : A → plan → result plan) items :
  Forall (λ a, ∀ tc tc', same_destinations tc tc' →
                 same_destinations_outcome (body a tc) (body' a tc')) items →
  ∀ tc tc', same_destinations tc tc' →
    same_destinations_outcome (for_each body items tc)
      (for_each body' items tc').
Proof.
  induction 1 as [|a items Ha _ IH]; intros tc tc' Htc; [done|].
  rewrite !for_each_cons. specialize (Ha tc tc' Htc).
  destruct (body a tc) as [tc1|e], (body' a tc') as [tc1'|e']; try done.
  cbn [mbind result_bind]. by apply IH.
Qed.

Lemma add_extras_same_destinations cwd src src' dst extras tc tc' :
  same_destinations tc tc' →
  same_destinations_outcome
    (for_each (add_extra cwd src dst) extras tc)
    (for_each (add_extra cwd src' dst) extras tc').
Proof.
  apply for_each_same_destinations. apply Forall_forall.
  intros x _ tc1 tc1' H. destruct x as [s| | |]; try done.
  by apply same_destinations_add.
Qed.

Lemma parse_copy_same_destinations cwd v :
  ∀ src src' dst tc tc',
    same_destinations tc tc' →
    same_destinations_outcome (_parse_copy cwd v src dst tc)
      (_parse_copy cwd v src' dst tc').
Proof.
  induction v as [s| |items IH|d IH] using copy_ind;
    intros src src' dst tc tc' Htc.
  - done.
  - done.
  - rewrite !parse_copy_list. apply for_each_same_destinations; [|done].
    eapply Forall_impl; [exact IH|]. cbn. intros item Hitem tc1 tc1' H1.
    by apply Hitem.
  - rewrite !parse_copy_dict. apply for_each_same_destinations; [|done].
    eapply Forall_impl; [exact IH|]. cbn.
    intros [k v] Hentry tc1 tc1' H1. cbn in Hentry.
    destruct v as [s|items|d'|].
    + by apply same_destinations_add.
    + by apply Hentry.
    + cbn [copy_entry].
      destruct (match dict_get d' "path" with
                | None => Ok [] | Some (VStr p) => Ok p
                | Some _ => Raise TypeError
                end) as [path|]; [|done]. cbn [mbind result_bind].
      destruct (match dict_get d' "extra" with
                | None => Ok [] | Some e => py_iter e
                end) as [extras|]; [|done]. cbn [mbind result_bind].
      pose proof (add_extras_same_destinations cwd
                    (path_utils.real_join cwd [src; path])
                    (path_utils.real_join cwd [src'; path])
                    (os_path.join dst [k]) extras tc1 tc1' H1) as Hextras.
      destruct (for_each _ extras tc1) as [tc2|],
        (for_each _ extras tc1') as [tc2'|]; try done.
      cbn [mbind result_bind].
      destruct (dict_get d' "subsections") as [sub|] eqn:Hsub; [|done].
      by apply Hentry.
    + done.
Qed.

(** X15: where the documents go does not depend on where they come
    from. Two runs of the copy pass on the same structure, from two
    source paths, end alike: both return, with plans that have the
    same destinations, or both raise the same exception. *)
Theorem destinations_ignore_the_sources (cwd : str) (structure : value)
    (src_path src_path' dst_path : str) :
  match _parse_copy cwd structure src_path dst_path [],
        _parse_copy cwd structure src_path' dst_path [] with
  | Ok to_copy, Ok to_copy' => ∀ d, d ∈ to_copy.*2 ↔ d ∈ to_copy'.*2
  | Raise e, Raise e' => e = e'
  | _, _ => False
  end.
Proof.
  apply (parse_copy_same_destinations cwd structure src_path src_path'
           dst_path [] []).
  apply same_destinations_refl.
Qed.

(** ** Extra files and static assets *)

Lemma last_segment_basename src : last_segment src = os_path.basename src.
Proof.
  unfold last_segment, os_path.basename.
  destruct (split_at_last_sep_spec src) as (Hsrc & Hb & Hh).
  destruct (os_path.split_at_last_sep src) as [h b]. cbn [fst snd] in *.
  destruct Hh as [->|(h' & ->)].
  - cbn in Hsrc. subst src. by rewrite split_simple.
  - rewrite Hsrc, <-app_assoc. cbn [app]. rewrite split_app.
    rewrite (split_simple b) by done. by rewrite last_last.
Qed.

Lemma string_item_destination src :
  os_path.isabs (last_segment src) = false.
Proof.
  rewrite last_segment_basename. apply no_sep_not_abs, basename_no_sep.
Qed.

(** X16: an item of [extra_files] or [static_assets] that is a string
    is handed to [shutil] under its base name. No check of the round
    raises for it, so the round reaches its call of [shutil]:
    [copytree] when the source is a directory and [copy] when it is
    not, from the string itself when it is absolute and from the string
    under the input directory when it is not, to the last component of
    the string directly under the Docusaurus directory or its [static]
    directory. What [shutil] does with the call, which raises for a
    source that does not exist, is not part of the statement. *)
Theorem string_items_are_copied_by_name (cwd input_dir docusaurus_dir : str)
    (fs : filesystem) (src : str) :
  let from : str :=
    if os_path.isabs src then src
    else path_utils.real_join cwd [input_dir; src] in
  let shutil_call (dst : str) :=
    if isdir fs from then Copytree from dst else Copy from dst in
  copy_extra_file cwd input_dir docusaurus_dir fs (VStr src)
  = Ok (shutil_call
          (path_utils.real_join cwd [docusaurus_dir; os_path.basename src]))
  ∧ copy_asset cwd input_dir docusaurus_dir fs (VStr src)
    = Ok (shutil_call
            (path_utils.real_join cwd
               [docusaurus_dir; "static" : str; os_path.basename src])).
Proof.
  cbn zeta. unfold copy_extra_file, copy_asset.
  cbn [mbind result_bind fst snd].
  by rewrite string_item_destination, last_segment_basename.
Qed.

(** X17: the only destinations that are refused are the absolute
    ones of dict items. A round of [_copy_extra_files] raises
    [PluginRunError] exactly for a dict whose first value is an absolute
    path, a round of [_copy_assets] exactly for a dict whose first key
    is. *)
Theorem absolute_destinations_are_refused (cwd input_dir docusaurus_dir : str)
    (fs : filesystem) (item : value) :
  (copy_extra_file cwd input_dir docusaurus_dir fs item = Raise PluginRunError
   ↔ ∃ src dst rest,
       item = VDict ((src, VStr dst) :: rest) ∧ os_path.isabs dst = true)
  ∧ (copy_asset cwd input_dir docusaurus_dir fs item = Raise PluginRunError
     ↔ ∃ dst src rest,
         item = VDict ((dst, src) :: rest) ∧ os_path.isabs dst = true).
Proof.
  split; split.
  - unfold copy_extra_file.
    destruct item as [src| |[|[src dst] rest]|]; try done.
    + cbn [mbind result_bind fst snd]. by rewrite string_item_destination.
    + cbn [mbind result_bind fst snd]. destruct dst as [dst| | |]; try done.
      cbn [mbind result_bind]. destruct (os_path.isabs dst) eqn:Hd; [|done].
      intros _. by exists src, dst, rest.
  - intros (src & dst & rest & -> & Hd). unfold copy_extra_file.
    cbn [mbind result_bind fst snd]. by rewrite Hd.
  - unfold copy_asset.
    destruct item as [src| |[|[dst src] rest]|]; try done.
    + cbn [mbind result_bind fst snd]. by rewrite string_item_destination.
    + cbn [mbind result_bind fst snd].
      destruct (os_path.isabs dst) eqn:Hd.
      * intros _. by exists dst, src, rest.
      * by destruct src.
  - intros (dst & src & rest & -> & Hd). unfold copy_asset.
    cbn [mbind result_bind fst snd]. by rewrite Hd.
Qed.

Lemma comps_join_relative p parts :
  Forall (λ b, os_path.isabs b = false) parts →
  comps (os_path.join p parts) = comps p ++ concat (comps <$> parts).
Proof.
  unfold os_path.join. intros H. revert p.
  induction H as [|b parts Hb _ IH]; intros p.
  - cbn. by rewrite app_nil_r.
  - cbn [fold_left fmap list_fmap concat].
    by rewrite IH, comps_join2, Hb, <-app_assoc.
Qed.

Lemma real_join_under (cwd : str) (l : list str) (parts : list str) :
  Forall plain l →
  Forall (λ p, os_path.isabs p = false ∧ Forall plain (comps p)) parts →
  path_utils.real_join cwd (rooted l :: parts)
  = rooted (l ++ concat (comps <$> parts)).
Proof.
  intros Hl Hparts. rewrite real_join_rooted. f_equal.
  assert (os_path.join cwd (rooted l :: parts) = os_path.join (rooted l) parts)
    as ->.
  { unfold os_path.join. cbn [fold_left].
    by rewrite (join2_abs cwd) by apply isabs_rooted. }
  rewrite comps_join_relative, comps_rooted by
    (done || (eapply Forall_impl; [exact Hparts|]; by intros ? [])).
  rewrite norm_stack_plain.
  - by rewrite app_nil_r, rev_involutive.
  - apply Forall_app. split; [done|].
    apply Forall_concat, Forall_fmap, Forall_forall.
    intros p Hp. rewrite Forall_forall in Hparts. by apply Hparts.
Qed.

(** X18: a relative destination without [.] and [..] stays below the
    Docusaurus directory. For a dict item whose destination has only
    plain components, the round of [_copy_extra_files] copies to these
    components under the components of the Docusaurus directory, and
    the round of [_copy_assets] to these components under its
    [static]. *)
Theorem plain_destinations_stay_below (cwd input_dir : str)
    (l : list str) (fs : filesystem) (src dst : str)
    (rest rest' : list (str * value)) :
  Forall plain l →
  os_path.isabs dst = false →
  Forall plain (comps dst) →
  (∃ c, copy_extra_file cwd input_dir (rooted l) fs
          (VDict ((src, VStr dst) :: rest)) = Ok c
        ∧ call_dst c = rooted (l ++ comps dst))
  ∧ (∃ c, copy_asset cwd input_dir (rooted l) fs
            (VDict ((dst, VStr src) :: rest')) = Ok c
          ∧ call_dst c = rooted (l ++ ["static" : str] ++ comps dst)).
Proof.
  intros Hl Hd Hdp. unfold copy_extra_file, copy_asset.
  cbn [mbind result_bind fst snd]. rewrite Hd. split.
  - eexists. split; [done|].
    rewrite (real_join_under cwd l [dst]); [|done|by repeat constructor].
    cbn. rewrite app_nil_r. by destruct (isdir fs _).
  - eexists. split; [done|].
    assert (plain "static") as Hs.
    { split_and!; try done. intros H.
      by repeat (apply elem_of_cons in H as [?|H]; [done|]);
        apply elem_of_nil in H. }
    rewrite (real_join_under cwd l ["static" : str; dst]); [|done|].
    + cbn. rewrite app_nil_r, (comps_simple "static") by by apply plain_simple.
      by destruct (isdir fs _).
    + constructor; [|by repeat constructor].
      split; [done|]. rewrite (comps_simple "static") by by apply plain_simple.
      by constructor.
Qed.

Lemma plain_destinations_stay_below_witness :
  Forall plain ["dst" : str]
  ∧ os_path.isabs "img/logo.png" = false
  ∧ Forall plain (comps "img/logo.png")
  ∧ (∃ c, copy_extra_file "/src" "/src" (rooted ["dst" : str]) (lessons_fs [])
            (VDict [("logo.png" : str, VStr "img/logo.png")]) = Ok c
          ∧ call_dst c = rooted (["dst" : str] ++ comps "img/logo.png"))
  ∧ (∃ c, copy_asset "/src" "/src" (rooted ["dst" : str]) (lessons_fs [])
            (VDict [("img/logo.png" : str, VStr "logo.png")]) = Ok c
          ∧ call_dst c
            = rooted (["dst" : str] ++ ["static" : str] ++ comps "img/logo.png")).
Proof.
  assert (plain "dst" ∧ plain "img" ∧ plain "logo.png") as (H1 & H2 & H3).
  { unfold plain. split_and!; try done; intros H;
      by repeat (apply elem_of_cons in H as [?|H]; [done|]);
        apply elem_of_nil in H. }
  assert (Forall plain ["dst" : str]) as Hl
    by (apply Forall_cons; split; [exact H1|apply Forall_nil_2]).
  assert (Forall plain (comps "img/logo.png")) as Hp
    by (vm_compute; apply Forall_cons; split; [exact H2|];
        apply Forall_cons; split; [exact H3|apply Forall_nil_2]).
  split; [exact Hl|]. split; [reflexivity|]. split; [exact Hp|].
  exact (plain_destinations_stay_below "/src" "/src" ["dst" : str]
           (lessons_fs []) "logo.png" "img/logo.png" [] [] Hl eq_refl Hp).
Defined.

(** X19: a round of [_copy_assets] is a round of [_copy_extra_files]
    for the directory [static], with the dict turned around: in
    [static_assets] the key of a dict is the destination and the value
    the source, in [extra_files] the key is the source and the value
    the destination. *)
Theorem assets_are_extra_files_under_static (cwd input_dir docusaurus_dir : str)
    (fs : filesystem) :
  os_path.isabs docusaurus_dir = true →
  let static := os_path.join docusaurus_dir ["static" : str] in
  (∀ src,
     copy_asset cwd input_dir docusaurus_dir fs (VStr src)
     = copy_extra_file cwd input_dir static fs (VStr src))
  ∧ (∀ src dst rest rest',
       copy_asset cwd input_dir docusaurus_dir fs
         (VDict ((dst, VStr src) :: rest))
       = copy_extra_file cwd input_dir static fs
           (VDict ((src, VStr dst) :: rest'))).
Proof.
  intros Habs static.
  assert (∀ dst, path_utils.real_join cwd [docusaurus_dir; "static" : str; dst]
                 = path_utils.real_join cwd [static; dst]) as Hjoin.
  { intros dst. unfold path_utils.real_join, static, os_path.join.
    cbn [fold_left]. rewrite (join2_abs cwd docusaurus_dir) by done.
    by rewrite (join2_abs cwd (os_path.join2 docusaurus_dir _))
      by by apply isabs_join2. }
  split.
  - intros src. unfold copy_asset, copy_extra_file.
    cbn [mbind result_bind fst snd].
    rewrite string_item_destination. by rewrite Hjoin.
  - intros src dst rest rest'. unfold copy_asset, copy_extra_file.
    cbn [mbind result_bind fst snd].
    destruct (os_path.isabs dst); [done|]. by rewrite Hjoin.
Qed.

Lemma assets_are_extra_files_under_static_witness :
  os_path.isabs "/dst" = true
  ∧ let static := os_path.join "/dst" ["static" : str] in
    (∀ src,
       copy_asset "/src" "/src" "/dst" (lessons_fs []) (VStr src)
       = copy_extra_file "/src" "/src" static (lessons_fs []) (VStr src))
    ∧ (∀ src dst rest rest',
         copy_asset "/src" "/src" "/dst" (lessons_fs [])
           (VDict ((dst, VStr src) :: rest))
         = copy_extra_file "/src" "/src" static (lessons_fs [])
             (VDict ((src, VStr dst) :: rest'))).
Proof.
  split; [reflexivity|].
  apply (assets_are_extra_files_under_static "/src" "/src" "/dst"
           (lessons_fs [])).
  reflexivity.
Defined.

(** ** The agreement of the two passes *)

(** *** Strings that end in a name *)

Lemma all_seps_rstrip s :
  forallb (λ c, bool_decide (c = os_path.sep)) s = true → rstrip s "/" = [].
Proof.
  induction s as [|c s IH]; [done|]. cbn [forallb rstrip].
  intros [Hc Hs]%andb_true_iff. rewrite IH by done.
  rewrite char_in_sep. by rewrite Hc.
Qed.

Lemma rstrip_app_keep a b :
  rstrip b "/" ≠ [] → rstrip (a ++ b) "/" = a ++ rstrip b "/".
Proof.
  intros Hb. induction a as [|c a IH]; [done|].
  rewrite <-app_comm_cons, rstrip_cons; rewrite IH; [done|].
  by destruct a.
Qed.

Lemma rstrip_app_name a b :
  rstrip a "/" ≠ [] → rstrip (a ++ b) "/" ≠ [].
Proof.
  intros Ha Hab. apply Ha, all_seps_rstrip.
  apply rstrip_nil in Hab. rewrite forallb_app in Hab.
  by apply andb_true_iff in Hab as [? _].
Qed.

Lemma rstrip_app_sep a : rstrip (a ++ [os_path.sep]) "/" = rstrip a "/".
Proof.
  induction a as [|c a IH]; [done|].
  rewrite <-app_comm_cons. cbn [rstrip]. by rewrite IH.
Qed.

Lemma rstrip_length s : length (rstrip s "/") ≤ length s.
Proof.
  destruct (rstrip_spec s) as [n Hn]. rewrite Hn at 2.
  rewrite length_app. lia.
Qed.

(** A string that [rstrip] leaves as it is does not end in a slash. *)
Lemma rstrip_fixed_endswith s :
  rstrip s "/" = s → endswith s "/" = false.
Proof.
  intros Hs. destruct (endswith s "/") eqn:He; [|done].
  apply endswith_sep in He as (s' & ->).
  rewrite rstrip_app_sep in Hs.
  pose proof (rstrip_length s') as Hlen. rewrite Hs, length_app in Hlen.
  cbn in Hlen. lia.
Qed.

Lemma join2_relative a b :
  a ≠ [] → rstrip a "/" = a → os_path.isabs b = false →
  os_path.join2 a b = a ++ ("/" : str) ++ b.
Proof.
  intros Ha Hs Hb. unfold os_path.join2. fold (os_path.isabs b).
  rewrite Hb, (rstrip_fixed_endswith a Hs).
  by rewrite bool_decide_eq_false_2.
Qed.

Lemma split_at_last_sep_name b :
  os_path.sep ∉ b → os_path.split_at_last_sep b = ([], b).
Proof.
  induction b as [|c b IH]; [done|]. intros Hb. cbn [os_path.split_at_last_sep].
  rewrite IH by (intros ?; apply Hb; by right).
  rewrite bool_decide_eq_false_2; [done|]. intros ->. apply Hb. by left.
Qed.

Lemma split_at_last_sep_app h b :
  os_path.sep ∉ b →
  os_path.split_at_last_sep (h ++ os_path.sep :: b) = (h ++ [os_path.sep], b).
Proof.
  intros Hb. induction h as [|c h IH].
  - cbn [app os_path.split_at_last_sep]. rewrite split_at_last_sep_name by done.
    by rewrite bool_decide_eq_true_2.
  - rewrite <-!app_comm_cons. cbn [os_path.split_at_last_sep]. rewrite IH.
    by destruct h.
Qed.

(** The directory of a name under a directory that is not the root. *)
Lemma dirname_app h b :
  os_path.sep ∉ b → rstrip h "/" ≠ [] →
  os_path.dirname (h ++ os_path.sep :: b) = rstrip h "/".
Proof.
  intros Hb Hh. unfold os_path.dirname. rewrite split_at_last_sep_app by done.
  cbn [fst]. rewrite rstrip_app_sep.
  destruct (forallb _ (h ++ [os_path.sep])) eqn:Hall; [|done].
  exfalso. apply Hh, all_seps_rstrip.
  rewrite forallb_app in Hall. by apply andb_true_iff in Hall as [? _].
Qed.

(** *** The two paths of a section *)

Lemma aligned_docs docusaurus_dir :
  let docs := os_path.join docusaurus_dir ["docs" : str] in
  aligned docs [] docs.
Proof.
  cbn zeta. set (docs := os_path.join docusaurus_dir ["docs" : str]).
  assert (∃ pre : str, docs = pre ++ ("docs" : str)) as (pre & Hdocs).
  { unfold docs, os_path.join, os_path.join2. cbn [fold_left].
    change (startswith "docs" "/") with false. cbn iota.
    destruct (_ || _); [by eexists|].
    exists (docusaurus_dir ++ ("/" : str)). by rewrite <-app_assoc. }
  assert (rstrip docs "/" = docs) as Hr
    by (rewrite Hdocs; by rewrite rstrip_app_keep).
  assert (docs ≠ []) as Hne by (rewrite Hdocs; by destruct pre).
  unfold aligned. by rewrite app_nil_r.
Qed.

Lemma section_key_spec k :
  section_key k = true ↔ k ≠ [] ∧ os_path.isabs k = false ∧ rstrip k "/" = k.
Proof.
  unfold section_key. rewrite !andb_true_iff, !negb_true_iff.
  rewrite bool_decide_eq_false, bool_decide_eq_true. tauto.
Qed.

Lemma aligned_section docs path dst k :
  aligned docs path dst → section_key k = true →
  aligned docs (path ++ k ++ ("/" : str)) (os_path.join dst [k]).
Proof.
  intros (Heq & Hne & Hr & Habs & Hdocs & Hdr) (Hk & Hkabs & Hkr)%section_key_spec.
  unfold os_path.join. cbn [fold_left]. rewrite join2_relative by done.
  unfold aligned. split_and!; [| | | |done|done].
  - rewrite <-!app_assoc. rewrite (app_assoc dst), Heq.
    by rewrite <-!app_assoc.
  - by destruct dst.
  - rewrite app_assoc, rstrip_app_keep; rewrite Hkr; [|done].
    by rewrite <-app_assoc.
  - destruct path as [|c path]; [|done]. cbn [app]. by rewrite isabs_app.
Qed.

(** The document of a string entry lies in the destination that the
    copy pass plans for the entry. *)
Lemma leaf_lies_in docusaurus_dir path dst k s :
  let docs := os_path.join docusaurus_dir ["docs" : str] in
  aligned docs path dst →
  os_path.isabs k = false →
  lies_in docusaurus_dir (leaf_id k s path)
    (os_path.join dst [os_path.dirname k]).
Proof.
  intros docs (Heq & Hne & Hr & Habs & Hdocs & Hdr) Hk ext Hext.
  destruct (leaf_id_shape k s path) as (name & -> & Hname & Hsep & _).
  change (os_path.join docusaurus_dir ["docs" : str; ?x])
    with (os_path.join2 docs x).
  change (os_path.join dst [os_path.dirname k])
    with (os_path.join2 dst (os_path.dirname k)).
  assert (os_path.sep ∉ name ++ ext) as Hfile.
  { intros [?|Hin]%elem_of_app; [done|].
    destruct Hext as [->| ->];
      by repeat (apply elem_of_cons in Hin as [?|Hin]; [done|]);
        apply elem_of_nil in Hin. }
  assert (os_path.isabs (os_path.dirname k) = false) as Hdk
    by by rewrite isabs_dirname.
  rewrite (join2_relative dst) by done.
  set (dir := match os_path.dirname k with
              | [] => []
              | a :: l => (a :: l) ++ ("/" : str)
              end).
  assert (os_path.isabs ((path ++ dir ++ name) ++ ext) = false) as Hx.
  { destruct path as [|c path]; [|done]. cbn [app]. unfold dir.
    destruct (os_path.dirname k) as [|c dk]; [|done]. cbn [app].
    destruct name as [|c name]; [done|]. cbn [app].
    apply no_sep_not_abs. intros Hin. by apply Hfile. }
  rewrite join2_relative by done.
  assert (docs ++ ("/" : str) ++ (path ++ dir ++ name) ++ ext
          = (dst ++ ("/" : str)) ++ dir ++ name ++ ext) as ->
    by (rewrite Heq; by rewrite <-!app_assoc).
  unfold dir. destruct (os_path.dirname k) as [|c dk].
  - assert ((dst ++ ("/" : str)) ++ [] ++ name ++ ext
            = dst ++ os_path.sep :: (name ++ ext)) as ->
      by by rewrite <-app_assoc.
    rewrite dirname_app; [|done|by rewrite Hr].
    by rewrite app_nil_r, rstrip_app_sep.
  - assert ((dst ++ ("/" : str)) ++ ((c :: dk) ++ ("/" : str)) ++ name ++ ext
            = (dst ++ ("/" : str) ++ c :: dk) ++ os_path.sep :: (name ++ ext))
      as -> by by rewrite <-!app_assoc.
    rewrite dirname_app; [done|done|].
    apply rstrip_app_name. by rewrite Hr.
Qed.

(** *** The documents of a structure *)

Lemma copy_items_agree u cwd docusaurus_dir items :
  let docs := os_path.join docusaurus_dir ["docs" : str] in
  Forall (λ item, ∀ k' v r, item = VDict ((k', v) :: r) →
            ∀ k path dst src (tc tc' : plan) n,
              clean_keys k v = true →
              aligned docs path dst →
              copy_entry cwd src dst (k, v) tc = Ok tc' →
              _parse_sidebar u k v path = Ok n →
              ∀ m, m ∈ n :: nodes_below n → children m = None →
                   ∃ e, e ∈ tc' ∧ lies_in docusaurus_dir (id m) e.2) items →
  ∀ path dst src (tc tc' : plan) ns,
    clean_entries clean_keys items = true →
    aligned docs path dst →
    _parse_copy cwd (VList items) src dst tc = Ok tc' →
    Forall2 (λ item c, ∃ k v rest,
               item = VDict ((k, v) :: rest)
               ∧ _parse_sidebar u k v path = Ok c) items ns →
    ∀ c m, c ∈ ns → m ∈ c :: nodes_below c → children m = None →
           ∃ e, e ∈ tc' ∧ lies_in docusaurus_dir (id m) e.2.
Proof.
  intros docs IH path dst src tc tc' ns Hclean Haligned Hcopy Hns.
  revert tc Hcopy. induction Hns as [|item c items ns Hitem Hns IHns];
    intros tc Hcopy c' m Hc' Hm Hleaf; [by apply elem_of_nil in Hc'|].
  destruct Hitem as (k & v & rest & -> & Hc).
  apply Forall_cons in IH as [IHitem IH].
  cbn [clean_entries] in Hclean. apply andb_true_iff in Hclean as [Hk Hclean].
  rewrite parse_copy_list, for_each_cons in Hcopy.
  destruct (_parse_copy cwd (VDict ((k, v) :: rest)) src dst tc)
    as [tc1|] eqn:Hitem; [|done].
  cbn [mbind result_bind] in Hcopy.
  apply elem_of_cons in Hc' as [->|Hc'].
  - rewrite parse_copy_dict, for_each_cons in Hitem.
    destruct (copy_entry cwd src dst (k, v) tc) as [tc0|] eqn:Hentry; [|done].
    cbn [mbind result_bind] in Hitem.
    destruct (IHitem k v rest eq_refl k path dst src tc tc0 c Hk Haligned
                Hentry Hc m Hm Hleaf) as (e & He & Hlies).
    exists e. split; [|done].
    apply (for_each_grows _ items
             (λ a, parse_copy_grows cwd a src dst) _ _ Hcopy).
    by apply (for_each_grows _ rest (copy_entry_grows cwd src dst) _ _ Hitem).
  - by apply (IHns IH Hclean tc1 Hcopy c' m).
Qed.

Lemma copy_entry_agrees u cwd docusaurus_dir v :
  let docs := os_path.join docusaurus_dir ["docs" : str] in
  ∀ k path dst src (tc tc' : plan) n,
    clean_keys k v = true →
    aligned docs path dst →
    copy_entry cwd src dst (k, v) tc = Ok tc' →
    _parse_sidebar u k v path = Ok n →
    ∀ m, m ∈ n :: nodes_below n → children m = None →
         ∃ e, e ∈ tc' ∧ lies_in docusaurus_dir (id m) e.2.
Proof.
  intros docs.
  induction v as [s| |items IH|d IH] using node_ind;
    intros k path dst src tc tc' n Hclean Haligned Hcopy Hn m Hm Hleaf.
  - injection Hcopy as <-. injection Hn as <-.
    cbn [nodes_below children] in Hm. apply list_elem_of_singleton in Hm as ->.
    eexists. split; [apply set_add_elem; by left|]. cbn [snd id].
    apply leaf_lies_in; [done|]. by apply negb_true_iff in Hclean.
  - done.
  - cbn [clean_keys] in Hclean. apply andb_true_iff in Hclean as [Hk Hclean].
    apply parse_sidebar_list in Hn as (ns & -> & Hns).
    apply elem_of_cons in Hm as [->|Hm]; [done|].
    cbn [nodes_below children] in Hm.
    apply elem_of_flat_map in Hm as (c & Hc & Hm).
    cbn [copy_entry] in Hcopy.
    by eapply (copy_items_agree u cwd docusaurus_dir items IH
                 (path ++ k ++ ("/" : str)) (os_path.join dst [k]) src tc tc' ns
                 Hclean (aligned_section _ _ _ _ Haligned Hk) Hcopy Hns c m).
  - apply parse_sidebar_section in Hn as (items & Hn & [->|Hsub]).
    + apply parse_sidebar_list in Hn as (ns & -> & ->%Forall2_nil_inv_l).
      cbn [nodes_below children flat_map] in Hm.
      by apply list_elem_of_singleton in Hm as ->.
    + cbn [clean_keys] in Hclean. rewrite with_get_eq, Hsub in Hclean.
      cbn [copy_entry] in Hcopy.
      destruct (match dict_get d "path" with
                | None => Ok [] | Some (VStr p) => Ok p
                | Some _ => Raise TypeError
                end) as [p|]; [|done]. cbn [mbind result_bind] in Hcopy.
      destruct (match dict_get d "extra" with
                | None => Ok [] | Some e => py_iter e
                end) as [extras|]; [|done]. cbn [mbind result_bind] in Hcopy.
      destruct (for_each _ extras tc) as [tc2|] eqn:H2; [|done].
      cbn [mbind result_bind] in Hcopy. rewrite Hsub in Hcopy.
      by eapply (IH _ Hsub k path dst (path_utils.real_join cwd [src; p])
                   tc2 tc' n).
Qed.

(** X20: the two passes agree on where a document is. For a structure
    whose keys can name directories (the key of a list or of a section
    is not empty, not absolute and does not end in a slash; the key of
    a string is not absolute), every node of the sidebar without a list
    of children has a pair in the copy plan whose destination, without
    the slashes at its end, is the directory in which [_resolve_links]
    looks for the document of that node, with [.md] and with [.mdx]. *)
Theorem documents_lie_where_they_are_copied (unquote : str → str)
    (cwd docusaurus_dir : str) (structure : value) (p : parsed) :
  clean_structure structure = true →
  _parse_structure unquote cwd docusaurus_dir structure = Ok p →
  ∀ n d,
    n ∈ sidebar p → d ∈ n :: nodes_below n → children d = None →
    ∃ src dst,
      (src, dst) ∈ to_copy p
      ∧ ∀ ext : str,
          ext = of_string ".md" ∨ ext = of_string ".mdx" →
          os_path.dirname
            (os_path.join docusaurus_dir ["docs" : str; id d ++ ext])
          = rstrip dst "/".
Proof.
  intros Hclean (items & Hiter & Hcopy & Htop)%parse_structure_unfold
    n d Hn Hd Hleaf.
  destruct structure as [|items'| |]; try done.
  injection Hiter as ->. cbn [clean_structure] in Hclean.
  apply top_items_unfold in Htop as (ns & [= _ Hns'] & Hns).
  cbn [app] in Hns'. rewrite Hns' in Hn.
  destruct (copy_items_agree unquote cwd docusaurus_dir items) with
    (path := @nil ascii) (dst := os_path.join docusaurus_dir ["docs" : str])
    (src := cwd) (tc := @nil (str * str)) (tc' := to_copy p) (ns := ns)
    (c := n) (m := d) as ([src dst] & He & Hlies);
    [|done|apply aligned_docs|done|done|done|done|done|by exists src, dst].
  apply Forall_forall. intros item _ k' v r ->.
  apply copy_entry_agrees.
Qed.

Lemma documents_lie_where_they_are_copied_witness :
  let p := Parsed false lessons_plan (lessons_sidebar (λ s, s)) in
  clean_structure lessons_structure = true
  ∧ _parse_structure (λ s, s) "/src" "/dst" lessons_structure = Ok p
  ∧ ∀ n d,
      n ∈ sidebar p → d ∈ n :: nodes_below n → children d = None →
      ∃ src dst,
        (src, dst) ∈ to_copy p
        ∧ ∀ ext : str,
            ext = of_string ".md" ∨ ext = of_string ".mdx" →
            os_path.dirname (os_path.join "/dst" ["docs" : str; id d ++ ext])
            = rstrip dst "/".
Proof.
  intros p. split; [reflexivity|]. split; [reflexivity|].
  apply (documents_lie_where_they_are_copied (λ s, s) "/src" "/dst"
           lessons_structure p); reflexivity.
Defined.

(** ** The new link is a relative path *)

Lemma relpath_relative cwd path start link :
  os_path.relpath cwd path start = Some link →
  link ≠ [] ∧ os_path.isabs link = false.
Proof.
  destruct path as [|c path]; [done|].
  rewrite relpath_eq by done. cbn zeta. intros [= <-].
  set (start_list := comps (os_path.abspath cwd start)).
  set (path_list := comps (os_path.abspath cwd (c :: path))).
  set (i := length (os_path.commonprefix start_list path_list)).
  assert (Forall simple
            (repeat (".." : str) (length start_list - i) ++ drop i path_list))
    as Hall.
  { apply Forall_app. split.
    - apply Forall_forall. intros x ->%list_elem_of_In%repeat_spec.
      apply simple_parent.
    - apply Forall_drop, comps_are_simple. }
  destruct (repeat _ _ ++ drop i path_list) as [|a p]; [done|].
  apply Forall_cons in Hall as [Ha Hp].
  destruct (join_simple a p) as (_ & Habs & Hne);
    [by destruct Ha|by apply simple_not_abs|done|done].
Qed.

Lemma wrap_spaces_relative link :
  link ≠ [] → os_path.isabs link = false →
  wrap_spaces link ≠ [] ∧ os_path.isabs (wrap_spaces link) = false.
Proof.
  intros Hne Habs. unfold wrap_spaces.
  destruct (contains link " "); [|done]. by cbn.
Qed.

(** X21: a link is never rewritten to an absolute path or to nothing.
    For a reference found under a key of [src_to_dst], the loop body
    computes a new link, and the new link is not empty and does not
    start with a slash. *)
Theorem new_link_is_relative (fs : filesystem) (cwd : str) (src_to_dst : mapping)
    (dst_dir src_ref _src_ref : str) :
  _src_ref ∈ keys src_to_dst →
  ∃ dst_link,
    new_link fs cwd src_to_dst dst_dir src_ref _src_ref = Ok dst_link
    ∧ dst_link ≠ []
    ∧ os_path.isabs dst_link = false.
Proof.
  intros Hk. destruct (new_link_ok fs cwd src_to_dst dst_dir src_ref _ Hk)
    as (dst_link & Hlink).
  exists dst_link. split; [done|].
  unfold new_link in Hlink.
  destruct (getitem src_to_dst _src_ref) as [_dst_ref|]; [|done].
  cbn [mbind result_bind] in Hlink. cbn zeta in Hlink.
  destruct (os_path.relpath _ _ _) as [link|] eqn:Hrel; [|done].
  injection Hlink as <-. apply relpath_relative in Hrel as [Hne Habs].
  by apply wrap_spaces_relative.
Qed.

Lemma new_link_is_relative_witness :
  let fs := lessons_fs notes_link_text in
  let m := (create_mappings fs [lesson_entry; shared_entry]).1 in
  ("/src/shared" : str) ∈ keys m
  ∧ ∃ dst_link,
      new_link fs "/dst" m "/dst/docs/Lessons" "/src/shared/notes.md"
        "/src/shared" = Ok dst_link
      ∧ dst_link ≠ []
      ∧ os_path.isabs dst_link = false.
Proof.
  intros fs m.
  assert (("/src/shared" : str) ∈ keys m) as Hk by (vm_compute; right; left).
  split; [exact Hk|].
  exact (new_link_is_relative fs "/dst" m "/dst/docs/Lessons"
           "/src/shared/notes.md" "/src/shared" Hk).
Defined.

(** ** Files without links *)

Lemma universal_newlines_no_return s :
  carriage_return ∉ universal_newlines s.
Proof.
  assert (∀ n s, length s ≤ n → carriage_return ∉ universal_newlines s)
    as H; [|by apply (H (length s))].
  clear s. induction n as [|n IH]; intros [|c t] Hlen; cbn in Hlen;
    [apply not_elem_of_nil|lia|apply not_elem_of_nil|].
  cbn [universal_newlines]. case_bool_decide as Hc.
  - apply not_elem_of_cons. split; [done|].
    destruct t as [|c' t']; [apply not_elem_of_nil|].
    case_bool_decide; apply IH; cbn in Hlen |- *; lia.
  - apply not_elem_of_cons. split; [done|]. apply IH. lia.
Qed.

Lemma universal_newlines_id s :
  carriage_return ∉ s → universal_newlines s = s.
Proof.
  induction s as [|c t IH]; [done|].
  intros [Hc Ht]%not_elem_of_cons. cbn [universal_newlines].
  rewrite bool_decide_eq_false_2 by done. by rewrite IH.
Qed.

Lemma universal_newlines_idemp s :
  universal_newlines (universal_newlines s) = universal_newlines s.
Proof. apply universal_newlines_id, universal_newlines_no_return. Qed.

(** A round leaves a file without links with its text, read and
    written back if the file is the document of the round. *)
Lemma file_step_no_links cwd docusaurus_dir (s2d d2s : mapping) file fs l fs' l'
    p content :
  file_step cwd docusaurus_dir s2d d2s file (fs, l) = Ok (fs', l') →
  fs p = Some (File content) → links (universal_newlines content) = [] →
  fs' p
  = Some (File (if bool_decide (p = dst_file fs docusaurus_dir file)
                then universal_newlines content else content)).
Proof.
  rewrite file_step_unfold. cbn zeta. intros H Hp Hlinks.
  destruct (source_dir d2s (dst_file fs docusaurus_dir file)) as [src_dir|];
    [|done].
  cbn [mbind result_bind] in H.
  case_bool_decide as Heq.
  - rewrite <-Heq in H. unfold path_exists, read in H. rewrite Hp in H.
    destruct (utf8_valid content); [|done].
    cbn [mbind result_bind] in H. rewrite Hlinks in H.
    cbn [for_each mbind result_bind fst snd] in H.
    destruct (utf8_valid (universal_newlines content)); [|done].
    injection H as <- <-. unfold write. by rewrite bool_decide_eq_true_2.
  - destruct (path_exists fs (dst_file fs docusaurus_dir file));
      [|by injection H as <- <-].
    destruct (read fs (dst_file fs docusaurus_dir file)) as [text|]; [|done].
    cbn [mbind result_bind] in H.
    destruct (for_each _ (links text) (text, l)) as [r|]; [|done].
    cbn [mbind result_bind] in H.
    destruct (utf8_valid r.1); [|done].
    injection H as <- <-. unfold write. by rewrite bool_decide_eq_false_2.
Qed.

Lemma documents_loop_no_links cwd docusaurus_dir (s2d d2s : mapping) files
    p :
  ∀ fs l fs' l' content,
    for_each (file_step cwd docusaurus_dir s2d d2s) files (fs, l)
    = Ok (fs', l') →
    fs p = Some (File content) → links (universal_newlines content) = [] →
    fs' p
    = Some (File (if bool_decide (p ∈ dst_file fs docusaurus_dir <$> files)
                  then universal_newlines content else content)).
Proof.
  induction files as [|f files IH]; intros fs l fs' l' content.
  - intros [= <- <-] Hp _. rewrite bool_decide_eq_false_2; [done|].
    apply not_elem_of_nil.
  - rewrite for_each_cons.
    destruct (file_step cwd docusaurus_dir s2d d2s f (fs, l))
      as [[fs1 l1]|] eqn:Hstep; [|done].
    cbn [mbind result_bind]. intros Hrest Hp Hlinks.
    pose proof (file_step_same_kinds _ _ _ _ _ _ _ _ _ Hstep) as Hkinds.
    pose proof (file_step_no_links _ _ _ _ _ _ _ _ _ _ _ Hstep Hp Hlinks)
      as Hp1.
    assert (dst_file fs1 docusaurus_dir <$> files
            = dst_file fs docusaurus_dir <$> files) as Hfiles.
    { apply list_fmap_ext. intros _ f' _. by apply dst_file_same_kinds. }
    rewrite fmap_cons.
    destruct (bool_decide (p = dst_file fs docusaurus_dir f)) eqn:Hf.
    + apply bool_decide_eq_true in Hf.
      rewrite (IH fs1 l1 fs' l' _ Hrest Hp1)
        by (by rewrite universal_newlines_idemp).
      rewrite universal_newlines_idemp.
      rewrite (bool_decide_eq_true_2 (p ∈ _ :: _)) by (rewrite Hf; by left).
      by destruct (bool_decide _).
    + apply bool_decide_eq_false in Hf.
      rewrite (IH fs1 l1 fs' l' _ Hrest Hp1 Hlinks), Hfiles.
      destruct (decide (p ∈ dst_file fs docusaurus_dir <$> files)) as [Hin|Hin].
      * rewrite !bool_decide_eq_true_2; [done|by right|done].
      * rewrite !bool_decide_eq_false_2; [done| |done].
        by intros [?|?]%elem_of_cons.
Qed.

(** X22: a file without relative links keeps its text. When
    [_resolve_links] returns, a regular file in whose text, as it is
    read, neither pattern finds a link has the bytes it had if it is
    not at a path tried for an id of the sidebar; if it is, it has been
    read and written and holds its text with every line end as a line
    feed: the same bytes where the file has no carriage return. *)
Theorem files_without_links_keep_their_text (cwd docusaurus_dir : str)
    (to_copy : plan) (sidebar : list nav) (fs fs' : filesystem) (l : log)
    (p content : str) :
  _resolve_links cwd docusaurus_dir to_copy sidebar fs = Ok (fs', l) →
  fs p = Some (File content) →
  links (universal_newlines content) = [] →
  fs' p
  = Some (File (if bool_decide (p ∈ document_paths fs docusaurus_dir sidebar)
                then universal_newlines content else content))
  ∧ (carriage_return ∉ content → fs' p = fs p).
Proof.
  rewrite resolve_links_unfold. intros H Hp Hlinks.
  pose proof (documents_loop_no_links _ _ _ _ _ _ _ _ _ _ _ H Hp Hlinks)
    as Hp'.
  split; [done|]. intros Hcr. rewrite Hp', Hp, universal_newlines_id by done.
  by destruct (bool_decide _).
Qed.

Lemma files_without_links_keep_their_text_witness :
  let fs := lessons_fs plain_text in
  let fs' := write fs lesson_file plain_text_read in
  _resolve_links "/dst" "/dst" [lesson_entry; shared_entry] lesson_leaf fs
  = Ok (fs', [])
  ∧ fs lesson_file = Some (File plain_text)
  ∧ links (universal_newlines plain_text) = []
  ∧ fs' lesson_file
    = Some (File (if bool_decide
                       (lesson_file ∈ document_paths fs "/dst" lesson_leaf)
                  then universal_newlines plain_text else plain_text))
  ∧ (carriage_return ∉ plain_text → fs' lesson_file = fs lesson_file).
Proof.
  intros fs fs'. split; [reflexivity|]. split; [reflexivity|].
  split; [reflexivity|].
  apply (files_without_links_keep_their_text "/dst" "/dst"
           [lesson_entry; shared_entry] lesson_leaf fs fs' []
           lesson_file plain_text); reflexivity.
Defined.
